(** * Sparse Merkle tree hashing: the map hasher, the HStar2 engine and
      the coordinate utilities of trillian, embedded in Rocq.

    The Go sources embedded here are [merkle/maphasher/maphasher.go]
    (package [maphasher]) and the HStar2 calculator of package [merkle]
    (same source file, second part).  Go's [int] and [big.Int] are
    modelled as [Z], a [*big.Int] that the caller supplies as an optional
    [Z] whose [None] is the nil pointer; a [[]byte] is a [bytes], that is
    an optional list of bytes whose [None] is Go's [nil] slice; a panic is
    an explicit outcome. *)

From Stdlib Require Import String Ascii DecimalString.
From Stdlib.Strings Require Import Byte.
From Stdlib Require Import ZArith List Bool Lia Permutation Sorted.
Import ListNotations.
Open Scope Z_scope.

(** ** The fragment of the Go runtime and standard library the code uses *)

Module Go.

(** [[]byte]: [None] is the nil slice. *)
Definition bytes := option (list byte).

Definition data (b : bytes) : list byte :=
  match b with Some l => l | None => [] end.

Definition len {A : Type} (l : list A) : Z := Z.of_nat (length l).

Definition Z_of_byte (b : byte) : Z := Z.of_N (Byte.to_N b).

Definition byte_of_Z (z : Z) : byte :=
  match Byte.of_N (Z.to_N (z mod 256)) with
  | Some b => b
  | None => x00
  end.

(** Run-time panics the embedded code can raise. *)
Inductive panic : Type :=
| PanicHashEmpty (height : Z)   (* panic(fmt.Sprintf("HashEmpty(%v) out of bounds", height)) *)
| PanicSliceBounds              (* slice bounds out of range *)
| PanicMakeSlice                (* makeslice: len out of range *)
| PanicShift                    (* big.Int.Lsh by an unrepresentable amount *)
| PanicNilPointer.              (* invalid memory address or nil pointer dereference *)

Inductive exec (A : Type) : Type :=
| Ret (a : A)
| Panicked (p : panic).
Arguments Ret {A} a.
Arguments Panicked {A} p.

(** [copy(dst, src)]: the contents of [dst] afterwards. *)
Definition copy {A : Type} (dst src : list A) : list A :=
  firstn (length dst) src ++ skipn (length src) dst.

(** [big.Int.SetBytes]: the big-endian unsigned reading of a buffer. *)
Definition SetBytes (buf : list byte) : Z :=
  fold_left (fun acc b => acc * 256 + Z_of_byte b) buf 0.

(** [big.Int.Bytes]: the absolute value as a big-endian byte string
    without leading zero bytes (so zero is the empty string). *)
Fixpoint Bytes_loop (fuel : nat) (z : Z) (acc : list byte) : list byte :=
  match fuel with
  | O => acc
  | S fuel' =>
      if z =? 0 then acc
      else Bytes_loop fuel' (z / 256) (byte_of_Z (z mod 256) :: acc)
  end.

Definition Bytes (x : Z) : list byte :=
  Bytes_loop (S (Z.to_nat (Z.log2 (Z.abs x)))) (Z.abs x) [].

(** [*big.Int]: [None] is the nil pointer. *)
Definition Int := option Z.

(** [x.Bytes()] on a [*big.Int]: a nil receiver is dereferenced. *)
Definition Int_Bytes (x : Int) : exec (list byte) :=
  match x with
  | Some z => Ret (Bytes z)
  | None => Panicked PanicNilPointer
  end.

(** [x.Cmp(y)] on [*big.Int]s: -1, 0 or +1.  It reads the sign of the
    receiver and of the argument, so that a nil one is dereferenced. *)
Definition Cmp (x y : Int) : exec Z :=
  match x, y with
  | Some a, Some b =>
      Ret (match a ?= b with Lt => -1 | Eq => 0 | Gt => 1 end)
  | _, _ => Panicked PanicNilPointer
  end.

(** [sort.Search(n, f)]: the binary search of package [sort]; a panic of
    [f] ends it. *)
Fixpoint Search_loop (fuel : nat) (f : nat -> exec bool) (i j : nat)
    : exec nat :=
  match fuel with
  | O => Ret i
  | S fuel' =>
      if (i <? j)%nat then
        let h := Nat.div2 (i + j) in
        match f h with
        | Panicked p => Panicked p
        | Ret b =>
            if negb b then Search_loop fuel' f (S h) j
            else Search_loop fuel' f i h
        end
      else Ret i
  end.

Definition Search (n : nat) (f : nat -> exec bool) : exec nat :=
  Search_loop n f 0%nat n.

(** Go's [int] is 64 bits wide and wraps around silently. *)
Definition int_wrap (z : Z) : Z := (z + 2 ^ 63) mod 2 ^ 64 - 2 ^ 63.
Definition int_add (a b : Z) : Z := int_wrap (a + b).
Definition int_sub (a b : Z) : Z := int_wrap (a - b).
Definition is_int (z : Z) : Prop := - 2 ^ 63 <= z < 2 ^ 63.

(** [crypto.Hash]: an available hash function, given by its digest size in
    bytes ([Size()], a [uint8] table entry in Go) and its digest. *)
Record crypto_Hash : Type := {
  size_bytes : nat;
  digest : list byte -> list byte
}.

Definition Size (h : crypto_Hash) : Z := Z.of_nat (size_bytes h).

(** [hash.Hash]: a running hash, the bytes written so far. *)
Record hash_Hash : Type := {
  algo : crypto_Hash;
  written : list byte
}.

Definition New (h : crypto_Hash) : hash_Hash := {| algo := h; written := [] |}.

Definition Write (h : hash_Hash) (p : bytes) : hash_Hash :=
  {| algo := algo h; written := written h ++ data p |}.

(** [h.Sum(b)] appends the digest of what was written to [b]. *)
Definition Sum (h : hash_Hash) (b : bytes) : bytes :=
  Some (data b ++ digest (algo h) (written h)).

(** [r[i] = v] on a slice the index is within. *)
Fixpoint store {A : Type} (r : list A) (i : nat) (v : A) : list A :=
  match r, i with
  | [], _ => []
  | _ :: t, O => v :: t
  | x :: t, S i' => x :: store t i' v
  end.

(** [sort.Interface]: what [sort.Sort] is given, the three methods of a
    collection of type [D].  [Less] runs the caller's code and may
    panic. *)
Record Interface (D : Type) : Type := {
  sort_Len : D -> Z;
  sort_Less : D -> nat -> nat -> exec bool;
  sort_Swap : D -> nat -> nat -> D
}.
Arguments sort_Len {D} i d.
Arguments sort_Less {D} i d a b.
Arguments sort_Swap {D} i d a b.

(** A sequence with two of its elements exchanged. *)
Definition exchange {A : Type} (dflt : A) (l : list A) (i j : nat) : list A :=
  store (store l i (nth j l dflt)) j (nth i l dflt).

(** What [sort.Sort] asks of its argument: the collection holds a
    sequence of elements, [Len] is its length, [Swap] exchanges two of
    them and touches nothing else, and [Less] compares two of them by a
    strict weak order, panicking with [p] when one of the two is [bad]. *)
Record Lawful {D A : Type} (I : Interface D) (view : D -> list A) (dflt : A)
    (lt : A -> A -> bool) (bad : A -> bool) (p : panic) : Prop := {
  law_Len : forall d, sort_Len I d = len (view d);
  law_Swap : forall d i j,
    (i < length (view d))%nat -> (j < length (view d))%nat ->
    view (sort_Swap I d i j) = exchange dflt (view d) i j;
  law_Less : forall d i j,
    (i < length (view d))%nat -> (j < length (view d))%nat ->
    sort_Less I d i j
    = if bad (nth i (view d) dflt) || bad (nth j (view d) dflt)
      then Panicked p
      else Ret (lt (nth i (view d) dflt) (nth j (view d) dflt));
  law_irrefl : forall a, lt a a = false;
  law_trans : forall a b c, lt a b = true -> lt b c = true -> lt a c = true;
  law_incomp : forall a b c, lt a b = false -> lt b c = false -> lt a c = false
}.

(** [sort.Sort(data)]: the library's algorithm is not part of the
    repository and is not stable.  It is given here by what it does with
    its argument: it reads [Len] once, rearranges the collection through
    calls of [Swap] at positions below [Len] and in no other way, and
    makes no call at all on fewer than two elements; on a lawful argument
    whose [Less] does not panic it returns with no later element [Less]
    than an earlier one, and on two or more elements it compares each of
    them at least once, so that a panic of [Less] on some element ends
    it.  The result is the collection as the call leaves it and the panic
    that ended the call, if one did. *)
Record Sorter : Type := {
  sort_Sort : forall D : Type, Interface D -> D -> D * option panic;
  sort_Sort_swaps : forall (D : Type) (I : Interface D) (d : D),
    exists swaps : list (nat * nat),
      Forall (fun ij => Z.of_nat (fst ij) < sort_Len I d /\
                        Z.of_nat (snd ij) < sort_Len I d) swaps /\
      fst (sort_Sort D I d)
      = fold_left (fun d ij => sort_Swap I d (fst ij) (snd ij)) swaps d;
  sort_Sort_short : forall (D : Type) (I : Interface D) (d : D),
    sort_Len I d < 2 -> sort_Sort D I d = (d, None);
  sort_Sort_sorted : forall (D A : Type) (I : Interface D) view (dflt : A)
      lt bad p,
    Lawful I view dflt lt bad p ->
    forall d, Forall (fun a => bad a = false) (view d) ->
    snd (sort_Sort D I d) = None /\
    forall i j, (i < j < length (view (fst (sort_Sort D I d))))%nat ->
      lt (nth j (view (fst (sort_Sort D I d))) dflt)
         (nth i (view (fst (sort_Sort D I d))) dflt) = false;
  sort_Sort_panics : forall (D A : Type) (I : Interface D) view (dflt : A)
      lt bad p,
    Lawful I view dflt lt bad p ->
    forall d, 2 <= sort_Len I d -> Exists (fun a => bad a = true) (view d) ->
    snd (sort_Sort D I d) = Some p
}.
Arguments sort_Sort s {D} i d.

End Go.

(** ** Package maphasher *)

Module maphasher.
Import Go.

(** Domain separation prefixes *)
Definition leafHashPrefix : Z := 0.
Definition nodeHashPrefix : Z := 1.

Record MapHasher : Type := {
  Hash : crypto_Hash;
  nullHashes : list bytes
}.

(** [BitLen] returns the number of bits in the hash function. *)
Definition BitLen (m : MapHasher) : Z := Size (Hash m) * 8.

(** [HashLeaf]: the hashed structure is leafHashPrefix||leaf.  The calls
    to [log.Printf] only write diagnostics and are left out. *)
Definition HashLeaf (m : MapHasher) (treeID : Z) (index : bytes) (height : Z)
    (leaf : bytes) : bytes :=
  let h := New (Hash m) in
  let h := Write h (Some [byte_of_Z leafHashPrefix]) in
  let h := Write h leaf in
  Sum h None.

(** [HashChildren]: the hashed structure is nodeHashPrefix||l||r. *)
Definition HashChildren (m : MapHasher) (l r : bytes) : bytes :=
  let h := New (Hash m) in
  let h := Write h (Some [byte_of_Z nodeHashPrefix]) in
  let h := Write h l in
  let h := Write h r in
  Sum h None.

(** [HashEmpty] returns the hash of an empty branch at a given height. *)
Definition HashEmpty (m : MapHasher) (treeID : Z) (index : bytes) (height : Z)
    : exec bytes :=
  if (height <? 0) || (height >=? len (nullHashes m)) then
    Panicked (PanicHashEmpty height)
  else Ret (nth (Z.to_nat height) (nullHashes m) None).

(** The loop of [initNullHashes]: for i := 1; i < nodes; i++. *)
Fixpoint initNullHashes_loop (m : MapHasher) (fuel : nat) (i nodes : nat)
    (r : list bytes) : list bytes :=
  match fuel with
  | O => r
  | S fuel' =>
      if (i <? nodes)%nat then
        let prev := nth (i - 1) r None in
        initNullHashes_loop m fuel' (S i) nodes (store r i (HashChildren m prev prev))
      else r
  end.

(** [initNullHashes] sets the cache of empty hashes, one for each level. *)
Definition initNullHashes (m : MapHasher) : MapHasher :=
  let nodes := (size_bytes (Hash m) * 8 + 1)%nat in
  let r := repeat (None : bytes) nodes in
  let r := store r 0 (HashLeaf m 0 None (Size (Hash m) * 8) None) in
  let r := initNullHashes_loop m nodes 1 nodes r in
  {| Hash := Hash m; nullHashes := r |}.

(** [New] creates a new MapHasher using the passed in hash function. *)
Definition New (h : crypto_Hash) : MapHasher :=
  let m := {| Hash := h; nullHashes := [] |} in
  initNullHashes m.

End maphasher.

(** ** Package merkle: the HStar2 calculator *)

Module merkle.
Import Go maphasher.

Inductive error : Type :=
| ErrNegativeTreeLevelOffset   (* errors.New("treeLevelOffset cannot be negative") *)
| ErrBaseCase (n : Z)          (* fmt.Errorf("hStar2b base case: len(values): %d, want 1", n) *)
| ErrOther (msg : string).     (* any other error value a callback may return *)

(** [HStar2LeafHash] represents a leaf for the HStar2 sparse Merkle tree. *)
Record HStar2LeafHash : Type := {
  Index : Int;
  LeafHash : bytes
}.

(** [HStar2] is the tree calculator: a tree id and a map hasher. *)
Record HStar2 : Type := {
  treeID : Z;
  hasher : MapHasher
}.

Definition NewHStar2 (treeID : Z) (hasher : MapHasher) : HStar2 :=
  {| treeID := treeID; hasher := hasher |}.

(** [Leaves] is a slice of HStar2LeafHash, with its sorting boilerplate. *)
Definition Leaves := list HStar2LeafHash.

Definition zero_leaf : HStar2LeafHash := {| Index := None; LeafHash := None |}.

Definition Len (s : Leaves) : Z := len s.

Definition Swap (s : Leaves) (i j : nat) : Leaves :=
  let si := nth i s zero_leaf in
  let sj := nth j s zero_leaf in
  store (store s i sj) j si.

(** [Less] returns true if i.Index < j.Index.  ([sort.Sort] calls it, as
    it calls [Swap], at positions within the slice.) *)
Definition Less (s : Leaves) (i j : nat) : exec bool :=
  match Cmp (Index (nth i s zero_leaf)) (Index (nth j s zero_leaf)) with
  | Ret c => Ret (c <? 0)
  | Panicked p => Panicked p
  end.

(** [ByIndex] implements sort.Interface by providing Less and using Len
    and Swap methods from the embedded Leaves value. *)
Definition ByIndex : Interface Leaves :=
  {| sort_Len := Len; sort_Less := Less; sort_Swap := Swap |}.

(** The loop of [HStar2Nodes] that logs the leaves: [v.Index.Bytes()]
    reads the index of every leaf through its pointer. *)
Fixpoint log_values (values : Leaves) : exec unit :=
  match values with
  | [] => Ret tt
  | v :: rest =>
      match Int_Bytes (Index v) with
      | Panicked p => Panicked p
      | Ret _ => log_values rest
      end
  end.

(** [PaddedBytes] takes a big.Int and returns its value, left padded with
    zeros. *)
Definition PaddedBytes (i : Z) (size : Z) : exec bytes :=
  let b := Bytes i in
  if size <? 0 then Panicked PanicMakeSlice else
  let ret := repeat x00 (Z.to_nat size) in
  let padBytes := len ret - len b in
  if padBytes <? 0 then Panicked PanicSliceBounds else
  let p := Z.to_nat padBytes in
  Ret (Some (firstn p ret ++ copy (skipn p ret) b)).

(** What a run of the engine does that its caller can observe: the calls
    of the caller's callbacks with their arguments and results, and the
    calls of the hasher. *)
Inductive event : Type :=
| EvGet (level index : Z) (h : bytes) (err : option error)
| EvSet (level index : Z) (hash : bytes) (err : option error)
| EvHashEmpty (treeID : Z) (index : bytes) (height : Z)
| EvHashChildren (l r : bytes).

Section Engine.

(** The state of the caller's node store, which the callbacks read and
    write. *)
Variable St : Type.

(** A computation: from the store to an outcome, the store afterwards and
    the events of the run, oldest first. *)
Definition M (A : Type) : Type := St -> exec A * St * list event.

Definition ret {A : Type} (a : A) : M A := fun st => (Ret a, st, []).

Definition bind {A B : Type} (m : M A) (f : A -> M B) : M B :=
  fun st =>
    match m st with
    | (Ret a, st1, t1) =>
        match f a st1 with
        | (r, st2, t2) => (r, st2, t1 ++ t2)
        end
    | (Panicked p, st1, t1) => (Panicked p, st1, t1)
    end.

Notation "x <- m ;; k" := (bind m (fun x => k))
  (at level 61, m at next level, right associativity).
Notation "' pat <- m ;; k" := (bind m (fun x => match x with pat => k end))
  (at level 61, pat pattern, m at next level, right associativity).

Definition emit (e : event) : M unit := fun st => (Ret tt, st, [e]).

Definition lift {A : Type} (x : exec A) : M A := fun st => (x, st, []).

(** A Go result pair [([]byte, error)]. *)
Definition result : Type := bytes * option error.

(** The three parts of a finished run. *)
Definition outcome {A : Type} (r : exec A * St * list event) : exec A :=
  fst (fst r).
Definition store_after {A : Type} (r : exec A * St * list event) : St :=
  snd (fst r).
Definition events {A : Type} (r : exec A * St * list event) : list event :=
  snd r.

(** The callbacks as the caller supplies them. *)
Definition GetNode : Type := Z -> Z -> St -> result * St.
Definition SetNode : Type := Z -> Z -> bytes -> St -> option error * St.

(** [SparseGetNodeFunc] and [SparseSetNodeFunc] as [hStar2b] receives
    them: closures of the engine. *)
Definition SparseGetNodeFunc : Type := Z -> Z -> M result.
Definition SparseSetNodeFunc : Type := Z -> Z -> bytes -> M (option error).

Definition call_get (get : GetNode) (level index : Z) : M result :=
  fun st =>
    let '((h, err), st') := get level index st in
    (Ret (h, err), st', [EvGet level index h err]).

Definition call_set (set : SetNode) (level index : Z) (hash : bytes)
    : M (option error) :=
  fun st =>
    let '(err, st') := set level index hash st in
    (Ret err, st', [EvSet level index hash err]).

Definition call_HashEmpty (m : MapHasher) (treeID : Z) (index : bytes)
    (height : Z) : M bytes :=
  _ <- emit (EvHashEmpty treeID index height) ;;
  lift (HashEmpty m treeID index height).

Definition call_HashChildren (m : MapHasher) (l r : bytes) : M bytes :=
  _ <- emit (EvHashChildren l r) ;;
  ret (HashChildren m l r).

(** [hStar2b] computes a sparse Merkle tree root value recursively; this
    is its body for n = k >= 0. *)
Fixpoint hStar2b_rec (s : HStar2) (k : nat) (values : Leaves) (offset : Z)
    (get : SparseGetNodeFunc) (set : option SparseSetNodeFunc) : M result :=
  match k with
  | O =>
      match values with
      | [] => get 0 offset
      | [v] => ret (LeafHash v, None)
      | _ => ret (None, Some (ErrBaseCase (len values)))
      end
  | S k' =>
      let n := Z.of_nat (S k') in
      match values with
      | [] => get n offset
      | _ =>
          let split := Z.shiftl 1 (n - 1) + offset in
          match Search (length values) (fun i =>
                    match Cmp (Index (nth i values zero_leaf)) (Some split) with
                    | Ret c => Ret (c >=? 0)
                    | Panicked p => Panicked p
                    end) with
          | Panicked p => lift (Panicked p)
          | Ret i =>
          '(lhs, err) <- hStar2b_rec s k' (firstn i values) offset get set ;;
          match err with
          | Some e => ret (None, Some e)
          | None =>
          '(rhs, err) <- hStar2b_rec s k' (skipn i values) split get set ;;
          match err with
          | Some e => ret (None, Some e)
          | None =>
          h <- call_HashChildren (hasher s) lhs rhs ;;
          _ <- match set with
               | Some set => _ <- set n offset h ;; ret tt
               | None => ret tt
               end ;;
          ret (h, None)
          end
          end
          end
      end
  end.

(** For a negative [n] and values to split, [uint(n-1)] is at least 2^63
    and the shift cannot be carried out. *)
Definition hStar2b (s : HStar2) (n : Z) (values : Leaves) (offset : Z)
    (get : SparseGetNodeFunc) (set : option SparseSetNodeFunc) : M result :=
  if n <? 0 then
    match values with
    | [] => get n offset
    | _ => lift (Panicked PanicShift)
    end
  else hStar2b_rec s (Z.to_nat n) values offset get set.

(** The two closures [HStar2Root] hands to [hStar2b]. *)
Definition root_get (s : HStar2) : SparseGetNodeFunc :=
  fun depth index =>
    padded <- lift (PaddedBytes index (Size (Hash (hasher s)))) ;;
    h <- call_HashEmpty (hasher s) (treeID s) padded depth ;;
    ret (h, None).

Definition root_set : SparseSetNodeFunc := fun _ _ _ => ret None.

(** [HStar2Root] calculates the root of a sparse Merkle tree of depth n
    which contains the given set of non-null leaves.  The first component
    is the caller's slice as the call leaves it; a panic of [Less] during
    the sort ends the call. *)
Definition HStar2Root (srt : Sorter) (s : HStar2) (n : Z) (values : Leaves)
    : Leaves * M result :=
  match sort_Sort srt ByIndex values with
  | (values, Some p) => (values, lift (Panicked p))
  | (values, None) =>
      (values, hStar2b s n values 0 (root_get s) (Some root_set))
  end.

(** The two closures [HStar2Nodes] hands to [hStar2b]. *)
Definition nodes_get (s : HStar2) (treeDepth treeLevelOffset : Z)
    (get : GetNode) : SparseGetNodeFunc :=
  fun depth index =>
    '(h, err) <- call_get get (int_sub treeDepth depth) index ;;
    match err with
    | Some e => ret (None, Some e)
    | None =>
        match h with
        | Some _ => ret (h, None)
        | None =>
            padded <- lift (PaddedBytes index (Size (Hash (hasher s)))) ;;
            h <- call_HashEmpty (hasher s) (treeID s) padded
                   (int_add depth treeLevelOffset) ;;
            ret (h, None)
        end
    end.

Definition nodes_set (treeDepth : Z) (set : SetNode) : SparseSetNodeFunc :=
  fun depth index hash => call_set set (int_sub treeDepth depth) index hash.

(** [HStar2Nodes] calculates the root hash of a pre-existing sparse Merkle
    tree, or of a subtree of it.  The first component is the caller's
    slice as the call leaves it.  Of its calls to [log.Printf] the loop
    over the leaves is kept, [log_values]: it runs before the offset is
    tested and reads every index. *)
Definition HStar2Nodes (srt : Sorter) (s : HStar2) (index : bytes)
    (depth subtreeDepth : Z) (values : Leaves) (get : GetNode) (set : SetNode)
    : Leaves * M result :=
  let treeDepth := subtreeDepth in
  let treeLevelOffset :=
    int_sub (int_sub (BitLen (hasher s)) depth) subtreeDepth in
  match log_values values with
  | Panicked p => (values, lift (Panicked p))
  | Ret _ =>
  if treeLevelOffset <? 0 then
    (values, ret (None, Some ErrNegativeTreeLevelOffset))
  else
    match sort_Sort srt ByIndex values with
    | (values, Some p) => (values, lift (Panicked p))
    | (values, None) =>
        let offset := SetBytes (data index) in
        (values,
         hStar2b s treeDepth values offset
           (nodes_get s treeDepth treeLevelOffset get)
           (Some (nodes_set treeDepth set)))
    end
  end.

(** The recursive core as the specification words it, for comparison
    with [hStar2b]: h(n, values, offset) over the callbacks get and set.
    The specification's leaves carry a number as their index, [index];
    [first_index_ge] is the first index whose leaf index is >= split. *)
Definition index (v : HStar2LeafHash) : Z :=
  match Index v with Some i => i | None => 0 end.

Fixpoint first_index_ge (split : Z) (values : Leaves) : nat :=
  match values with
  | [] => 0%nat
  | v :: rest =>
      if index v >=? split then 0%nat else S (first_index_ge split rest)
  end.

(** Errors of a step end the computation and reach the caller unchanged. *)
Definition and_then (m : M result) (k : bytes -> M result) : M result :=
  bind m (fun r =>
    match snd r with
    | Some e => ret (None, Some e)
    | None => k (fst r)
    end).

Fixpoint h_spec (s : HStar2) (n : nat) (values : Leaves) (offset : Z)
    (get : SparseGetNodeFunc) (set : SparseSetNodeFunc) : M result :=
  match n with
  | O =>
      (* Base *)
      if (length values =? 0)%nat then get 0 offset
      else if (length values =? 1)%nat then
        ret (LeafHash (nth 0 values zero_leaf), None)
      else ret (None, Some (ErrBaseCase (len values)))
  | S n' =>
      if (length values =? 0)%nat then
        (* Empty subtree *)
        get (Z.of_nat n) offset
      else
        (* Split *)
        let split := offset + 2 ^ (Z.of_nat n - 1) in
        let i := first_index_ge split values in
        let lhs := firstn i values in
        let rhs := skipn i values in
        and_then (h_spec s n' lhs offset get set) (fun l =>
        and_then (h_spec s n' rhs split get set) (fun r =>
        combined <- call_HashChildren (hasher s) l r ;;
        _ <- set (Z.of_nat n) offset combined ;;
        ret (combined, None)))
  end.

(** The callbacks of a subtree as the specification words them, for
    comparison with the closures of [HStar2Nodes]: at local recursion
    height n the caller's get and set are called with the level
    subtree_depth - n, and hash_empty, consulted when get has no stored
    value, with the absolute depth n + (bit_len - depth - subtree_depth). *)
Definition level_get (s : HStar2) (depth subtree_depth : Z) (get : GetNode)
    : SparseGetNodeFunc :=
  fun n node_index =>
    '(h, err) <- call_get get (subtree_depth - n) node_index ;;
    match err with
    | Some e => ret (None, Some e)
    | None =>
        match h with
        | Some _ => ret (h, None)
        | None =>
            padded <- lift (PaddedBytes node_index (Size (Hash (hasher s)))) ;;
            h <- call_HashEmpty (hasher s) (treeID s) padded
                   (n + (BitLen (hasher s) - depth - subtree_depth)) ;;
            ret (h, None)
        end
    end.

Definition level_set (subtree_depth : Z) (set : SetNode) : SparseSetNodeFunc :=
  fun n node_index hash => call_set set (subtree_depth - n) node_index hash.

End Engine.

Arguments ret {St A} a.
Arguments bind {St A B} m f.
Arguments lift {St A} x.
Arguments emit {St} e.
Arguments outcome {St A} r.
Arguments store_after {St A} r.
Arguments events {St A} r.
Arguments call_get {St} get level index.
Arguments call_set {St} set level index hash.
Arguments call_HashEmpty {St} m treeID index height.
Arguments call_HashChildren {St} m l r.
Arguments hStar2b_rec {St} s k values offset get set.
Arguments hStar2b {St} s n values offset get set.
Arguments root_get {St} s.
Arguments root_set {St}.
Arguments HStar2Root {St} srt s n values.
Arguments nodes_get {St} s treeDepth treeLevelOffset get.
Arguments nodes_set {St} treeDepth set.
Arguments HStar2Nodes {St} srt s index depth subtreeDepth values get set.
Arguments and_then {St} m k.
Arguments h_spec {St} s n values offset get set.
Arguments level_get {St} s depth subtree_depth get.
Arguments level_set {St} subtree_depth set.

End merkle.

(** ** Package storage: node identifiers *)

Module storage.
Import Go.

(** Modelled from the spec: the NodeID type of package storage and its
    operations [new_empty], [new_for_tree_coords], [bit] and
    [coord_string]; the file that declares them is not among the sources,
    only its tests are.  A NodeID is a tuple (path, prefix_bits,
    path_bits) whose path is a byte buffer of ceil(max_bits / 8) bytes
    holding a bit sequence left-aligned, bit 0 being the most significant
    bit of byte 0. *)
Record NodeID : Type := {
  path : list byte;
  prefix_bits : Z;
  path_bits : Z
}.

Inductive coord_error : Type :=
| IndexTooLargeForDepth.

(** Modelled from the spec: [new_empty(max_bits)] has a path buffer of
    ceil(max_bits/8) zero bytes, prefix_bits = 0 and path_bits = max_bits. *)
Definition new_empty (max_bits : Z) : NodeID :=
  {| path := repeat x00 (Z.to_nat ((max_bits + 7) / 8));
     prefix_bits := 0;
     path_bits := max_bits |}.

(** The big-endian writing of [v] into a buffer of [nbytes] bytes. *)
Definition be_bytes (nbytes : nat) (v : Z) : list byte :=
  map (fun j => byte_of_Z (v / 2 ^ (8 * Z.of_nat (nbytes - 1 - j))))
      (seq 0 nbytes).

(** Modelled from the spec: [new_for_tree_coords(depth, index, max_bits)]
    fails when index >= 2^(max_bits - depth); the resulting prefix_bits is
    max_bits - depth and the path encodes index left-shifted so that its
    most significant bit sits at bit 0 of the buffer. *)
Definition new_for_tree_coords (depth index max_bits : Z)
    : NodeID + coord_error :=
  if index >=? 2 ^ (max_bits - depth) then inr IndexTooLargeForDepth
  else
    let r := new_empty max_bits in
    let width := 8 * len (path r) in
    let prefix := max_bits - depth in
    inl {| path := be_bytes (length (path r)) (Z.shiftl index (width - prefix));
           prefix_bits := prefix;
           path_bits := path_bits r |}.

(** Modelled from the spec: [bit(k)] returns bit k (0 = MSB of byte 0) as
    0 or 1. *)
Definition bit (n : NodeID) (k : Z) : Z :=
  Z.b2z (Z.testbit (Z_of_byte (nth (Z.to_nat (k / 8)) (path n) x00))
                   (7 - k mod 8)).

(** The index the first prefix_bits bits spell, most significant first. *)
Definition decode_index (n : NodeID) : Z :=
  fold_left (fun acc k => 2 * acc + bit n (Z.of_nat k))
            (seq 0 (Z.to_nat (prefix_bits n))) 0.

(** Decimal text of an integer, as the %d verb prints it. *)
Definition decimal (z : Z) : string := NilZero.string_of_int (Z.to_int z).

(** Modelled from the spec: [coord_string()] is "[d:<depth>, i:<index>]"
    where depth = path_bits - prefix_bits and index is decoded from the
    first prefix_bits bits. *)
Definition coord_string (n : NodeID) : string :=
  ("[d:" ++ decimal (path_bits n - prefix_bits n)
   ++ ", i:" ++ decimal (decode_index n) ++ "]")%string.

End storage.

(** ** Package balancer: the random load balancer *)

Module balancer.
Import Go.

(** [grpc.Address], by its address string. *)
Record Address : Type := { Addr : string }.

Definition Address_eqb (a b : Address) : bool := String.eqb (Addr a) (Addr b).

(** [Random] implements grpc.Balancer.  [connectedAddrs] is a Go map
    used as a set ([None] is the nil map, the keys are kept without
    repetition); [notify] is a channel of capacity 1, given by the
    messages it holds. *)
Record Random : Type := {
  connectedAddrs : option (list Address);
  notify : list (list Address)
}.

Definition notify_capacity : nat := 1.

Inductive panic : Type :=
| PanicNilMap.      (* assignment to entry in nil map *)

Inductive outcome (A : Type) : Type :=
| Done (a : A)
| Panics (p : panic)
| Blocks.           (* a send on a full channel waits for a receive *)
Arguments Done {A} a.
Arguments Panics {A} p.
Arguments Blocks {A}.

(** [ch <- v] on a buffered channel. *)
Definition send (ch : list (list Address)) (v : list Address)
    : option (list (list Address)) :=
  if (length ch <? notify_capacity)%nat then Some (ch ++ [v]) else None.

(** [New] returns a random grpc load balancer. *)
Definition New (addresses : list string) : Random :=
  let addrs := map (fun a => {| Addr := a |}) addresses in
  let r := {| connectedAddrs := None; notify := [] |} in
  match send (notify r) addrs with
  | Some ch => {| connectedAddrs := connectedAddrs r; notify := ch |}
  | None => r
  end.

(** [m[k] = true] on a map that is not nil. *)
Definition map_add (m : list Address) (k : Address) : list Address :=
  if existsb (Address_eqb k) m then m else m ++ [k].

(** [delete(m, k)]. *)
Definition map_delete (m : list Address) (k : Address) : list Address :=
  filter (fun a => negb (Address_eqb k a)) m.

(** [Up] adds a connected address to the pool. *)
Definition Up (r : Random) (addr : Address) : outcome Random :=
  match connectedAddrs r with
  | None => Panics PanicNilMap
  | Some m => Done {| connectedAddrs := Some (map_add m addr); notify := notify r |}
  end.

(** The function [Up] returns: it deletes the address, which does
    nothing on a nil map. *)
Definition down (r : Random) (addr : Address) : Random :=
  {| connectedAddrs := option_map (fun m => map_delete m addr) (connectedAddrs r);
     notify := notify r |}.

(** [Get] returns a random address from the connected address pool:
    the first key the iteration over the map yields.  Go randomizes
    that iteration; [start] is where it starts. *)
Definition Get (r : Random) (start : nat) : Address + string :=
  match connectedAddrs r with
  | Some (a :: m) => inl (nth (start mod length (a :: m)) (a :: m) a)
  | _ => inr "No connected addresses"%string
  end.

(** [Close] shuts down this load balancer. *)
Definition Close (r : Random) : outcome Random :=
  match send (notify r) [] with
  | Some ch => Done {| connectedAddrs := connectedAddrs r; notify := ch |}
  | None => Blocks
  end.

End balancer.

(** ** Package client: the log client *)

Module client.
Import Go.

(** The messages of the log API, by the fields the client reads. *)
Record LogLeaf : Type := {
  LeafIndex : Z;
  LeafValue : bytes;
  MerkleLeafHash : bytes
}.

Record LogRootV1 : Type := {
  TreeSize : Z;
  RootHash : bytes;
  TimestampNanos : Z
}.

Record SignedLogRoot : Type := { LogRoot : bytes }.

Record Proof : Type := { Hashes : list bytes }.

(** [int64(x)] of a [uint64]. *)
Definition int64_of_uint64 (x : Z) : Z := int_wrap x.

(** [bytes.Equal]: a nil slice equals an empty one. *)
Definition bytes_Equal (a b : bytes) : bool :=
  if list_eq_dec Byte.byte_eq_dec (data a) (data b) then true else false.

Section Client.

(** The log server as the client reaches it, and the errors the RPC
    layer, the verifier and the decoder return. *)
Variable Srv : Type.
Variable E : Type.

Inductive error : Type :=
| Remote (e : E)                        (* returned as it came *)
| ErrLenLeaves (got want : Z)           (* "len(leaves): %v, want %v" *)
| ErrLeavesShort (got count : Z)        (* "len(Leaves)=%d, want %d" *)
| ErrLeafIndex (i got want : Z)         (* "Leaves[%d].LeafIndex=%d, want %d" *)
| ErrVerifyInclusionByHash (e : E)      (* "VerifyInclusionByHash(): %v" *)
| ErrNoProof.                           (* "no proof" *)

Inductive panic : Type :=
| PanicNilPointer.   (* invalid memory address or nil pointer dereference *)

Inductive exec (A : Type) : Type :=
| Ret (a : A)
| Panicked (p : panic).
Arguments Ret {A} a.
Arguments Panicked {A} p.

(** [trillian.TrillianLogClient]: each call takes the request fields
    and answers with the response's field or an error. *)
Record TrillianLogClient : Type := {
  GetLeavesByIndex : Z -> list Z -> Srv -> (list (option LogLeaf) + E) * Srv;
  GetLeavesByRange : Z -> Z -> Z -> Srv -> (list (option LogLeaf) + E) * Srv;
  GetLatestSignedLogRoot : Z -> Srv -> (option SignedLogRoot + E) * Srv;
  GetConsistencyProof : Z -> Z -> Z -> Srv -> (option Proof + E) * Srv;
  GetInclusionProofByHash :
    Z -> bytes -> Z -> Srv -> (list (option Proof) + E) * Srv
}.

(** [LogVerifier] and [LogRootV1.UnmarshalBinary], which the client
    calls and which are declared elsewhere. *)
Record LogVerifier : Type := {
  VerifyRoot :
    LogRootV1 -> option SignedLogRoot -> list bytes -> LogRootV1 + E;
  VerifyInclusionByHash : LogRootV1 -> bytes -> option Proof -> option E;
  BuildLeaf : bytes -> LogLeaf + E;
  UnmarshalBinary : bytes -> LogRootV1 + E
}.

(** [LogClient] represents a client for a given Trillian log instance. *)
Record LogClient : Type := {
  verifier : LogVerifier;
  LogID : Z;
  rpc : TrillianLogClient;
  root : LogRootV1
}.

(** [New] returns a new LogClient. *)
Definition New (logID : Z) (client : TrillianLogClient)
    (verifier : LogVerifier) (root : LogRootV1) : LogClient :=
  {| verifier := verifier; LogID := logID; rpc := client; root := root |}.

(** [GetByIndex] returns a single leaf at the requested index. *)
Definition GetByIndex (c : LogClient) (index : Z) (srv : Srv)
    : (option LogLeaf + error) * Srv :=
  match GetLeavesByIndex (rpc c) (LogID c) [index] srv with
  | (inr err, srv') => (inr (Remote err), srv')
  | (inl leaves, srv') =>
      if negb (len leaves =? 1) then (inr (ErrLenLeaves (len leaves) 1), srv')
      else (inl (nth 0 leaves None), srv')
  end.

(** The loop of [ListByIndex] over the leaves of the response, from
    position [i] on. *)
Fixpoint check_leaves (start : Z) (i : nat) (leaves : list (option LogLeaf))
    : exec (option error) :=
  match leaves with
  | [] => Ret None
  | l :: rest =>
      match l with
      | None => Panicked PanicNilPointer
      | Some l =>
          let want := int_add start (Z.of_nat i) in
          if negb (LeafIndex l =? want) then
            Ret (Some (ErrLeafIndex (Z.of_nat i) (LeafIndex l) want))
          else check_leaves start (S i) rest
      end
  end.

(** [ListByIndex] returns the requested leaves by index. *)
Definition ListByIndex (c : LogClient) (start count : Z) (srv : Srv)
    : exec (list (option LogLeaf) + error) * Srv :=
  match GetLeavesByRange (rpc c) (LogID c) start count srv with
  | (inr err, srv') => (Ret (inr (Remote err)), srv')
  | (inl leaves, srv') =>
      if len leaves <? count then
        (Ret (inr (ErrLeavesShort (len leaves) count)), srv')
      else
        match check_leaves start 0 leaves with
        | Panicked p => (Panicked p, srv')
        | Ret (Some err) => (Ret (inr err), srv')
        | Ret None => (Ret (inl leaves), srv')
        end
  end.

(** [getAndVerifyLatestRoot] fetches and verifies the latest root against
    a trusted root, seen in the past.  [trusted] is a pointer. *)
Definition getAndVerifyLatestRoot (c : LogClient) (trusted : option LogRootV1)
    (srv : Srv) : exec (LogRootV1 + error) * Srv :=
  match GetLatestSignedLogRoot (rpc c) (LogID c) srv with
  | (inr err, srv1) => (Ret (inr (Remote err)), srv1)
  | (inl signed, srv1) =>
      match signed with
      | None => (Panicked PanicNilPointer, srv1)
      | Some slr =>
          match UnmarshalBinary (verifier c) (LogRoot slr) with
          | inr err => (Ret (inr (Remote err)), srv1)
          | inl logRoot =>
              match trusted with
              | None => (Panicked PanicNilPointer, srv1)
              | Some trusted =>
                  if (TreeSize trusted >? 0)
                     && (TreeSize logRoot =? TreeSize trusted)
                     && bytes_Equal (RootHash logRoot) (RootHash trusted)
                  then (* Tree has not been updated. *)
                    (Ret (inl logRoot), srv1)
                  else
                    let fetched :=
                      if TreeSize trusted >? 0 then
                        match GetConsistencyProof (rpc c) (LogID c)
                                (int64_of_uint64 (TreeSize trusted))
                                (int64_of_uint64 (TreeSize logRoot)) srv1 with
                        | (inr err, srv2) => (inr err, srv2)
                        | (inl proof, srv2) =>
                            (inl (match proof with
                                  | Some p => Hashes p
                                  | None => []
                                  end), srv2)
                        end
                      else (inl [], srv1) in
                    match fetched with
                    | (inr err, srv2) => (Ret (inr (Remote err)), srv2)
                    | (inl hashes, srv2) =>
                        if TreeSize logRoot >? 0 then
                          match VerifyRoot (verifier c) trusted signed hashes with
                          | inr err => (Ret (inr (Remote err)), srv2)
                          | inl _ => (Ret (inl logRoot), srv2)
                          end
                        else (Ret (inl logRoot), srv2)
                    end
              end
          end
      end
  end.

(** [GetRoot] returns a copy of the latest trusted root. *)
Definition GetRoot (c : LogClient) : LogRootV1 := root c.

Definition set_root (c : LogClient) (r : LogRootV1) : LogClient :=
  {| verifier := verifier c; LogID := LogID c; rpc := rpc c; root := r |}.

(** [UpdateRoot] retrieves the current SignedLogRoot, verifying it
    against roots this client has seen in the past, and updating the
    currently trusted root if the new root verifies, and is newer than
    the currently trusted root.  The result is the client afterwards
    and what is returned: a root, nothing, or an error. *)
Definition UpdateRoot (c : LogClient) (srv : Srv)
    : exec (LogClient * (option LogRootV1 + error)) * Srv :=
  let currentlyTrusted := GetRoot c in
  match getAndVerifyLatestRoot c (Some currentlyTrusted) srv with
  | (Panicked p, srv') => (Panicked p, srv')
  | (Ret (inr err), srv') => (Ret (c, inr err), srv')
  | (Ret (inl newTrusted), srv') =>
      if (TimestampNanos newTrusted >? TimestampNanos currentlyTrusted)
         && (TreeSize newTrusted >=? TreeSize currentlyTrusted)
      then (Ret (set_root c newTrusted, inl (Some newTrusted)), srv')
      else (Ret (c, inl None), srv')
  end.

(** The loop of [getAndVerifyInclusionProof] over the proofs. *)
Fixpoint verify_proofs (c : LogClient) (sth : LogRootV1) (leafHash : bytes)
    (proofs : list (option Proof)) : option error :=
  match proofs with
  | [] => None
  | proof :: rest =>
      match VerifyInclusionByHash (verifier c) sth leafHash proof with
      | Some err => Some (ErrVerifyInclusionByHash err)
      | None => verify_proofs c sth leafHash rest
      end
  end.

Definition getAndVerifyInclusionProof (c : LogClient) (leafHash : bytes)
    (sth : LogRootV1) (srv : Srv) : (bool * option error) * Srv :=
  match GetInclusionProofByHash (rpc c) (LogID c) leafHash
          (int64_of_uint64 (TreeSize sth)) srv with
  | (inr err, srv') => ((false, Some (Remote err)), srv')
  | (inl proofs, srv') =>
      if len proofs <? 1 then ((false, None), srv')
      else
        match verify_proofs c sth leafHash proofs with
        | Some err => ((false, Some err), srv')
        | None => ((true, None), srv')
        end
  end.

(** [VerifyInclusion] ensures that the given leaf data has been included
    in the log. *)
Definition VerifyInclusion (c : LogClient) (leafData : bytes) (srv : Srv)
    : option error * Srv :=
  match BuildLeaf (verifier c) leafData with
  | inr err => (Some (Remote err), srv)
  | inl leaf =>
      let root := GetRoot c in
      match getAndVerifyInclusionProof c (MerkleLeafHash leaf) root srv with
      | ((_, Some err), srv') => (Some err, srv')
      | ((false, None), srv') => (Some ErrNoProof, srv')
      | ((true, None), srv') => (None, srv')
      end
  end.

End Client.

Arguments Remote {E} e.
Arguments ErrLenLeaves {E} got want.
Arguments ErrLeavesShort {E} got count.
Arguments ErrLeafIndex {E} i got want.
Arguments ErrVerifyInclusionByHash {E} e.
Arguments ErrNoProof {E}.
Arguments Ret {A} a.
Arguments Panicked {A} p.
Arguments GetLeavesByIndex {Srv E} t _ _ _.
Arguments GetLeavesByRange {Srv E} t _ _ _ _.
Arguments GetLatestSignedLogRoot {Srv E} t _ _.
Arguments GetConsistencyProof {Srv E} t _ _ _ _.
Arguments GetInclusionProofByHash {Srv E} t _ _ _ _.
Arguments VerifyRoot {E} l _ _ _.
Arguments VerifyInclusionByHash {E} l _ _ _.
Arguments BuildLeaf {E} l _.
Arguments UnmarshalBinary {E} l _.
Arguments verifier {Srv E} l.
Arguments LogID {Srv E} l.
Arguments rpc {Srv E} l.
Arguments root {Srv E} l.
Arguments New {Srv E} logID client verifier root.
Arguments GetByIndex {Srv E} c index srv.
Arguments check_leaves {E} start i leaves.
Arguments ListByIndex {Srv E} c start count srv.
Arguments getAndVerifyLatestRoot {Srv E} c trusted srv.
Arguments GetRoot {Srv E} c.
Arguments set_root {Srv E} c r.
Arguments UpdateRoot {Srv E} c srv.
Arguments verify_proofs {Srv E} c sth leafHash proofs.
Arguments getAndVerifyInclusionProof {Srv E} c leafHash sth srv.
Arguments VerifyInclusion {Srv E} c leafData srv.

End client.

(** ** Facts about the runtime fragment *)

Module GoFacts.
Import Go.

Lemma Z_of_byte_range (b : byte) : 0 <= Z_of_byte b < 256.
Proof.
  unfold Z_of_byte. pose proof (Byte.to_N_bounded b) as Hb. lia.
Qed.

Lemma Z_of_byte_of_Z (z : Z) : Z_of_byte (byte_of_Z z) = z mod 256.
Proof.
  unfold Z_of_byte, byte_of_Z.
  assert (Hr : 0 <= z mod 256 < 256) by (apply Z.mod_pos_bound; lia).
  destruct (Byte.of_N (Z.to_N (z mod 256))) as [b|] eqn:E.
  - apply Byte.to_of_N in E. rewrite E. lia.
  - apply Byte.of_N_None_iff in E. lia.
Qed.

Lemma len_nonneg {A : Type} (l : list A) : 0 <= len l.
Proof. unfold len. lia. Qed.

Lemma len_cons {A : Type} (x : A) (l : list A) : len (x :: l) = Z.succ (len l).
Proof. unfold len. simpl length. lia. Qed.

Lemma length_store {A : Type} (r : list A) (i : nat) (v : A) :
  length (store r i v) = length r.
Proof.
  revert i. induction r as [|x r IH]; intros [|i]; simpl; auto.
Qed.

Lemma nth_store_same {A : Type} (r : list A) (i : nat) (v d : A) :
  (i < length r)%nat -> nth i (store r i v) d = v.
Proof.
  revert i. induction r as [|x r IH]; intros [|i] H; simpl in *; try lia; auto.
  apply IH. lia.
Qed.

Lemma nth_store_other {A : Type} (r : list A) (i j : nat) (v d : A) :
  i <> j -> nth j (store r i v) d = nth j r d.
Proof.
  revert i j. induction r as [|x r IH]; intros [|i] [|j] H; simpl; auto;
    congruence.
Qed.

Lemma firstn_repeat_le {A : Type} (x : A) (n k : nat) :
  (n <= k)%nat -> firstn n (repeat x k) = repeat x n.
Proof.
  revert k. induction n as [|n IH]; intros [|k] H; simpl; try lia; auto.
  f_equal. apply IH. lia.
Qed.

(** [copy] fills the whole destination when the source is as long. *)
Lemma copy_same_length {A : Type} (dst src : list A) :
  length dst = length src -> copy dst src = src.
Proof.
  intros H. unfold copy. rewrite H, firstn_all.
  rewrite <- H, skipn_all. apply app_nil_r.
Qed.

End GoFacts.

(** ** The map hasher *)

Module MapHasherProofs.
Import Go GoFacts maphasher.

(** The ladder of empty hashes as the comments of the source describe it:
    e0 is the hash of an empty leaf and e(k+1) = H(ek, ek). *)
Fixpoint ladder (m : MapHasher) (k : nat) : bytes :=
  match k with
  | O => HashLeaf m 0 None (Size (Hash m) * 8) None
  | S k' => HashChildren m (ladder m k') (ladder m k')
  end.

Lemma HashLeaf_same_Hash (m m' : MapHasher) t i h leaf :
  Hash m = Hash m' -> HashLeaf m t i h leaf = HashLeaf m' t i h leaf.
Proof. intros E. unfold HashLeaf. now rewrite E. Qed.

Lemma HashChildren_same_Hash (m m' : MapHasher) l r :
  Hash m = Hash m' -> HashChildren m l r = HashChildren m' l r.
Proof. intros E. unfold HashChildren. now rewrite E. Qed.

Lemma ladder_same_Hash (m m' : MapHasher) k :
  Hash m = Hash m' -> ladder m k = ladder m' k.
Proof.
  intros E. induction k as [|k IH]; simpl.
  - rewrite E. now apply HashLeaf_same_Hash.
  - rewrite IH. now apply HashChildren_same_Hash.
Qed.

Lemma initNullHashes_loop_spec (m : MapHasher) (fuel i nodes : nat) (r : list bytes) :
  (1 <= i <= nodes)%nat ->
  (nodes - i <= fuel)%nat ->
  length r = nodes ->
  (forall j, (j < i)%nat -> nth j r None = ladder m j) ->
  let r' := initNullHashes_loop m fuel i nodes r in
  length r' = nodes /\ forall j, (j < nodes)%nat -> nth j r' None = ladder m j.
Proof.
  revert i r. induction fuel as [|fuel IH]; intros i r Hi Hf Hl Hr; simpl.
  - split; [exact Hl|]. intros j Hj. apply Hr. lia.
  - destruct (Nat.ltb_spec i nodes) as [Hlt|Hge].
    + apply IH; try lia.
      * now rewrite length_store.
      * intros j Hj. destruct (Nat.eq_dec j i) as [->|Hne].
        -- rewrite nth_store_same by lia.
           destruct i as [|i']; [lia|]. simpl.
           replace (i' - 0)%nat with i' by lia.
           rewrite Hr by lia. reflexivity.
        -- rewrite nth_store_other by congruence. apply Hr. lia.
    + split; [exact Hl|]. intros j Hj. apply Hr. lia.
Qed.

Lemma New_nullHashes (h : crypto_Hash) :
  length (nullHashes (New h)) = (size_bytes h * 8 + 1)%nat /\
  forall j, (j < size_bytes h * 8 + 1)%nat ->
    nth j (nullHashes (New h)) None = ladder (New h) j.
Proof.
  unfold New, initNullHashes. cbn [Hash nullHashes].
  set (m0 := {| Hash := h; nullHashes := [] |}).
  set (nodes := (size_bytes h * 8 + 1)%nat).
  set (r0 := store (repeat (None : bytes) nodes) 0%nat _).
  assert (Hl0 : length r0 = nodes).
  { unfold r0. now rewrite length_store, repeat_length. }
  assert (H0 : forall j, (j < 1)%nat -> nth j r0 None = ladder m0 j).
  { intros j Hj. assert (j = 0)%nat as -> by lia.
    unfold r0. rewrite nth_store_same by (rewrite repeat_length; lia).
    reflexivity. }
  assert (Hn : (1 <= 1 <= nodes)%nat) by lia.
  destruct (initNullHashes_loop_spec m0 nodes 1 nodes r0 Hn
              ltac:(lia) Hl0 H0) as [Hlen Hnth].
  split; [exact Hlen|]. intros j Hj. rewrite Hnth by exact Hj.
  now apply ladder_same_Hash.
Qed.

(** C7: HashLeaf hashes the byte 0x00 followed by the leaf bytes, whatever
    the tree id, index and height are; HashChildren hashes the byte 0x01
    followed by the left child hash and then the right child hash. *)
Theorem hash_preimages (m : MapHasher) (treeID treeID' : Z)
    (index index' : bytes) (height height' : Z) (leaf l r : bytes) :
  HashLeaf m treeID index height leaf
    = Some (digest (Hash m) (x00 :: data leaf)) /\
  HashLeaf m treeID' index' height' leaf = HashLeaf m treeID index height leaf /\
  HashChildren m l r = Some (digest (Hash m) (x01 :: data l ++ data r)).
Proof.
  repeat split.
Qed.

(** C5: the hasher that [New] returns carries a ladder of BitLen + 1 null
    hashes; its first entry is the hash of an empty leaf, every later
    entry is HashChildren of the entry before it with itself, HashEmpty
    returns entry k for every k from 0 to BitLen and panics for every
    other height. *)
Theorem null_hash_ladder (h : crypto_Hash) :
  let m := New h in
  let E := fun k : Z => nth (Z.to_nat k) (nullHashes m) None in
  len (nullHashes m) = BitLen m + 1 /\
  E 0 = HashLeaf m 0 None (BitLen m) None /\
  E 0 = Some (digest h [x00]) /\
  (forall k, 1 <= k <= BitLen m -> E k = HashChildren m (E (k - 1)) (E (k - 1))) /\
  (forall treeID index k, 0 <= k <= BitLen m ->
     HashEmpty m treeID index k = Ret (E k)) /\
  (forall treeID index k, k < 0 \/ BitLen m < k ->
     HashEmpty m treeID index k = Panicked (PanicHashEmpty k)).
Proof.
  intros m E. destruct (New_nullHashes h) as [Hlen Hnth]. fold m in Hlen, Hnth.
  assert (HB : BitLen m = Z.of_nat (size_bytes h * 8)).
  { unfold BitLen, Size, m, New, initNullHashes. cbn [Hash]. lia. }
  assert (HL : len (nullHashes m) = BitLen m + 1).
  { unfold len. rewrite Hlen, HB. lia. }
  split; [exact HL|].
  assert (E0 : E 0 = HashLeaf m 0 None (BitLen m) None).
  { unfold E. rewrite Hnth by lia. simpl. unfold BitLen.
    unfold m, New, initNullHashes. reflexivity. }
  split; [exact E0|]. split; [rewrite E0; reflexivity|].
  split; [|split].
  - intros k Hk. unfold E.
    replace (Z.to_nat k) with (S (Z.to_nat (k - 1))) by lia.
    rewrite !Hnth by lia. reflexivity.
  - intros treeID index k Hk. unfold HashEmpty. rewrite HL.
    destruct (Z.ltb_spec k 0); [lia|].
    destruct (Z.geb_spec k (BitLen m + 1)); [lia|]. reflexivity.
  - intros treeID index k Hk. unfold HashEmpty. rewrite HL.
    destruct (Z.ltb_spec k 0); [reflexivity|].
    destruct (Z.geb_spec k (BitLen m + 1)); [reflexivity|lia].
Qed.

End MapHasherProofs.

(** ** Coordinate utilities: big-endian encodings and PaddedBytes *)

Module CoordProofs.
Import Go GoFacts maphasher merkle.

Lemma SetBytes_snoc (l : list byte) (b : byte) :
  SetBytes (l ++ [b]) = SetBytes l * 256 + Z_of_byte b.
Proof. unfold SetBytes. now rewrite fold_left_app. Qed.

Lemma SetBytes_acc (l : list byte) (a : Z) :
  fold_left (fun acc b => acc * 256 + Z_of_byte b) l a
  = a * 256 ^ len l + SetBytes l.
Proof.
  revert a. induction l as [|b l IH]; intros a.
  - unfold len, SetBytes. simpl. lia.
  - rewrite len_cons, Z.pow_succ_r by apply len_nonneg.
    unfold SetBytes. cbn [fold_left].
    rewrite (IH (a * 256 + _)), (IH (0 * 256 + _)). ring.
Qed.

Lemma SetBytes_cons (b : byte) (l : list byte) :
  SetBytes (b :: l) = Z_of_byte b * 256 ^ len l + SetBytes l.
Proof.
  unfold SetBytes at 1. simpl. rewrite SetBytes_acc. reflexivity.
Qed.

Lemma SetBytes_bounds (l : list byte) : 0 <= SetBytes l < 256 ^ len l.
Proof.
  induction l as [|b l IH].
  - unfold len. simpl. unfold SetBytes. simpl. lia.
  - rewrite SetBytes_cons. pose proof (Z_of_byte_range b) as Hb.
    rewrite len_cons, Z.pow_succ_r by apply len_nonneg.
    nia.
Qed.

Lemma SetBytes_zeros (k : nat) (l : list byte) :
  SetBytes (repeat x00 k ++ l) = SetBytes l.
Proof.
  induction k as [|k IH]; simpl; [reflexivity|].
  rewrite SetBytes_cons, IH. reflexivity.
Qed.

Lemma Bytes_loop_acc (fuel : nat) (z : Z) (acc : list byte) :
  Bytes_loop fuel z acc = Bytes_loop fuel z [] ++ acc.
Proof.
  revert z acc. induction fuel as [|fuel IH]; intros z acc; simpl.
  - reflexivity.
  - destruct (z =? 0); [reflexivity|].
    rewrite (IH _ (_ :: acc)), (IH _ [_]). now rewrite <- app_assoc.
Qed.

Lemma Bytes_loop_value (fuel : nat) (z : Z) :
  0 <= z < 256 ^ Z.of_nat fuel -> SetBytes (Bytes_loop fuel z []) = z.
Proof.
  revert z. induction fuel as [|fuel IH]; intros z Hz.
  - simpl in *. unfold SetBytes. simpl. lia.
  - simpl. destruct (Z.eqb_spec z 0) as [->|Hnz]; [reflexivity|].
    rewrite Bytes_loop_acc, SetBytes_snoc, Z_of_byte_of_Z.
    rewrite IH.
    + rewrite Z.mod_mod by lia. pose proof (Z.div_mod z 256 ltac:(lia)). lia.
    + rewrite Nat2Z.inj_succ, Z.pow_succ_r in Hz by lia.
      split; [apply Z.div_pos; lia|].
      apply Z.div_lt_upper_bound; lia.
Qed.

Lemma Bytes_loop_head (fuel : nat) (z : Z) :
  0 < z < 256 ^ Z.of_nat fuel ->
  exists b l, Bytes_loop fuel z [] = b :: l /\ b <> x00.
Proof.
  revert z. induction fuel as [|fuel IH]; intros z Hz.
  - simpl in Hz. lia.
  - simpl. destruct (Z.eqb_spec z 0) as [->|Hnz]; [lia|].
    rewrite Bytes_loop_acc.
    rewrite Nat2Z.inj_succ, Z.pow_succ_r in Hz by lia.
    destruct (Z.eq_dec (z / 256) 0) as [Hq|Hq].
    + rewrite Hq. assert (E : Bytes_loop fuel 0 [] = []) by (destruct fuel; reflexivity).
      rewrite E. simpl. eexists _, _. split; [reflexivity|].
      intros Hb. pose proof (Z_of_byte_of_Z (z mod 256)) as Hv.
      rewrite Hb in Hv. rewrite Z.mod_mod in Hv by lia.
      change (Z_of_byte x00) with 0 in Hv.
      pose proof (Z.div_mod z 256 ltac:(lia)). lia.
    + destruct (IH (z / 256)) as (b & l & E & Hb).
      * assert (0 <= z / 256) by (apply Z.div_pos; lia).
        split; [lia|]. apply Z.div_lt_upper_bound; lia.
      * rewrite E. simpl. eauto.
Qed.

Lemma Bytes_fuel (x : Z) :
  0 <= Z.abs x < 256 ^ Z.of_nat (S (Z.to_nat (Z.log2 (Z.abs x)))).
Proof.
  split; [lia|].
  set (a := Z.abs x). assert (Ha : 0 <= a) by (unfold a; lia).
  pose proof (Z.log2_nonneg a) as Hl.
  rewrite Nat2Z.inj_succ, Z2Nat.id by lia.
  destruct (Z.eq_dec a 0) as [->|Hnz].
  - simpl. lia.
  - assert (a < 2 ^ Z.succ (Z.log2 a)) by (apply Z.log2_spec; lia).
    assert (2 ^ Z.succ (Z.log2 a) <= 256 ^ Z.succ (Z.log2 a)).
    { apply Z.pow_le_mono_l. lia. }
    lia.
Qed.

(** [Bytes] and [SetBytes] are inverse on the naturals. *)
Lemma SetBytes_Bytes (x : Z) : SetBytes (Bytes x) = Z.abs x.
Proof. unfold Bytes. apply Bytes_loop_value, Bytes_fuel. Qed.

(** [Bytes] is the minimal encoding: it never starts with a zero byte. *)
Lemma Bytes_minimal (x : Z) : hd_error (Bytes x) <> Some x00.
Proof.
  destruct (Z.eq_dec (Z.abs x) 0) as [E|E].
  - unfold Bytes. rewrite E. simpl. discriminate.
  - destruct (Bytes_loop_head (S (Z.to_nat (Z.log2 (Z.abs x)))) (Z.abs x))
      as (b & l & Hb & Hne).
    + pose proof (Bytes_fuel x). lia.
    + unfold Bytes. rewrite Hb. simpl. congruence.
Qed.

(** The length of the minimal encoding, numerically. *)
Lemma Bytes_length_le (x size : Z) :
  0 <= size -> (len (Bytes x) <= size <-> Z.abs x < 256 ^ size).
Proof.
  intros Hs. pose proof (SetBytes_Bytes x) as Hv.
  pose proof (SetBytes_bounds (Bytes x)) as Hb.
  pose proof (Bytes_minimal x) as Hm.
  pose proof (len_nonneg (Bytes x)) as Hl.
  split; intros H.
  - assert (256 ^ len (Bytes x) <= 256 ^ size) by (apply Z.pow_le_mono_r; lia).
    lia.
  - destruct (Z.le_gt_cases (len (Bytes x)) size) as [|Hgt]; [assumption|].
    exfalso. destruct (Bytes x) as [|b l] eqn:E.
    + unfold len in Hgt. simpl in Hgt. lia.
    + rewrite SetBytes_cons in Hv.
      assert (Hb0 : 0 < Z_of_byte b).
      { pose proof (Z_of_byte_range b).
        destruct (Z.eq_dec (Z_of_byte b) 0) as [E0|]; [|lia].
        exfalso. apply Hm. simpl. f_equal.
        unfold Z_of_byte in E0.
        assert (E1 : Byte.to_N b = Byte.to_N x00) by (simpl; lia).
        pose proof (Byte.of_to_N b) as H1. rewrite E1 in H1.
        rewrite Byte.of_to_N in H1. congruence. }
      pose proof (SetBytes_bounds l) as Hbl.
      assert (Hlen : len (b :: l) = len l + 1) by (unfold len; simpl length; lia).
      assert (256 ^ size <= 256 ^ len l).
      { apply Z.pow_le_mono_r; lia. }
      assert (0 < 256 ^ len l) by (apply Z.pow_pos_nonneg; [lia|apply len_nonneg]).
      nia.
Qed.

(** C10: when the minimal big-endian encoding of a non-negative i has at
    most size bytes, PaddedBytes returns that encoding left padded with
    zero bytes to exactly size bytes (a buffer that still reads as i) and
    does not panic; when the encoding is longer than size bytes,
    PaddedBytes panics, on the slice bound when size is not negative. *)
Theorem PaddedBytes_spec (i size : Z) :
  0 <= i ->
  (len (Bytes i) <= size ->
     exists buf,
       PaddedBytes i size = Ret (Some buf) /\
       buf = repeat x00 (Z.to_nat (size - len (Bytes i))) ++ Bytes i /\
       len buf = size /\
       SetBytes buf = i) /\
  (size < len (Bytes i) ->
     exists p, PaddedBytes i size = Panicked p /\
               (0 <= size -> p = PanicSliceBounds)).
Proof.
  intros Hi. pose proof (len_nonneg (Bytes i)) as Hl. split; intros H.
  - exists (repeat x00 (Z.to_nat (size - len (Bytes i))) ++ Bytes i).
    split; [|split; [reflexivity|split]].
    + unfold PaddedBytes.
      destruct (Z.ltb_spec size 0); [lia|].
      assert (Hr : len (repeat x00 (Z.to_nat size)) = size).
      { unfold len. rewrite repeat_length. lia. }
      rewrite Hr. destruct (Z.ltb_spec (size - len (Bytes i)) 0); [lia|].
      do 2 f_equal. f_equal.
      * apply firstn_repeat_le. lia.
      * apply copy_same_length. rewrite length_skipn, repeat_length.
        unfold len in *. lia.
    + unfold len in *. rewrite length_app, repeat_length. lia.
    + rewrite SetBytes_zeros, SetBytes_Bytes. lia.
  - unfold PaddedBytes. destruct (Z.ltb_spec size 0).
    + eexists. split; [reflexivity|lia].
    + assert (Hr : len (repeat x00 (Z.to_nat size)) = size).
      { unfold len. rewrite repeat_length. lia. }
      rewrite Hr. destruct (Z.ltb_spec (size - len (Bytes i)) 0); [|lia].
      eexists. split; [reflexivity|reflexivity].
Qed.

(** PaddedBytes 258 into 4 bytes, and into 1 byte. *)
Lemma PaddedBytes_spec_witness :
  (exists buf,
     PaddedBytes 258 4 = Ret (Some buf) /\
     buf = repeat x00 (Z.to_nat (4 - len (Bytes 258))) ++ Bytes 258 /\
     len buf = 4 /\ SetBytes buf = 258) /\
  (exists p, PaddedBytes 258 1 = Panicked p /\ (0 <= 1 -> p = PanicSliceBounds)).
Proof.
  split.
  - apply (proj1 (PaddedBytes_spec 258 4 ltac:(lia))). vm_compute. discriminate.
  - apply (proj2 (PaddedBytes_spec 258 1 ltac:(lia))). vm_compute. reflexivity.
Defined.

End CoordProofs.

(** ** Node identifiers: tree coordinates round-trip *)

Module StorageProofs.
Import Go GoFacts storage.

Lemma nth_be_bytes (n j : nat) (v : Z) :
  (j < n)%nat ->
  nth j (be_bytes n v) x00 = byte_of_Z (v / 2 ^ (8 * Z.of_nat (n - 1 - j))).
Proof.
  intros H. unfold be_bytes.
  rewrite nth_indep with (d' := byte_of_Z (v / 2 ^ (8 * Z.of_nat (n - 1 - 0))))
    by (rewrite length_map, length_seq; exact H).
  rewrite (map_nth (fun j => byte_of_Z (v / 2 ^ (8 * Z.of_nat (n - 1 - j))))).
  rewrite seq_nth by exact H. reflexivity.
Qed.

Lemma length_be_bytes (n : nat) (v : Z) : length (be_bytes n v) = n.
Proof. unfold be_bytes. now rewrite length_map, length_seq. Qed.

(** Bit k of a big-endian buffer is bit (width - 1 - k) of its value. *)
Lemma bit_be_bytes (n : nat) (v k pb lb : Z) :
  0 <= k < 8 * Z.of_nat n ->
  bit {| path := be_bytes n v; prefix_bits := pb; path_bits := lb |} k
  = Z.b2z (Z.testbit v (8 * Z.of_nat n - 1 - k)).
Proof.
  intros Hk. unfold bit. cbn [path].
  assert (Hq : 0 <= k / 8 < Z.of_nat n).
  { split; [apply Z.div_pos; lia|apply Z.div_lt_upper_bound; lia]. }
  assert (Hr : 0 <= k mod 8 < 8) by (apply Z.mod_pos_bound; lia).
  rewrite nth_be_bytes by lia. rewrite Z_of_byte_of_Z.
  change 256 with (2 ^ 8).
  rewrite Z.mod_pow2_bits_low by lia.
  rewrite Z.div_pow2_bits by lia.
  do 2 f_equal. pose proof (Z.div_mod k 8 ltac:(lia)). lia.
Qed.

Lemma half_bit (v m : Z) :
  0 <= m -> v / 2 ^ m = 2 * (v / 2 ^ (m + 1)) + Z.b2z (Z.testbit v m).
Proof.
  intros Hm. rewrite Z.testbit_spec' by lia.
  rewrite Z.pow_add_r, Z.pow_1_r by lia.
  rewrite <- Z.div_div by (try apply Z.pow_pos_nonneg; lia).
  pose proof (Z.div_mod (v / 2 ^ m) 2 ltac:(lia)). lia.
Qed.

(** Reading the first q bits of a big-endian buffer, most significant
    first, gives the value shifted right by the remaining width. *)
Lemma read_prefix (n : nat) (v pb lb : Z) (q : nat) :
  0 <= v < 2 ^ (8 * Z.of_nat n) ->
  (q <= 8 * n)%nat ->
  fold_left
    (fun acc k =>
       2 * acc + bit {| path := be_bytes n v; prefix_bits := pb; path_bits := lb |}
                     (Z.of_nat k))
    (seq 0 q) 0
  = v / 2 ^ (8 * Z.of_nat n - Z.of_nat q).
Proof.
  intros Hv. induction q as [|q IH]; intros Hq.
  - simpl. rewrite Z.sub_0_r. symmetry. apply Z.div_small. exact Hv.
  - rewrite seq_S, fold_left_app. cbn [fold_left Nat.add].
    rewrite IH by lia. rewrite bit_be_bytes by lia.
    rewrite (half_bit v (8 * Z.of_nat n - Z.of_nat (S q))) by lia.
    do 3 f_equal; try lia. f_equal. lia.
Qed.

(** C8: for 0 <= d <= max_bits and 0 <= i < 2^(max_bits - d),
    new_for_tree_coords(d, i, max_bits) succeeds and the coord_string of
    the NodeID it returns is "[d:<d>, i:<i>]". *)
Theorem coord_round_trip (d i max_bits : Z) :
  0 <= d <= max_bits ->
  0 <= i < 2 ^ (max_bits - d) ->
  exists n,
    new_for_tree_coords d i max_bits = inl n /\
    coord_string n = ("[d:" ++ decimal d ++ ", i:" ++ decimal i ++ "]")%string.
Proof.
  intros Hd Hi. unfold new_for_tree_coords.
  destruct (Z.geb_spec i (2 ^ (max_bits - d))) as [Hge|_]; [lia|].
  eexists. split; [reflexivity|].
  unfold coord_string. cbn [path_bits prefix_bits new_empty path].
  replace (max_bits - (max_bits - d)) with d by lia.
  do 3 f_equal. f_equal.
  unfold decode_index. cbn [prefix_bits path].
  set (L := Z.to_nat ((max_bits + 7) / 8)).
  assert (HL : 0 <= (max_bits + 7) / 8) by (apply Z.div_pos; lia).
  assert (HW : max_bits <= 8 * Z.of_nat L).
  { unfold L. rewrite Z2Nat.id by lia.
    pose proof (Z.div_mod (max_bits + 7) 8 ltac:(lia)).
    pose proof (Z.mod_pos_bound (max_bits + 7) 8 ltac:(lia)). lia. }
  unfold len. rewrite repeat_length. fold L.
  set (sh := 8 * Z.of_nat L - (max_bits - d)).
  assert (Hsh : 0 <= sh) by (unfold sh; lia).
  rewrite Z.shiftl_mul_pow2 by lia.
  assert (Hp : 0 < 2 ^ sh) by (apply Z.pow_pos_nonneg; lia).
  rewrite read_prefix.
  - rewrite Z2Nat.id by lia. fold sh. rewrite Z.div_mul by lia. reflexivity.
  - split; [nia|].
    replace (8 * Z.of_nat L) with ((max_bits - d) + sh) by (unfold sh; lia).
    rewrite Z.pow_add_r by lia. nia.
  - lia.
Qed.

(** The node at depth 2 and index 4 of a tree of height 8. *)
Lemma coord_round_trip_witness :
  exists n,
    new_for_tree_coords 2 4 8 = inl n /\
    coord_string n = "[d:2, i:4]"%string.
Proof.
  apply (coord_round_trip 2 4 8); cbn; lia.
Defined.

End StorageProofs.

(** ** Sorting and searching the leaves *)

Module LeavesProofs.
Import Go GoFacts maphasher merkle.

(** A leaf whose [Index] pointer is not nil. *)
Definition has_index (v : HStar2LeafHash) : bool :=
  match Index v with Some _ => true | None => false end.

Definition all_indexed (s : Leaves) : Prop :=
  Forall (fun v => has_index v = true) s.

(** Non-decreasing order of index, the order [sort.Sort] establishes on
    leaves that all have an index. *)
Definition index_le (a b : HStar2LeafHash) : Prop := index a <= index b.

Definition ascending (s : Leaves) : Prop :=
  all_indexed s /\ StronglySorted index_le s.

Lemma has_index_Some (v : HStar2LeafHash) :
  has_index v = true -> Index v = Some (index v).
Proof. unfold has_index, index. destruct (Index v); [reflexivity|discriminate]. Qed.

Lemma all_indexed_nth (s : Leaves) (i : nat) :
  all_indexed s -> (i < length s)%nat -> has_index (nth i s zero_leaf) = true.
Proof.
  intros H Hi. unfold all_indexed in H. rewrite Forall_forall in H.
  apply H, nth_In, Hi.
Qed.

Lemma all_indexed_dec (s : Leaves) :
  all_indexed s \/ Exists (fun v => negb (has_index v) = true) s.
Proof.
  induction s as [|v s [IH|IH]].
  - left. constructor.
  - destruct (has_index v) eqn:E.
    + left. now constructor.
    + right. left. now rewrite E.
  - right. now right.
Qed.

Lemma all_indexed_Permutation (s s' : Leaves) :
  Permutation s s' -> all_indexed s -> all_indexed s'.
Proof.
  intros HP H. unfold all_indexed in *. rewrite Forall_forall in *.
  intros v Hv. apply H. now apply (Permutation_in _ (Permutation_sym HP)).
Qed.

Lemma all_indexed_filter (f : HStar2LeafHash -> bool) (s : Leaves) :
  all_indexed s -> all_indexed (filter f s).
Proof.
  unfold all_indexed. rewrite !Forall_forall. intros H v Hv.
  apply H. apply filter_In in Hv. tauto.
Qed.

Lemma sorted_nth (s : Leaves) (i j : nat) :
  StronglySorted index_le s -> (i < j < length s)%nat ->
  index (nth i s zero_leaf) <= index (nth j s zero_leaf).
Proof.
  intros H. revert i j. induction H as [|x s Hs IH Hx]; intros i j Hij.
  - simpl in Hij. lia.
  - destruct j as [|j]; [lia|]. simpl in Hij. destruct i as [|i]; simpl.
    + rewrite Forall_forall in Hx. apply Hx. apply nth_In. lia.
    + apply IH. lia.
Qed.

Lemma ascending_nth (s : Leaves) (i j : nat) :
  ascending s -> (i < j < length s)%nat ->
  index (nth i s zero_leaf) <= index (nth j s zero_leaf).
Proof. intros [_ H]. now apply sorted_nth. Qed.

Lemma nth_sorted (s : Leaves) :
  (forall i j, (i < j < length s)%nat ->
     (index (nth j s zero_leaf) <? index (nth i s zero_leaf)) = false) ->
  StronglySorted index_le s.
Proof.
  induction s as [|x s IH]; intros H; [constructor|].
  constructor.
  - apply IH. intros i j Hij. apply (H (S i) (S j)). simpl. lia.
  - rewrite Forall_forall. intros y Hy.
    destruct (In_nth s y zero_leaf Hy) as (j & Hj & <-).
    specialize (H 0%nat (S j)). simpl in H.
    unfold index_le. specialize (H ltac:(lia)). lia.
Qed.

(** [Less] on two leaves that have an index compares the indices; a nil
    index on either side is dereferenced. *)
Lemma Less_indexed (s : Leaves) (i j : nat) :
  has_index (nth i s zero_leaf) = true -> has_index (nth j s zero_leaf) = true ->
  Less s i j = Ret (index (nth i s zero_leaf) <? index (nth j s zero_leaf)).
Proof.
  intros Hi Hj. unfold Less.
  rewrite (has_index_Some _ Hi), (has_index_Some _ Hj). simpl.
  destruct (Z.compare_spec (index (nth i s zero_leaf)) (index (nth j s zero_leaf)));
    destruct (Z.ltb_spec (index (nth i s zero_leaf)) (index (nth j s zero_leaf)));
    try reflexivity; lia.
Qed.

Lemma Less_nil (s : Leaves) (i j : nat) :
  has_index (nth i s zero_leaf) = false \/ has_index (nth j s zero_leaf) = false ->
  Less s i j = Panicked PanicNilPointer.
Proof.
  unfold Less, has_index.
  destruct (Index (nth i s zero_leaf)), (Index (nth j s zero_leaf));
    intros [H|H]; try discriminate; reflexivity.
Qed.

(** Whether the slice is in [Less] order: no later leaf is [Less] than an
    earlier one. *)
Definition in_Less_order (s : Leaves) : Prop :=
  forall i j, (i < j < length s)%nat -> Less s j i = Ret false.

Lemma ascending_in_Less_order (s : Leaves) : ascending s -> in_Less_order s.
Proof.
  intros H i j Hij. rewrite Less_indexed.
  - pose proof (ascending_nth s i j H Hij). f_equal. lia.
  - apply all_indexed_nth; [apply H|lia].
  - apply all_indexed_nth; [apply H|lia].
Qed.

(** The logging loop of [HStar2Nodes] gets through exactly when every
    leaf has an index. *)
Lemma log_values_indexed (s : Leaves) :
  all_indexed s -> log_values s = Ret tt.
Proof.
  induction 1 as [|v s Hv _ IH]; [reflexivity|].
  simpl. rewrite (has_index_Some _ Hv). exact IH.
Qed.

Lemma log_values_nil (s : Leaves) :
  Exists (fun v => negb (has_index v) = true) s ->
  log_values s = Panicked PanicNilPointer.
Proof.
  induction 1 as [v s Hv|v s _ IH]; simpl.
  - unfold has_index in Hv. destruct (Index v); [discriminate|reflexivity].
  - destruct (Index v); [exact IH|reflexivity].
Qed.

Lemma log_values_Ret (s : Leaves) (u : unit) :
  log_values s = Ret u -> all_indexed s.
Proof.
  intros H. destruct (all_indexed_dec s) as [Ha|He]; [exact Ha|].
  rewrite (log_values_nil s He) in H. discriminate.
Qed.

(** [Swap], the only way [sort.Sort] writes to the slice, moves leaves
    and never alters one. *)
Lemma store_Permutation (a : HStar2LeafHash) (t : Leaves) (j : nat) :
  (j < length t)%nat ->
  Permutation (a :: t) (nth j t zero_leaf :: store t j a).
Proof.
  revert j. induction t as [|b t IH]; intros [|j] H; simpl in *; try lia.
  - apply perm_swap.
  - apply perm_trans with (b :: a :: t); [apply perm_swap|].
    apply perm_trans with (b :: nth j t zero_leaf :: store t j a);
      [|apply perm_swap].
    apply perm_skip. apply IH. lia.
Qed.

Lemma Swap_Permutation (s : Leaves) (i j : nat) :
  (i < length s)%nat -> (j < length s)%nat -> Permutation s (Swap s i j).
Proof.
  unfold Swap. revert i j.
  induction s as [|a t IH]; intros [|i] [|j] Hi Hj; simpl in *; try lia.
  - reflexivity.
  - apply store_Permutation. lia.
  - apply store_Permutation. lia.
  - constructor. apply IH; lia.
Qed.

Lemma Swaps_Permutation (swaps : list (nat * nat)) (s : Leaves) :
  Forall (fun ij => Z.of_nat (fst ij) < Len s /\ Z.of_nat (snd ij) < Len s) swaps ->
  Permutation s (fold_left (fun d ij => Swap d (fst ij) (snd ij)) swaps s).
Proof.
  revert s. induction swaps as [|[i j] swaps IH]; intros s H; [reflexivity|].
  inversion H as [|? ? [Hi Hj] Hrest]; subst. simpl in *.
  unfold Len, len in *.
  assert (HP : Permutation s (Swap s i j)) by (apply Swap_Permutation; lia).
  apply perm_trans with (Swap s i j); [exact HP|].
  apply IH. unfold Len, len. rewrite <- (Permutation_length HP). exact Hrest.
Qed.

(** [ByIndex] is what [sort.Sort] asks for: [Len] is the length of the
    slice, [Swap] exchanges two leaves, and [Less] compares the indices
    of two leaves, panicking on a nil one. *)
Lemma ByIndex_Lawful :
  Lawful ByIndex (fun s : Leaves => s) zero_leaf
    (fun a b => index a <? index b) (fun v => negb (has_index v))
    PanicNilPointer.
Proof.
  constructor.
  - reflexivity.
  - reflexivity.
  - intros s i j _ _. simpl.
    destruct (has_index (nth i s zero_leaf)) eqn:Ei;
      [destruct (has_index (nth j s zero_leaf)) eqn:Ej|]; simpl.
    + now apply Less_indexed.
    + apply Less_nil. now right.
    + apply Less_nil. now left.
  - intros a. apply Z.ltb_irrefl.
  - intros a b c H1 H2. apply Z.ltb_lt in H1, H2. apply Z.ltb_lt. lia.
  - intros a b c H1 H2. apply Z.ltb_ge in H1, H2. apply Z.ltb_ge. lia.
Qed.

(** What [sort.Sort(ByIndex{values})] does to a slice of leaves. *)
Lemma Sort_Permutation (srt : Sorter) (s : Leaves) :
  Permutation s (fst (sort_Sort srt ByIndex s)).
Proof.
  destruct (sort_Sort_swaps srt Leaves ByIndex s) as (swaps & Hin & ->).
  now apply Swaps_Permutation.
Qed.

Lemma Sort_indexed (srt : Sorter) (s : Leaves) :
  all_indexed s ->
  snd (sort_Sort srt ByIndex s) = None /\
  ascending (fst (sort_Sort srt ByIndex s)).
Proof.
  intros H.
  destruct (sort_Sort_sorted srt _ _ _ _ _ _ _ _ ByIndex_Lawful s) as [Hn Hs].
  { unfold all_indexed in H. rewrite Forall_forall in *. intros v Hv.
    now rewrite (H v Hv). }
  split; [exact Hn|]. split.
  - apply (all_indexed_Permutation s); [apply Sort_Permutation|exact H].
  - apply nth_sorted. exact Hs.
Qed.

Lemma Sort_nil_index (srt : Sorter) (s : Leaves) :
  (2 <= length s)%nat -> Exists (fun v => negb (has_index v) = true) s ->
  snd (sort_Sort srt ByIndex s) = Some PanicNilPointer.
Proof.
  intros Hl He.
  apply (sort_Sort_panics srt _ _ _ _ _ _ _ _ ByIndex_Lawful s).
  - simpl. unfold Len, len. lia.
  - exact He.
Qed.

Lemma Sort_short (srt : Sorter) (s : Leaves) :
  (length s < 2)%nat -> sort_Sort srt ByIndex s = (s, None).
Proof.
  intros Hl. apply sort_Sort_short. simpl. unfold Len, len. lia.
Qed.

(** A call of [sort.Sort] that returns leaves the slice in [Less]
    order. *)
Lemma Sort_returns (srt : Sorter) (s : Leaves) :
  snd (sort_Sort srt ByIndex s) = None ->
  in_Less_order (fst (sort_Sort srt ByIndex s)).
Proof.
  intros Hn. destruct (Nat.lt_ge_cases (length s) 2) as [Hl|Hl].
  - rewrite Sort_short by exact Hl. simpl. intros i j Hij.
    destruct s as [|a [|b s]]; simpl in *; lia.
  - destruct (all_indexed_dec s) as [Ha|He].
    + apply ascending_in_Less_order. now apply Sort_indexed.
    + rewrite (Sort_nil_index srt s Hl He) in Hn. discriminate.
Qed.

(** The leaves below a split point, and the others. *)
Definition below (split : Z) (s : Leaves) : Leaves :=
  filter (fun v => index v <? split) s.

Definition from (split : Z) (s : Leaves) : Leaves :=
  filter (fun v => negb (index v <? split)) s.

Lemma ascending_tail (x : HStar2LeafHash) (s : Leaves) :
  ascending (x :: s) -> ascending s.
Proof. intros [Ha Hs]. split; [now inversion Ha|now inversion Hs]. Qed.

Lemma sorted_filter (f : HStar2LeafHash -> bool) (s : Leaves) :
  StronglySorted index_le s -> StronglySorted index_le (filter f s).
Proof.
  intros H. induction H as [|x s Hs IH Hx]; simpl; [constructor|].
  destruct (f x); [|exact IH]. constructor; [exact IH|].
  rewrite Forall_forall in *. intros y Hy. apply Hx.
  apply filter_In in Hy. tauto.
Qed.

Lemma ascending_filter (f : HStar2LeafHash -> bool) (s : Leaves) :
  ascending s -> ascending (filter f s).
Proof.
  intros [Ha Hs]. split; [now apply all_indexed_filter|now apply sorted_filter].
Qed.

Lemma sorted_partition (split : Z) (s : Leaves) :
  StronglySorted index_le s -> s = below split s ++ from split s.
Proof.
  intros H. induction H as [|x s Hs IH Hx]; [reflexivity|].
  unfold below, from in *. simpl.
  destruct (Z.ltb_spec (index x) split) as [Hlt|Hge]; simpl.
  - f_equal. exact IH.
  - assert (E1 : filter (fun v => index v <? split) s = []).
    { rewrite Forall_forall in Hx. clear IH Hs.
      induction s as [|y s IHs]; [reflexivity|]. simpl.
      assert (Hy : index_le x y) by (apply Hx; now left). unfold index_le in Hy.
      destruct (Z.ltb_spec (index y) split); [lia|].
      apply IHs. intros z Hz. apply Hx. now right. }
    assert (E2 : filter (fun v => negb (index v <? split)) s = s).
    { rewrite Forall_forall in Hx. clear IH Hs E1.
      induction s as [|y s IHs]; [reflexivity|]. simpl.
      assert (Hy : index_le x y) by (apply Hx; now left). unfold index_le in Hy.
      destruct (Z.ltb_spec (index y) split); [lia|]. simpl.
      f_equal. apply IHs. intros z Hz. apply Hx. now right. }
    rewrite E1, E2. reflexivity.
Qed.

Lemma ascending_partition (split : Z) (s : Leaves) :
  ascending s -> s = below split s ++ from split s.
Proof. intros [_ H]. now apply sorted_partition. Qed.

Lemma below_Index (split : Z) (s : Leaves) (i : nat) :
  (i < length (below split s))%nat ->
  index (nth i (below split s) zero_leaf) < split.
Proof.
  intros H. assert (Hin : In (nth i (below split s) zero_leaf) (below split s))
    by (apply nth_In; exact H).
  apply filter_In in Hin. destruct Hin as [_ Hin]. lia.
Qed.

Lemma from_Index (split : Z) (s : Leaves) (i : nat) :
  (i < length (from split s))%nat ->
  split <= index (nth i (from split s) zero_leaf).
Proof.
  intros H. assert (Hin : In (nth i (from split s) zero_leaf) (from split s))
    by (apply nth_In; exact H).
  apply filter_In in Hin. destruct Hin as [_ Hin].
  destruct (Z.ltb_spec (index (nth i (from split s) zero_leaf)) split);
    [discriminate|lia].
Qed.

(** Binary search finds the boundary of a predicate that is false below
    it and true from it on. *)
Lemma Search_loop_boundary (f : nat -> exec bool) (n r fuel i j : nat) :
  (forall a, (a < r)%nat -> f a = Ret false) ->
  (forall a, (r <= a < n)%nat -> f a = Ret true) ->
  (i <= r <= j)%nat -> (j <= n)%nat -> (j - i <= fuel)%nat ->
  Search_loop fuel f i j = Ret r.
Proof.
  intros Hlo Hhi. revert i j. induction fuel as [|fuel IH]; intros i j Hr Hj Hf.
  - simpl. f_equal. lia.
  - simpl. destruct (Nat.ltb_spec i j) as [Hlt|Hge]; [|f_equal; lia].
    pose proof (Nat.div2_odd (i + j)) as Hd.
    set (h := Nat.div2 (i + j)) in *.
    assert (Hh : (i <= h < j)%nat) by (destruct (Nat.odd (i + j)); simpl in Hd; lia).
    destruct (Nat.lt_ge_cases h r) as [Hc|Hc].
    + rewrite (Hlo h Hc). simpl. apply IH; lia.
    + rewrite (Hhi h) by lia. simpl. apply IH; lia.
Qed.

Lemma Search_boundary (f : nat -> exec bool) (n r : nat) :
  (forall a, (a < r)%nat -> f a = Ret false) ->
  (forall a, (r <= a < n)%nat -> f a = Ret true) ->
  (r <= n)%nat ->
  Search n f = Ret r.
Proof.
  intros Hlo Hhi Hr. unfold Search.
  apply (Search_loop_boundary f n r); auto; lia.
Qed.

(** The test [hStar2b] searches with: values[i].Index.Cmp(split) >= 0. *)
Definition at_or_after (split : Z) (s : Leaves) (i : nat) : exec bool :=
  match Cmp (Index (nth i s zero_leaf)) (Some split) with
  | Ret c => Ret (c >=? 0)
  | Panicked p => Panicked p
  end.

Lemma at_or_after_indexed (split : Z) (s : Leaves) (i : nat) :
  has_index (nth i s zero_leaf) = true ->
  at_or_after split s i = Ret (index (nth i s zero_leaf) >=? split).
Proof.
  intros H. unfold at_or_after. rewrite (has_index_Some _ H). simpl.
  destruct (Z.compare_spec (index (nth i s zero_leaf)) split);
    destruct (Z.geb_spec (index (nth i s zero_leaf)) split);
    try reflexivity; lia.
Qed.

(** On leaves in ascending order the search of [hStar2b] returns the
    number of leaves below the split. *)
Lemma Search_ascending (split : Z) (s : Leaves) :
  ascending s ->
  Search (length s) (at_or_after split s) = Ret (length (below split s)).
Proof.
  intros H. pose proof (ascending_partition split s H) as E.
  assert (Hlen : length s = (length (below split s) + length (from split s))%nat).
  { rewrite E at 1. apply length_app. }
  apply Search_boundary.
  - intros a Ha. rewrite at_or_after_indexed
      by (apply all_indexed_nth; [apply H|lia]).
    rewrite E, app_nth1 by exact Ha.
    pose proof (below_Index split s a Ha).
    destruct (Z.geb_spec (index (nth a (below split s) zero_leaf)) split); [lia|].
    reflexivity.
  - intros a Ha. rewrite at_or_after_indexed
      by (apply all_indexed_nth; [apply H|lia]).
    rewrite E, app_nth2 by lia.
    pose proof (from_Index split s (a - length (below split s)) ltac:(lia)).
    destruct (Z.geb_spec (index (nth (a - length (below split s))
                                   (from split s) zero_leaf)) split); [|lia].
    reflexivity.
  - lia.
Qed.

Lemma firstn_below (split : Z) (s : Leaves) :
  ascending s -> firstn (length (below split s)) s = below split s.
Proof.
  intros H. rewrite (ascending_partition split s H) at 2.
  rewrite firstn_app, Nat.sub_diag, firstn_all. simpl. apply app_nil_r.
Qed.

Lemma skipn_below (split : Z) (s : Leaves) :
  ascending s -> skipn (length (below split s)) s = from split s.
Proof.
  intros H. rewrite (ascending_partition split s H) at 2.
  rewrite skipn_app, Nat.sub_diag, skipn_all. reflexivity.
Qed.

End LeavesProofs.

(** ** A small instance to run the engine on *)

Module Instance.
Import Go GoFacts maphasher merkle LeavesProofs.

(** A one-byte hash: enough to tell preimages apart in examples. *)
Definition mix (a : Z) (b : byte) : Z := (a * 131 + Z_of_byte b * 7 + 89) mod 251.

Definition tiny : crypto_Hash :=
  {| size_bytes := 1; digest := fun l => [byte_of_Z (fold_left mix l 5)] |}.

(** One way for [sort.Sort] to behave: the insertion sort of package
    [sort], which is what [sort.Sort] runs on a short slice,

      for i := a + 1; i < b; i++ {
        for j := i; j > a && data.Less(j, j-1); j-- { data.Swap(j, j-1) }
      }

    with a = 0 and b = data.Len(). *)
Section InsertionSort.

Context {D : Type} (I : Interface D).

(** The inner loop, from j down. *)
Fixpoint sink (j : nat) (d : D) : D * option panic :=
  match j with
  | O => (d, None)
  | S j' =>
      match sort_Less I d (S j') j' with
      | Panicked p => (d, Some p)
      | Ret true => sink j' (sort_Swap I d (S j') j')
      | Ret false => (d, None)
      end
  end.

(** The outer loop, with [fuel] rounds left from i on. *)
Fixpoint passes (fuel i : nat) (d : D) : D * option panic :=
  match fuel with
  | O => (d, None)
  | S fuel' =>
      match sink i d with
      | (d', Some p) => (d', Some p)
      | (d', None) => passes fuel' (S i) d'
      end
  end.

Definition insertionSort (d : D) : D * option panic :=
  passes (Z.to_nat (sort_Len I d) - 1) 1 d.

Definition swaps_of (swaps : list (nat * nat)) (d : D) : D :=
  fold_left (fun d ij => sort_Swap I d (fst ij) (snd ij)) swaps d.

Lemma sink_swaps (j : nat) (d : D) :
  exists swaps,
    Forall (fun ij => (fst ij <= j)%nat /\ (snd ij <= j)%nat) swaps /\
    fst (sink j d) = swaps_of swaps d.
Proof.
  revert d. induction j as [|j IH]; intros d.
  - exists []. split; [constructor|reflexivity].
  - simpl. destruct (sort_Less I d (S j) j) as [[|]|q].
    + destruct (IH (sort_Swap I d (S j) j)) as (swaps & Hin & E).
      exists ((S j, j) :: swaps). split; [|exact E].
      constructor; [simpl; lia|].
      eapply Forall_impl; [|exact Hin]. simpl. intros ij. lia.
    + exists []. split; [constructor|reflexivity].
    + exists []. split; [constructor|reflexivity].
Qed.

Lemma passes_swaps (fuel i : nat) (d : D) :
  exists swaps,
    Forall (fun ij => (fst ij < i + fuel)%nat /\ (snd ij < i + fuel)%nat) swaps /\
    fst (passes fuel i d) = swaps_of swaps d.
Proof.
  revert i d. induction fuel as [|fuel IH]; intros i d.
  - exists []. split; [constructor|reflexivity].
  - simpl. destruct (sink_swaps i d) as (sw1 & Hin1 & E1).
    destruct (sink i d) as [d1 [q|]]; simpl in E1; subst d1.
    + exists sw1. split; [|reflexivity].
      eapply Forall_impl; [|exact Hin1]. simpl. intros ij. lia.
    + destruct (IH (S i) (swaps_of sw1 d)) as (sw2 & Hin2 & E2).
      exists (sw1 ++ sw2). split.
      * apply Forall_app. split.
        -- eapply Forall_impl; [|exact Hin1]. simpl. intros ij. lia.
        -- eapply Forall_impl; [|exact Hin2]. simpl. intros ij. lia.
      * rewrite E2. unfold swaps_of. now rewrite fold_left_app.
Qed.

Lemma insertionSort_swaps (d : D) :
  exists swaps,
    Forall (fun ij => Z.of_nat (fst ij) < sort_Len I d /\
                      Z.of_nat (snd ij) < sort_Len I d) swaps /\
    fst (insertionSort d) = swaps_of swaps d.
Proof.
  unfold insertionSort.
  destruct (Z.to_nat (sort_Len I d) - 1)%nat as [|fuel] eqn:E.
  - exists []. split; [constructor|reflexivity].
  - destruct (passes_swaps (S fuel) 1 d) as (swaps & Hin & Eq).
    exists swaps. split; [|exact Eq].
    eapply Forall_impl; [|exact Hin]. simpl. intros ij. lia.
Qed.

Lemma insertionSort_short (d : D) :
  sort_Len I d < 2 -> insertionSort d = (d, None).
Proof.
  intros H. unfold insertionSort.
  replace (Z.to_nat (sort_Len I d) - 1)%nat with 0%nat by lia. reflexivity.
Qed.

(** On a lawful collection. *)
Context {A : Type} (view : D -> list A) (dflt : A) (lt : A -> A -> bool)
  (bad : A -> bool) (p : panic).
Hypothesis lawful : Lawful I view dflt lt bad p.

Definition not_after (a b : A) : Prop := lt b a = false.
Definition good (a : A) : Prop := bad a = false.

Lemma lt_asym (a b : A) : lt a b = true -> lt b a = false.
Proof.
  intros H. destruct (lt b a) eqn:E; [|reflexivity].
  pose proof (law_trans _ _ _ _ _ _ lawful a b a H E) as H1.
  rewrite (law_irrefl _ _ _ _ _ _ lawful) in H1. discriminate.
Qed.

Lemma sorted_app (l1 l2 : list A) :
  StronglySorted not_after (l1 ++ l2) <->
  StronglySorted not_after l1 /\ StronglySorted not_after l2 /\
  Forall (fun e => Forall (not_after e) l2) l1.
Proof.
  induction l1 as [|a l1 IH]; simpl.
  - split; [intros H; repeat split; [constructor|exact H|constructor]|tauto].
  - split.
    + intros H. inversion H as [|? ? Hs Hall]; subst.
      apply IH in Hs. destruct Hs as (H1 & H2 & H3).
      apply Forall_app in Hall. destruct Hall as [Ha1 Ha2].
      repeat split; [now constructor|exact H2|now constructor].
    + intros (H1 & H2 & H3).
      inversion H1 as [|? ? Hs Hall]; subst.
      inversion H3 as [|? ? Ha Hrest]; subst.
      constructor; [apply IH; tauto|].
      apply Forall_app. tauto.
Qed.

Lemma exchange_adjacent (P : list A) (a x : A) (R : list A) :
  exchange dflt (P ++ a :: x :: R) (S (length P)) (length P)
  = P ++ x :: a :: R.
Proof.
  unfold exchange. induction P as [|b P IH]; simpl; [reflexivity|].
  f_equal. exact IH.
Qed.

Lemma sink_spec (j : nat) :
  forall d P x B R,
    view d = P ++ x :: B ++ R -> length P = j ->
    good x -> Forall good P ->
    StronglySorted not_after (P ++ B) -> Forall (fun b => lt x b = true) B ->
    exists d' P1 P2,
      sink j d = (d', None) /\ P = P1 ++ P2 /\
      view d' = P1 ++ x :: P2 ++ B ++ R /\
      StronglySorted not_after (P1 ++ x :: P2 ++ B).
Proof.
  induction j as [|j IH]; intros d P x B R Hv Hlen Hx HP Hs HB.
  - apply length_zero_iff_nil in Hlen. subst P. simpl in *.
    exists d, [], []. repeat split; [exact Hv|]. simpl.
    constructor; [exact Hs|].
    eapply Forall_impl; [|exact HB]. intros b Hb. now apply lt_asym.
  - destruct (exists_last (l := P)) as (P' & a & ->).
    { intros ->. discriminate. }
    rewrite length_app in Hlen. simpl in Hlen.
    assert (Hl' : length P' = j) by lia. clear Hlen.
    apply Forall_app in HP. destruct HP as [HP' Ha].
    apply Forall_inv in Ha. rename Ha into Hga.
    assert (Hv' : view d = P' ++ a :: x :: B ++ R).
    { rewrite Hv, <- app_assoc. reflexivity. }
    assert (Hlen : length (view d) = (S (S j) + length (B ++ R))%nat).
    { rewrite Hv'. rewrite length_app. simpl. lia. }
    assert (Hnx : nth (S j) (view d) dflt = x).
    { rewrite Hv. rewrite <- Hl'.
      replace (S (length P')) with (length (P' ++ [a]))
        by (rewrite length_app; simpl; lia).
      apply nth_middle. }
    assert (Hna : nth j (view d) dflt = a).
    { rewrite Hv', <- Hl'. apply nth_middle. }
    cbn [sink].
    rewrite (law_Less _ _ _ _ _ _ lawful d (S j) j) by lia.
    rewrite Hnx, Hna. unfold good in Hx, Hga. rewrite Hx, Hga. simpl.
    destruct (lt x a) eqn:Exa.
    + destruct (IH (sort_Swap I d (S j) j) P' x (a :: B) R)
        as (d' & P1 & P2 & Hsink & HPeq & Hview & Hsorted).
      * rewrite (law_Swap _ _ _ _ _ _ lawful) by lia.
        rewrite Hv', <- Hl'. apply exchange_adjacent.
      * exact Hl'.
      * exact Hx.
      * exact HP'.
      * rewrite <- app_assoc in Hs. exact Hs.
      * constructor; assumption.
      * exists d', P1, (P2 ++ [a]). repeat split.
        -- exact Hsink.
        -- rewrite HPeq. now rewrite app_assoc.
        -- rewrite Hview. rewrite <- !app_assoc. reflexivity.
        -- rewrite <- !app_assoc. exact Hsorted.
    + exists d, (P' ++ [a]), []. repeat split.
      * now rewrite app_nil_r.
      * exact Hv.
      * simpl. apply sorted_app in Hs. destruct Hs as (HsP & HsB & Hcross).
        apply sorted_app. repeat split.
        -- exact HsP.
        -- constructor; [exact HsB|].
           eapply Forall_impl; [|exact HB]. intros b Hb. now apply lt_asym.
        -- apply sorted_app in HsP. destruct HsP as (_ & _ & HP'a).
           apply Forall_app. split.
           ++ rewrite Forall_forall in *. intros e He.
              constructor; [|now apply Hcross, in_or_app; left].
              specialize (HP'a e He). apply Forall_inv in HP'a.
              rename HP'a into Hae.
              unfold not_after in *.
              exact (law_incomp _ _ _ _ _ _ lawful x a e Exa Hae).
           ++ constructor; [|constructor].
              constructor; [exact Exa|].
              rewrite Forall_forall in Hcross. apply Hcross.
              apply in_or_app. right. now left.
Qed.

Lemma sink_panics (j : nat) (d : D) (P : list A) (a x : A) (R : list A) :
  view d = P ++ a :: x :: R -> length P = j ->
  bad a = true \/ bad x = true ->
  sink (S j) d = (d, Some p).
Proof.
  intros Hv Hl Hbad. cbn [sink].
  assert (Hlen : length (view d) = (S (S j) + length R)%nat).
  { rewrite Hv, length_app. simpl. lia. }
  rewrite (law_Less _ _ _ _ _ _ lawful d (S j) j) by lia.
  assert (Hna : nth j (view d) dflt = a) by (rewrite Hv, <- Hl; apply nth_middle).
  assert (Hnx : nth (S j) (view d) dflt = x).
  { rewrite Hv, <- Hl.
    replace (P ++ a :: x :: R) with ((P ++ [a]) ++ x :: R)
      by (now rewrite <- app_assoc).
    replace (S (length P)) with (length (P ++ [a]))
      by (rewrite length_app; simpl; lia).
    apply nth_middle. }
  rewrite Hna, Hnx.
  destruct Hbad as [-> | ->]; [now rewrite orb_true_r|reflexivity].
Qed.

Lemma passes_spec (fuel : nat) :
  forall i d P R,
    view d = P ++ R -> length P = i -> (1 <= i)%nat -> length R = fuel ->
    StronglySorted not_after P -> ((2 <= i)%nat -> Forall good P) ->
    match passes fuel i d with
    | (d', None) =>
        StronglySorted not_after (view d') /\
        ((2 <= i + fuel)%nat -> Forall good (P ++ R))
    | (d', Some q) => q = p /\ Exists (fun a => bad a = true) (P ++ R)
    end.
Proof.
  induction fuel as [|fuel IH]; intros i d P R Hv Hl Hi HR Hs Hg.
  - apply length_zero_iff_nil in HR. subst R. simpl.
    rewrite Hv, app_nil_r. split; [exact Hs|]. intros H. apply Hg. lia.
  - destruct R as [|x R]; [discriminate|]. simpl in HR.
    destruct (exists_last (l := P)) as (P' & a & ->).
    { intros ->. simpl in Hl. lia. }
    rewrite length_app in Hl. simpl in Hl.
    cbn [passes].
    destruct (bad a) eqn:Ea; [|destruct (bad x) eqn:Ex].
    + replace i with (S (length P')) by lia.
      rewrite (sink_panics (length P') d P' a x R);
        [|now rewrite Hv, <- app_assoc|reflexivity|now left].
      split; [reflexivity|]. apply Exists_app. left.
      apply Exists_app. right. now left.
    + replace i with (S (length P')) by lia.
      rewrite (sink_panics (length P') d P' a x R);
        [|now rewrite Hv, <- app_assoc|reflexivity|now right].
      split; [reflexivity|]. apply Exists_app. right. now left.
    + assert (HgP : Forall good (P' ++ [a])).
      { destruct P' as [|b P'].
        - constructor; [exact Ea|constructor].
        - apply Hg. simpl in Hl. lia. }
      destruct (sink_spec i d (P' ++ [a]) x [] R)
        as (d1 & P1 & P2 & Hsink & HPeq & Hview & Hsorted).
      * exact Hv.
      * rewrite length_app. simpl. lia.
      * exact Ex.
      * exact HgP.
      * now rewrite app_nil_r.
      * constructor.
      * rewrite Hsink. simpl in Hview. rewrite app_nil_r in Hsorted.
        assert (HgP12 : Forall good (P1 ++ x :: P2)).
        { rewrite HPeq in HgP. apply Forall_app in HgP.
          apply Forall_app. split; [tauto|]. constructor; [exact Ex|tauto]. }
        assert (IH' := IH (S i) d1 (P1 ++ x :: P2) R).
        assert (Hlen12 : length (P1 ++ x :: P2) = S i).
        { apply (f_equal (@length A)) in HPeq. rewrite !length_app in HPeq.
          rewrite length_app. simpl in *. lia. }
        specialize (IH' ltac:(rewrite Hview, <- app_assoc; reflexivity)
                        Hlen12 ltac:(lia) ltac:(lia) Hsorted (fun _ => HgP12)).
        destruct (passes fuel (S i) d1) as [d' [q|]].
        -- destruct IH' as [-> HE]. split; [reflexivity|].
           apply Exists_app in HE. destruct HE as [HE|HE].
           ++ apply Exists_exists in HE. destruct HE as (y & Hy & Hby).
              rewrite Forall_forall in HgP12. specialize (HgP12 y Hy).
              unfold good in HgP12. congruence.
           ++ apply Exists_app. right. now right.
        -- destruct IH' as [Hs' Hg']. split; [exact Hs'|]. intros H2.
           apply Forall_app. split; [exact HgP|].
           constructor; [exact Ex|].
           specialize (Hg' ltac:(lia)). apply Forall_app in Hg'. tauto.
Qed.

Lemma insertionSort_spec (d : D) :
  match insertionSort d with
  | (d', None) =>
      StronglySorted not_after (view d') /\
      ((2 <= length (view d))%nat -> Forall good (view d))
  | (d', Some q) => q = p /\ Exists (fun a => bad a = true) (view d)
  end.
Proof.
  unfold insertionSort. rewrite (law_Len _ _ _ _ _ _ lawful).
  unfold len. rewrite Nat2Z.id.
  destruct (view d) as [|a R] eqn:Ev.
  - simpl. rewrite Ev. split; [constructor|]. simpl. lia.
  - simpl length. replace (S (length R) - 1)%nat with (length R) by lia.
    assert (H := passes_spec (length R) 1 d [a] R Ev eq_refl (le_n 1) eq_refl).
    specialize (H ltac:(repeat constructor) ltac:(lia)).
    destruct (passes (length R) 1 d) as [d' [q|]]; [exact H|].
    destruct H as [Hs Hg]. split; [exact Hs|]. intros H2. apply Hg. lia.
Qed.

Lemma sorted_not_after_nth (l : list A) (i j : nat) :
  StronglySorted not_after l -> (i < j < length l)%nat ->
  lt (nth j l dflt) (nth i l dflt) = false.
Proof.
  intros H. revert i j. induction H as [|x l Hs IH Hx]; intros i j Hij.
  - simpl in Hij. lia.
  - destruct j as [|j]; [lia|]. simpl in Hij. destruct i as [|i]; simpl.
    + rewrite Forall_forall in Hx. apply Hx. apply nth_In. lia.
    + apply IH. lia.
Qed.

Lemma insertionSort_sorted (d : D) :
  Forall (fun a => bad a = false) (view d) ->
  snd (insertionSort d) = None /\
  forall i j, (i < j < length (view (fst (insertionSort d))))%nat ->
    lt (nth j (view (fst (insertionSort d))) dflt)
       (nth i (view (fst (insertionSort d))) dflt) = false.
Proof.
  intros Hg. pose proof (insertionSort_spec d) as H.
  destruct (insertionSort d) as [d' [q|]]; simpl.
  - destruct H as [_ HE]. apply Exists_exists in HE.
    destruct HE as (y & Hy & Hby). rewrite Forall_forall in Hg.
    specialize (Hg y Hy). congruence.
  - split; [reflexivity|]. intros i j Hij.
    apply sorted_not_after_nth; [apply H|exact Hij].
Qed.

Lemma insertionSort_panics (d : D) :
  2 <= sort_Len I d -> Exists (fun a => bad a = true) (view d) ->
  snd (insertionSort d) = Some p.
Proof.
  intros Hl HE. pose proof (insertionSort_spec d) as H.
  rewrite (law_Len _ _ _ _ _ _ lawful) in Hl. unfold len in Hl.
  destruct (insertionSort d) as [d' [q|]]; simpl.
  - destruct H as [-> _]. reflexivity.
  - destruct H as [_ Hg]. specialize (Hg ltac:(lia)).
    apply Exists_exists in HE. destruct HE as (y & Hy & Hby).
    rewrite Forall_forall in Hg. specialize (Hg y Hy). unfold good in Hg.
    congruence.
Qed.

End InsertionSort.

Definition insertion : Sorter :=
  {| sort_Sort := fun D I => insertionSort I;
     sort_Sort_swaps := fun D I => insertionSort_swaps I;
     sort_Sort_short := fun D I => insertionSort_short I;
     sort_Sort_sorted := fun D A I view dflt lt bad p H =>
       insertionSort_sorted I view dflt lt bad p H;
     sort_Sort_panics := fun D A I view dflt lt bad p H =>
       insertionSort_panics I view dflt lt bad p H |}.

(** A node store that remembers what was written, newest first. *)
Definition writes : Type := list (Z * Z * bytes).

Definition get_nothing : GetNode writes := fun _ _ st => ((None, None), st).

Definition set_record : SetNode writes :=
  fun level index hash st => (None, (level, index, hash) :: st).

(** A store whose writes fail. *)
Definition set_failing : SetNode writes :=
  fun level index hash st =>
    (Some (ErrOther "write failed"), (level, index, hash) :: st).

(** A store whose reads fail with the engine's own error value. *)
Definition get_failing : GetNode writes :=
  fun _ _ st => ((None, Some ErrNegativeTreeLevelOffset), st).

Definition leaf (i : Z) (b : byte) : HStar2LeafHash :=
  {| Index := Some i; LeafHash := Some [b] |}.

(** A leaf whose index pointer is nil. *)
Definition leaf_nil (b : byte) : HStar2LeafHash :=
  {| Index := None; LeafHash := Some [b] |}.

Definition engine : HStar2 := NewHStar2 42 (maphasher.New tiny).

End Instance.

(** ** The recursive core *)

Module CoreProofs.
Import Go GoFacts maphasher merkle LeavesProofs.

Section Core.

Variable St : Type.

(** Two computations that run alike from every store. *)
Definition same {A : Type} (m1 m2 : M St A) : Prop := forall st, m1 st = m2 st.

Lemma bind_same {A B : Type} (m1 m2 : M St A) (f1 f2 : A -> M St B) :
  same m1 m2 -> (forall a, same (f1 a) (f2 a)) -> same (bind m1 f1) (bind m2 f2).
Proof.
  intros Hm Hf st. unfold bind. rewrite Hm.
  destruct (m2 st) as [[[a|p] st1] t1]; [|reflexivity].
  now rewrite Hf.
Qed.

(** What [hStar2b] does with the two halves of a node that has leaves. *)
Definition join (s : HStar2) (n offset : Z) (set : option (SparseSetNodeFunc St))
    (L R : M St result) : M St result :=
  bind L (fun '(lhs, err) =>
    match err with
    | Some e => ret (None, Some e)
    | None =>
        bind R (fun '(rhs, err) =>
          match err with
          | Some e => ret (None, Some e)
          | None =>
              bind (call_HashChildren (hasher s) lhs rhs) (fun h =>
              bind (match set with
                    | Some set => bind (set n offset h) (fun _ => ret tt)
                    | None => ret tt
                    end) (fun _ =>
              ret (h, None)))
          end)
    end).

Lemma join_same s n offset set (L1 L2 R1 R2 : M St result) :
  same L1 L2 -> same R1 R2 ->
  same (join s n offset set L1 R1) (join s n offset set L2 R2).
Proof.
  intros HL HR. unfold join. apply bind_same; [exact HL|].
  intros [lhs [e|]]; [intro; reflexivity|].
  apply bind_same; [exact HR|]. intros a st. reflexivity.
Qed.

Definition split_point (k : nat) (offset : Z) : Z :=
  Z.shiftl 1 (Z.of_nat (S k) - 1) + offset.

Definition search_index (split : Z) (values : Leaves) : exec nat :=
  Search (length values) (at_or_after split values).

Lemma hStar2b_rec_empty s k offset get set :
  hStar2b_rec (St := St) s k [] offset get set = get (Z.of_nat k) offset.
Proof. destruct k; reflexivity. Qed.

Lemma hStar2b_rec_node s k v vs offset get set :
  hStar2b_rec (St := St) s (S k) (v :: vs) offset get set
  = let split := split_point k offset in
    match search_index split (v :: vs) with
    | Panicked p => lift (Panicked p)
    | Ret i =>
        join s (Z.of_nat (S k)) offset set
          (hStar2b_rec s k (firstn i (v :: vs)) offset get set)
          (hStar2b_rec s k (skipn i (v :: vs)) split get set)
    end.
Proof. reflexivity. Qed.

Lemma split_point_spec (k : nat) (offset : Z) :
  split_point k offset = offset + 2 ^ (Z.of_nat (S k) - 1).
Proof.
  unfold split_point. rewrite Z.shiftl_mul_pow2 by lia. lia.
Qed.

Lemma below_head_ge (split : Z) (x : HStar2LeafHash) (s : Leaves) :
  ascending (x :: s) -> split <= index x -> below split (x :: s) = [].
Proof.
  intros [_ H] Hx. inversion H as [|? ? _ Hall]; subst.
  rewrite Forall_forall in Hall. unfold below. simpl.
  destruct (Z.ltb_spec (index x) split); [lia|].
  clear H. induction s as [|y s IH]; [reflexivity|]. simpl.
  assert (Hy : index_le x y) by (apply Hall; now left). unfold index_le in Hy.
  destruct (Z.ltb_spec (index y) split); [lia|].
  apply IH. intros z Hz. apply Hall. now right.
Qed.

Lemma first_index_ge_ascending (split : Z) (s : Leaves) :
  ascending s -> first_index_ge split s = length (below split s).
Proof.
  induction s as [|x s IH]; intros H; [reflexivity|].
  cbn [first_index_ge]. destruct (Z.geb_spec (index x) split) as [Hge|Hlt].
  - rewrite below_head_ge by (assumption || lia). reflexivity.
  - unfold below in *. simpl.
    destruct (Z.ltb_spec (index x) split); [|lia]. simpl.
    f_equal. apply IH. now apply ascending_tail in H.
Qed.

Lemma and_then_join s n offset (set : SparseSetNodeFunc St) (L R : M St result) :
  same
    (and_then L (fun l =>
     and_then R (fun r =>
     bind (call_HashChildren (hasher s) l r) (fun combined =>
     bind (set n offset combined) (fun _ =>
     ret (combined, None))))))
    (join s n offset (Some set) L R).
Proof.
  unfold and_then, join. apply bind_same; [intro; reflexivity|].
  intros [lhs [e|]]; simpl; [intro; reflexivity|].
  apply bind_same; [intro; reflexivity|].
  intros [rhs [e|]]; simpl; [intro; reflexivity|].
  apply bind_same; [intro; reflexivity|]. intros h st.
  unfold bind, ret.
  destruct (set n offset h st) as [[[a|p] st1] t1]; [|reflexivity].
  now rewrite !app_nil_r.
Qed.

(** On leaves in ascending order the core is the reference definition. *)
Lemma hStar2b_rec_h_spec s (n : nat) values offset get set :
  ascending values ->
  same (hStar2b_rec s n values offset get (Some set))
       (h_spec s n values offset get set).
Proof.
  revert values offset. induction n as [|n IH]; intros values offset Hasc.
  - destruct values as [|v [|w vs]]; intro; reflexivity.
  - destruct values as [|v vs]; [intro; reflexivity|].
    rewrite hStar2b_rec_node. cbn zeta.
    cbn [h_spec length Nat.eqb].
    intros st. rewrite and_then_join.
    rewrite <- split_point_spec.
    unfold search_index. rewrite Search_ascending by exact Hasc.
    rewrite first_index_ge_ascending by exact Hasc.
    apply join_same.
    + apply IH. rewrite firstn_below by exact Hasc. now apply ascending_filter.
    + apply IH. rewrite skipn_below by exact Hasc. now apply ascending_filter.
Qed.

(** C3: on leaves sorted by index, which is how the engine calls it, the
    recursive core hStar2b(n, values, offset) is the reference definition
    h(n, values, offset): at n = 0, get(0, offset) for no leaf, the leaf
    hash for one leaf and the base case error otherwise; at n > 0,
    get(n, offset) for no leaf and otherwise the split at
    offset + 2^(n-1), the two recursive calls on values[:i] and
    values[i:] for the first index i whose leaf index is >= split,
    hash_children of the two results, set(n, offset, combined), and the
    combined hash. *)
Theorem hStar2b_is_reference (s : HStar2) (n : nat) (values : Leaves)
    (offset : Z) (get : SparseGetNodeFunc St) (set : SparseSetNodeFunc St)
    (st : St) :
  ascending values ->
  hStar2b s (Z.of_nat n) values offset get (Some set) st
  = h_spec s n values offset get set st.
Proof.
  intros Hasc. unfold hStar2b.
  destruct (Z.ltb_spec (Z.of_nat n) 0); [lia|].
  rewrite Nat2Z.id. now apply hStar2b_rec_h_spec.
Qed.

(** The root of the leaves of an index range, looked up by index rather
    than by position in a slice. *)
Fixpoint range_root (s : HStar2) (k : nat) (values : Leaves) (offset : Z)
    (get : SparseGetNodeFunc St) (set : option (SparseSetNodeFunc St))
    : M St result :=
  match k with
  | O =>
      match values with
      | [] => get 0 offset
      | [v] => ret (LeafHash v, None)
      | _ => ret (None, Some (ErrBaseCase (len values)))
      end
  | S k' =>
      match values with
      | [] => get (Z.of_nat (S k')) offset
      | _ =>
          let split := split_point k' offset in
          join s (Z.of_nat (S k')) offset set
            (range_root s k' (below split values) offset get set)
            (range_root s k' (from split values) split get set)
      end
  end.

Lemma hStar2b_rec_range_root s k values offset get set :
  ascending values ->
  same (hStar2b_rec s k values offset get set)
       (range_root s k values offset get set).
Proof.
  revert values offset. induction k as [|k IH]; intros values offset Hasc.
  - destruct values as [|v [|w vs]]; intro; reflexivity.
  - destruct values as [|v vs]; [intro; reflexivity|].
    rewrite hStar2b_rec_node. cbn zeta. cbn [range_root].
    unfold search_index. rewrite Search_ascending by exact Hasc.
    rewrite firstn_below, skipn_below by exact Hasc.
    apply join_same; apply IH; now apply ascending_filter.
Qed.

Lemma Permutation_filter' {A : Type} (f : A -> bool) (l l' : list A) :
  Permutation l l' -> Permutation (filter f l) (filter f l').
Proof.
  induction 1 as [|x l l' _ IH|x y l|l l' l'' _ IH1 _ IH2]; simpl.
  - constructor.
  - destruct (f x); [now constructor|exact IH].
  - destruct (f x), (f y); try apply Permutation_refl. apply perm_swap.
  - now transitivity (filter f l').
Qed.

(** The root of a range does not depend on the order of the leaves. *)
Lemma range_root_Permutation s k values values' offset get set :
  Permutation values values' ->
  same (range_root s k values offset get set)
       (range_root s k values' offset get set).
Proof.
  revert values values' offset.
  induction k as [|k IH]; intros values values' offset HP.
  - destruct values as [|v [|w vs]].
    + apply Permutation_nil in HP. subst. intro; reflexivity.
    + apply Permutation_length_1_inv in HP. subst. intro; reflexivity.
    + pose proof (Permutation_length HP) as Hl.
      destruct values' as [|v' [|w' vs']]; try discriminate Hl.
      intro st. cbn [range_root]. unfold len. now rewrite Hl.
  - destruct values as [|v vs].
    + apply Permutation_nil in HP. subst. intro; reflexivity.
    + destruct values' as [|v' vs'].
      * apply Permutation_sym, Permutation_nil in HP. discriminate.
      * cbn [range_root]. cbn zeta.
        apply join_same; apply IH; now apply Permutation_filter'.
Qed.

(** Two sorted copies of the same leaves give the same run. *)
Lemma hStar2b_rec_Permutation s k values values' offset get set :
  ascending values -> ascending values' -> Permutation values values' ->
  same (hStar2b_rec s k values offset get set)
       (hStar2b_rec s k values' offset get set).
Proof.
  intros H H' HP st.
  rewrite (hStar2b_rec_range_root s k values) by exact H.
  rewrite (hStar2b_rec_range_root s k values') by exact H'.
  now apply range_root_Permutation.
Qed.

Lemma hStar2b_Permutation s n values values' offset get set :
  ascending values -> ascending values' -> Permutation values values' ->
  same (hStar2b s n values offset get set)
       (hStar2b s n values' offset get set).
Proof.
  intros H H' HP st. unfold hStar2b. destruct (n <? 0).
  - destruct values as [|v vs].
    + apply Permutation_nil in HP. now subst.
    + destruct values' as [|v' vs']; [|reflexivity].
      apply Permutation_sym, Permutation_nil in HP. discriminate.
  - now apply hStar2b_rec_Permutation.
Qed.

(** The same run up to a relabelling of its events. *)
Definition relabel {A : Type} (phi : event -> event)
    (r : exec A * St * list event) : exec A * St * list event :=
  let '(x, st, t) := r in (x, st, map phi t).

Definition alike {A : Type} (phi : event -> event) (m1 m2 : M St A) : Prop :=
  forall st, m2 st = relabel phi (m1 st).

Lemma bind_alike {A B : Type} phi (m1 m2 : M St A) (f1 f2 : A -> M St B) :
  alike phi m1 m2 -> (forall a, alike phi (f1 a) (f2 a)) ->
  alike phi (bind m1 f1) (bind m2 f2).
Proof.
  intros Hm Hf st. unfold bind. rewrite Hm.
  destruct (m1 st) as [[[a|p] st1] t1]; simpl; [|reflexivity].
  rewrite Hf. destruct (f1 a st1) as [[r st2] t2]. simpl.
  now rewrite map_app.
Qed.

Lemma ret_alike {A : Type} phi (a : A) : alike phi (ret a) (ret a).
Proof. intro st. reflexivity. Qed.

Lemma lift_alike {A : Type} phi (x : exec A) : alike phi (lift x) (lift x).
Proof. intro st. reflexivity. Qed.

Lemma join_alike phi s s' n offset set (L1 L2 R1 R2 : M St result) :
  hasher s = hasher s' ->
  (forall l r, phi (EvHashChildren l r) = EvHashChildren l r) ->
  (forall a b c, alike phi (set a b c) (set a b c)) ->
  alike phi L1 L2 -> alike phi R1 R2 ->
  alike phi (join s n offset (Some set) L1 R1) (join s' n offset (Some set) L2 R2).
Proof.
  intros Hh Hphi Hset HL HR. unfold join.
  apply bind_alike; [exact HL|]. intros [lhs [e|]]; [apply ret_alike|].
  apply bind_alike; [exact HR|]. intros [rhs [e|]]; [apply ret_alike|].
  apply bind_alike.
  - unfold call_HashChildren. rewrite Hh. intro st. simpl. now rewrite Hphi.
  - intros h. apply bind_alike; [|intros; apply ret_alike].
    apply bind_alike; [apply Hset|intros; apply ret_alike].
Qed.

Lemma hStar2b_rec_alike phi s s' k values offset get get' set :
  hasher s = hasher s' ->
  (forall l r, phi (EvHashChildren l r) = EvHashChildren l r) ->
  (forall a b c, alike phi (set a b c) (set a b c)) ->
  (forall a b, alike phi (get a b) (get' a b)) ->
  alike phi (hStar2b_rec s k values offset get (Some set))
            (hStar2b_rec s' k values offset get' (Some set)).
Proof.
  intros Hh Hphi Hset Hget. revert values offset.
  induction k as [|k IH]; intros values offset.
  - destruct values as [|v [|w vs]]; [apply Hget|apply ret_alike|apply ret_alike].
  - destruct values as [|v vs]; [apply Hget|].
    rewrite !hStar2b_rec_node. cbn zeta.
    destruct (search_index (split_point k offset) (v :: vs)) as [i|p];
      [|apply lift_alike].
    apply join_alike; auto.
Qed.

End Core.

End CoreProofs.

(** ** The two entry points of the engine *)

Module EngineProofs.
Import Go GoFacts maphasher merkle LeavesProofs CoreProofs.

Lemma int_wrap_exact (z : Z) : is_int z -> int_wrap z = z.
Proof.
  unfold is_int, int_wrap. intros H.
  rewrite Z.mod_small by lia. lia.
Qed.

(** Relabelling the tree id that HashEmpty events carry. *)
Definition with_treeID (t : Z) (e : event) : event :=
  match e with
  | EvHashEmpty _ index height => EvHashEmpty t index height
  | _ => e
  end.

Lemma Exists_Permutation {A : Type} (P : A -> Prop) (l l' : list A) :
  Permutation l l' -> Exists P l -> Exists P l'.
Proof.
  intros HP H. apply Exists_exists in H. destruct H as (x & Hx & HPx).
  apply Exists_exists. exists x. split; [|exact HPx].
  now apply (Permutation_in _ HP).
Qed.

Section Engine.

Variable St : Type.

Lemma bind_Ret_inv {A B : Type} (m : M St A) (f : A -> M St B) st b st' t :
  bind m f st = (Ret b, st', t) ->
  exists a st1 t1 t2,
    m st = (Ret a, st1, t1) /\ f a st1 = (Ret b, st', t2) /\ t = t1 ++ t2.
Proof.
  unfold bind. destruct (m st) as [[[a|p] st1] t1]; [|discriminate].
  destruct (f a st1) as [[r st2] t2] eqn:E. intros [= -> -> <-].
  now exists a, st1, t1, t2.
Qed.

(** The offset HStar2Nodes computes, in Go's int arithmetic. *)
Definition offset_of (s : HStar2) (depth subtreeDepth : Z) : Z :=
  int_sub (int_sub (BitLen (hasher s)) depth) subtreeDepth.

(** The ways through the two entry points. *)
Lemma HStar2Root_run (srt : Sorter) (s : HStar2) (n : Z) (values : Leaves) :
  all_indexed values ->
  HStar2Root (St := St) srt s n values
  = (fst (sort_Sort srt ByIndex values),
     hStar2b s n (fst (sort_Sort srt ByIndex values)) 0 (root_get s)
       (Some root_set)).
Proof.
  intros H. unfold HStar2Root. destruct (Sort_indexed srt values H) as [Hn _].
  destruct (sort_Sort srt ByIndex values) as [v r]. simpl in *. now subst r.
Qed.

Lemma HStar2Root_short (srt : Sorter) (s : HStar2) (n : Z) (values : Leaves) :
  (length values < 2)%nat ->
  HStar2Root (St := St) srt s n values
  = (values, hStar2b s n values 0 (root_get s) (Some root_set)).
Proof. intros H. unfold HStar2Root. now rewrite Sort_short. Qed.

Lemma HStar2Root_nil (srt : Sorter) (s : HStar2) (n : Z) (values : Leaves) :
  (2 <= length values)%nat ->
  Exists (fun v => negb (has_index v) = true) values ->
  snd (HStar2Root (St := St) srt s n values) = lift (Panicked PanicNilPointer).
Proof.
  intros Hl He. unfold HStar2Root.
  pose proof (Sort_nil_index srt values Hl He) as Hn.
  destruct (sort_Sort srt ByIndex values) as [v r]. simpl in *. now subst r.
Qed.

Lemma HStar2Nodes_nil (srt : Sorter) (s : HStar2) (index : bytes)
    (depth subtreeDepth : Z) (values : Leaves) (get : GetNode St)
    (set : SetNode St) :
  ~ all_indexed values ->
  HStar2Nodes srt s index depth subtreeDepth values get set
  = (values, lift (Panicked PanicNilPointer)).
Proof.
  intros H. unfold HStar2Nodes.
  destruct (all_indexed_dec values) as [Ha|He]; [contradiction|].
  now rewrite (log_values_nil values He).
Qed.

Lemma HStar2Nodes_negative (srt : Sorter) (s : HStar2) (index : bytes)
    (depth subtreeDepth : Z) (values : Leaves) (get : GetNode St)
    (set : SetNode St) :
  all_indexed values -> offset_of s depth subtreeDepth < 0 ->
  HStar2Nodes srt s index depth subtreeDepth values get set
  = (values, ret (None, Some ErrNegativeTreeLevelOffset)).
Proof.
  intros Ha H. unfold HStar2Nodes, offset_of in *.
  rewrite (log_values_indexed values Ha).
  destruct (Z.ltb_spec (int_sub (int_sub (BitLen (hasher s)) depth) subtreeDepth) 0);
    [reflexivity|lia].
Qed.

Lemma HStar2Nodes_run (srt : Sorter) (s : HStar2) (index : bytes)
    (depth subtreeDepth : Z) (values : Leaves) (get : GetNode St)
    (set : SetNode St) :
  all_indexed values -> 0 <= offset_of s depth subtreeDepth ->
  HStar2Nodes srt s index depth subtreeDepth values get set
  = (fst (sort_Sort srt ByIndex values),
     hStar2b s subtreeDepth (fst (sort_Sort srt ByIndex values))
       (SetBytes (data index))
       (nodes_get s subtreeDepth (offset_of s depth subtreeDepth) get)
       (Some (nodes_set subtreeDepth set))).
Proof.
  intros Ha H. unfold HStar2Nodes, offset_of in *.
  rewrite (log_values_indexed values Ha).
  destruct (Z.ltb_spec (int_sub (int_sub (BitLen (hasher s)) depth) subtreeDepth) 0);
    [lia|].
  destruct (Sort_indexed srt values Ha) as [Hn _].
  destruct (sort_Sort srt ByIndex values) as [v r]. simpl in *. now subst r.
Qed.

Lemma root_get_alike (s s' : HStar2) (depth index : Z) :
  hasher s = hasher s' ->
  alike St (with_treeID (treeID s')) (root_get s depth index)
                                     (root_get s' depth index).
Proof.
  intros Hh. unfold root_get. rewrite Hh.
  apply bind_alike; [apply lift_alike|]. intros padded.
  apply bind_alike; [|intros; apply ret_alike].
  unfold call_HashEmpty. apply bind_alike; [intro; reflexivity|].
  intros _. apply lift_alike.
Qed.

Lemma outcome_relabel {A : Type} phi (r : exec A * St * list event) :
  outcome (relabel St phi r) = outcome r.
Proof. now destruct r as [[x st] t]. Qed.

(** The tree id does not reach the outcome. *)
Lemma hStar2b_root_treeID (s s' : HStar2) (n : Z) (values : Leaves) (st : St) :
  hasher s = hasher s' ->
  outcome (hStar2b s n values 0 (root_get s) (Some root_set) st)
  = outcome (hStar2b s' n values 0 (root_get s') (Some root_set) st).
Proof.
  intros Hh.
  assert (Ha : alike St (with_treeID (treeID s'))
                 (hStar2b s n values 0 (root_get s) (Some root_set))
                 (hStar2b s' n values 0 (root_get s') (Some root_set))).
  { unfold hStar2b. destruct (n <? 0).
    - destruct values; [|apply lift_alike].
      now apply (root_get_alike s s').
    - apply hStar2b_rec_alike; auto.
      + intros a b c. apply ret_alike.
      + intros a b. now apply (root_get_alike s s'). }
  rewrite (Ha st). now rewrite outcome_relabel.
Qed.

(** C4: the outcome of HStar2Root, root hash included, is the same for
    any two orderings of the same leaves, whatever order the sort leaves
    equal indices in, and for engines that differ in their tree id only. *)
Theorem HStar2Root_deterministic (srt srt' : Sorter) (hasher : MapHasher)
    (treeID treeID' : Z) (n : Z) (values values' : Leaves) (st : St) :
  Permutation values values' ->
  outcome (snd (HStar2Root srt (NewHStar2 treeID hasher) n values) st)
  = outcome (snd (HStar2Root srt' (NewHStar2 treeID' hasher) n values') st).
Proof.
  intros HP.
  set (s := NewHStar2 treeID hasher). set (s' := NewHStar2 treeID' hasher).
  pose proof (Permutation_length HP) as Hlen.
  destruct (all_indexed_dec values) as [Ha|He].
  - (* every leaf has an index: both slices get sorted *)
    assert (Ha' : all_indexed values')
      by (apply (all_indexed_Permutation values); assumption).
    rewrite (HStar2Root_run srt s n values Ha).
    rewrite (HStar2Root_run srt' s' n values' Ha'). cbn [snd].
    assert (HP' : Permutation (fst (sort_Sort srt ByIndex values))
                              (fst (sort_Sort srt' ByIndex values'))).
    { apply perm_trans with values;
        [apply Permutation_sym, Sort_Permutation|].
      apply perm_trans with values'; [exact HP|apply Sort_Permutation]. }
    rewrite (hStar2b_Permutation St s n _ _ 0 (root_get s) (Some root_set)
               (proj2 (Sort_indexed srt values Ha))
               (proj2 (Sort_indexed srt' values' Ha')) HP').
    now apply hStar2b_root_treeID.
  - destruct (Nat.lt_ge_cases (length values) 2) as [Hl|Hl].
    + (* at most one leaf: nothing to sort *)
      rewrite (HStar2Root_short srt s n values Hl).
      rewrite (HStar2Root_short srt' s' n values') by lia. cbn [snd].
      assert (values' = values) as ->.
      { destruct values as [|a [|b l]]; simpl in Hl; try lia.
        - now apply Permutation_nil in HP.
        - now apply Permutation_length_1_inv in HP. }
      now apply hStar2b_root_treeID.
    + (* a nil index among two leaves or more: the sort panics *)
      rewrite (HStar2Root_nil srt s n values Hl He).
      rewrite (HStar2Root_nil srt' s' n values'); [reflexivity|lia|].
      now apply (Exists_Permutation _ values).
Qed.

(** C9: both entry points rearrange the caller's slice through Swap at
    positions below Len and in no other way, so that it is a permutation
    of what it was and no leaf is altered; a call that returns leaves it
    in Less order, which for two leaves or more, or leaves that all have
    an index, is the ascending order of index; HStar2Nodes does so when
    it gets past its offset check, and leaves the slice as it was when it
    does not get that far. *)
Theorem values_sorted_in_place (srt : Sorter) (s : HStar2) (n : Z)
    (index : bytes) (depth subtreeDepth : Z) (values : Leaves)
    (get : GetNode St) (set : SetNode St) (st : St) :
  let root := HStar2Root (St := St) srt s n values in
  let nodes := HStar2Nodes srt s index depth subtreeDepth values get set in
  let swapped (after : Leaves) :=
    exists swaps : list (nat * nat),
      Forall (fun ij => Z.of_nat (fst ij) < Len values /\
                        Z.of_nat (snd ij) < Len values) swaps /\
      after = fold_left (fun d ij => Swap d (fst ij) (snd ij)) swaps values in
  (swapped (fst root) /\ Permutation values (fst root) /\
   (forall r, outcome (snd root st) = Ret r ->
      in_Less_order (fst root) /\
      ((2 <= length values)%nat -> ascending (fst root))) /\
   (all_indexed values -> ascending (fst root))) /\
  (swapped (fst nodes) /\ Permutation values (fst nodes) /\
   (0 <= offset_of s depth subtreeDepth ->
      forall r, outcome (snd nodes st) = Ret r ->
      in_Less_order (fst nodes) /\ ascending (fst nodes)) /\
   (offset_of s depth subtreeDepth < 0 -> fst nodes = values) /\
   (~ all_indexed values -> fst nodes = values)).
Proof.
  cbn zeta. split.
  - assert (E : fst (HStar2Root (St := St) srt s n values)
                = fst (sort_Sort srt ByIndex values)).
    { unfold HStar2Root. now destruct (sort_Sort srt ByIndex values) as [v [p|]]. }
    rewrite E. split; [|split; [|split]].
    + exact (sort_Sort_swaps srt Leaves ByIndex values).
    + apply Sort_Permutation.
    + intros r Hr.
      assert (Hn : snd (sort_Sort srt ByIndex values) = None).
      { unfold HStar2Root in Hr.
        destruct (sort_Sort srt ByIndex values) as [v [p|]]; [discriminate|].
        reflexivity. }
      split; [now apply Sort_returns|]. intros Hl.
      destruct (all_indexed_dec values) as [Ha|He]; [now apply Sort_indexed|].
      rewrite (Sort_nil_index srt values Hl He) in Hn. discriminate.
    + intros Ha. now apply Sort_indexed.
  - destruct (all_indexed_dec values) as [Ha|He].
    + destruct (Z.lt_ge_cases (offset_of s depth subtreeDepth) 0) as [Hneg|Hpos].
      * rewrite (HStar2Nodes_negative srt s index depth subtreeDepth values
                   get set Ha Hneg). cbn [fst snd].
        split; [exists []; split; [constructor|reflexivity]|].
        split; [reflexivity|]. split; [lia|]. split; reflexivity.
      * rewrite (HStar2Nodes_run srt s index depth subtreeDepth values
                   get set Ha Hpos). cbn [fst snd].
        split; [exact (sort_Sort_swaps srt Leaves ByIndex values)|].
        split; [apply Sort_Permutation|].
        split; [|split; [lia|contradiction]].
        intros _ r _. split.
        -- apply ascending_in_Less_order. now apply Sort_indexed.
        -- now apply Sort_indexed.
    + assert (Hn : ~ all_indexed values).
      { intros Ha. apply Exists_exists in He. destruct He as (v & Hv & Hb).
        unfold all_indexed in Ha. rewrite Forall_forall in Ha.
        rewrite (Ha v Hv) in Hb. discriminate. }
      rewrite (HStar2Nodes_nil srt s index depth subtreeDepth values get set Hn).
      cbn [fst snd].
      split; [exists []; split; [constructor|reflexivity]|].
      split; [reflexivity|]. split; [|split; reflexivity].
      intros _ r Hr. discriminate.
Qed.

(** An error value was handed to the engine by the caller's getter. *)
Definition from_getter (e : error) (t : list event) : Prop :=
  exists level index h, In (EvGet level index h (Some e)) t.

Lemma from_getter_app_l e t1 t2 : from_getter e t1 -> from_getter e (t1 ++ t2).
Proof.
  intros (l & i & h & H). exists l, i, h. apply in_or_app. now left.
Qed.

Lemma from_getter_app_r e t1 t2 : from_getter e t2 -> from_getter e (t1 ++ t2).
Proof.
  intros (l & i & h & H). exists l, i, h. apply in_or_app. now right.
Qed.

(** The getter closure of HStar2Nodes fails only with the caller's error. *)
Lemma nodes_get_error s treeDepth tlo (get : GetNode St) depth index st h e st' t :
  nodes_get s treeDepth tlo get depth index st = (Ret (h, Some e), st', t) ->
  h = None /\ from_getter e t.
Proof.
  unfold nodes_get, bind, call_get.
  destruct (get (int_sub treeDepth depth) index st) as [[h0 [e0|]] st0].
  - cbn. intros [= <- <- <- <-]. split; [reflexivity|].
    exists (int_sub treeDepth depth), index, h0. now left.
  - destruct h0 as [b|]; cbn; [discriminate|].
    unfold lift.
    destruct (PaddedBytes index (Size (Hash (hasher s)))) as [padded|p];
      [|discriminate].
    unfold call_HashEmpty, bind, emit, lift.
    destruct (HashEmpty (hasher s) (treeID s) padded (int_add depth tlo));
      cbn; discriminate.
Qed.

(** An error of the core is a base case error or comes from its getter. *)
Lemma hStar2b_rec_error s k values offset
    (get : SparseGetNodeFunc St) (set : option (SparseSetNodeFunc St)) :
  (forall n i st h e st' t,
     get n i st = (Ret (h, Some e), st', t) -> h = None /\ from_getter e t) ->
  forall st h e st' t,
    hStar2b_rec s k values offset get set st = (Ret (h, Some e), st', t) ->
    h = None /\ ((exists n, e = ErrBaseCase n) \/ from_getter e t).
Proof.
  intros Hget. revert values offset.
  induction k as [|k IH]; intros values offset st h e st' t.
  - destruct values as [|v [|w vs]]; cbn [hStar2b_rec].
    + intros H. apply Hget in H. tauto.
    + discriminate.
    + unfold ret. intros [= <- <- <- <-]. split; [reflexivity|]. left. eauto.
  - destruct values as [|v vs].
    + cbn [hStar2b_rec]. intros H. apply Hget in H. tauto.
    + rewrite hStar2b_rec_node. cbn zeta.
      destruct (search_index (split_point k offset) (v :: vs)) as [i|p];
        [|discriminate].
      unfold join.
      intros H. apply bind_Ret_inv in H.
      destruct H as ([lhs [el|]] & st1 & t1 & t2 & HL & H & ->).
      * unfold ret in H. injection H as <- <- <- <-.
        apply IH in HL. destruct HL as [_ [HL|HL]]; split; auto.
        right. now apply from_getter_app_l.
      * apply bind_Ret_inv in H.
        destruct H as ([rhs [er|]] & st2 & t3 & t4 & HR & H & ->).
        -- unfold ret in H. injection H as <- <- <- <-.
           apply IH in HR. destruct HR as [_ [HR|HR]]; split; auto.
           right. apply from_getter_app_r. now apply from_getter_app_l.
        -- apply bind_Ret_inv in H. destruct H as (hh & st3 & t5 & t6 & _ & H & ->).
           apply bind_Ret_inv in H. destruct H as (u & st4 & t7 & t8 & _ & H & ->).
           discriminate.
Qed.

Lemma hStar2b_error s n values offset
    (get : SparseGetNodeFunc St) (set : option (SparseSetNodeFunc St)) :
  (forall n i st h e st' t,
     get n i st = (Ret (h, Some e), st', t) -> h = None /\ from_getter e t) ->
  forall st h e st' t,
    hStar2b s n values offset get set st = (Ret (h, Some e), st', t) ->
    h = None /\ ((exists n, e = ErrBaseCase n) \/ from_getter e t).
Proof.
  intros Hget st h e st' t. unfold hStar2b. destruct (n <? 0).
  - destruct values as [|v vs]; [|discriminate].
    intros H. apply Hget in H. tauto.
  - now apply hStar2b_rec_error.
Qed.

(** The first call of the core on an empty range is its getter's. *)
Lemma hStar2b_empty s n offset
    (get : SparseGetNodeFunc St) (set : option (SparseSetNodeFunc St)) st :
  hStar2b s n [] offset get set st = get n offset st.
Proof.
  unfold hStar2b. destruct (Z.ltb_spec n 0); [reflexivity|].
  rewrite hStar2b_rec_empty. now rewrite Z2Nat.id by lia.
Qed.

(** C6 as amended: the offset is bit_len - depth - subtree_depth computed
    in Go's int arithmetic.  On leaves that all have an index, HStar2Nodes
    returns the error ErrNegativeTreeLevelOffset and no hash, leaves the
    slice and the store as they were and calls neither the getter, the
    setter nor the hasher, exactly when that offset is negative; when it
    is not negative an ErrNegativeTreeLevelOffset that comes back is one
    the caller's getter returned.  A leaf with a nil index makes the call
    panic before the offset is tested.  When neither subtraction leaves
    the range of int the offset is bit_len - depth - subtree_depth. *)
Theorem HStar2Nodes_negative_offset (srt : Sorter) (s : HStar2) (index : bytes)
    (depth subtreeDepth : Z) (values : Leaves)
    (get : GetNode St) (set : SetNode St) (st : St) :
  let call := HStar2Nodes srt s index depth subtreeDepth values get set in
  (all_indexed values ->
     (offset_of s depth subtreeDepth < 0 <->
        snd call st = (Ret (None, Some ErrNegativeTreeLevelOffset), st, [])) /\
     (offset_of s depth subtreeDepth < 0 -> fst call = values) /\
     (0 <= offset_of s depth subtreeDepth ->
        forall h,
          outcome (snd call st) = Ret (h, Some ErrNegativeTreeLevelOffset) ->
          h = None /\
          from_getter ErrNegativeTreeLevelOffset (events (snd call st)))) /\
  (~ all_indexed values ->
     snd call st = (Panicked PanicNilPointer, st, []) /\ fst call = values) /\
  (is_int (BitLen (hasher s) - depth) ->
   is_int (BitLen (hasher s) - depth - subtreeDepth) ->
   offset_of s depth subtreeDepth = BitLen (hasher s) - depth - subtreeDepth).
Proof.
  cbn zeta. split; [|split].
  - intros Ha.
    assert (Horigin : 0 <= offset_of s depth subtreeDepth -> forall h,
      outcome (snd (HStar2Nodes srt s index depth subtreeDepth values get set) st)
        = Ret (h, Some ErrNegativeTreeLevelOffset) ->
      h = None /\
      from_getter ErrNegativeTreeLevelOffset
        (events (snd (HStar2Nodes srt s index depth subtreeDepth values get set) st))).
    { intros Hpos h.
      rewrite (HStar2Nodes_run srt s index depth subtreeDepth values get set Ha Hpos).
      cbn [snd].
      destruct (hStar2b _ _ _ _ _ _ _) as [[r st1] t1] eqn:E.
      cbn. intros ->.
      apply (hStar2b_error _ _ _ _ _ _ (nodes_get_error _ _ _ _)) in E.
      destruct E as [-> [[m E]|E]]; [discriminate|now split]. }
    destruct (Z.lt_ge_cases (offset_of s depth subtreeDepth) 0) as [Hneg|Hpos].
    + rewrite (HStar2Nodes_negative srt s index depth subtreeDepth values
                 get set Ha Hneg). cbn [fst snd].
      split; [|split]; [split; [reflexivity|auto]|reflexivity|lia].
    + split; [|split]; [|lia|exact Horigin].
      split; [lia|]. intros E. exfalso.
      destruct (Horigin Hpos None) as [_ (l & i & h & Hin)].
      * now rewrite E.
      * rewrite E in Hin. destruct Hin.
  - intros Hn.
    rewrite (HStar2Nodes_nil srt s index depth subtreeDepth values get set Hn).
    split; reflexivity.
  - intros H1 H2. unfold offset_of, int_sub.
    rewrite (int_wrap_exact _ H1). now apply int_wrap_exact.
Qed.

Lemma bind_inv {A B : Type} (m : M St A) (f : A -> M St B) st r st' t :
  bind m f st = (r, st', t) ->
  (exists p, m st = (Panicked p, st', t) /\ r = Panicked p) \/
  (exists a st1 t1 t2,
     m st = (Ret a, st1, t1) /\ f a st1 = (r, st', t2) /\ t = t1 ++ t2).
Proof.
  unfold bind. destruct (m st) as [[[a|p] st1] t1].
  - destruct (f a st1) as [[r2 st2] t2] eqn:E. intros [= <- <- <-].
    right. now exists a, st1, t1, t2.
  - intros [= <- <- <-]. left. now exists p.
Qed.

(** The run of the getter closure of HStar2Nodes at local height [depth]:
    one call of the caller's getter, then at most one HashEmpty. *)
Lemma nodes_get_events s treeDepth tlo (get : GetNode St) depth index st :
  exists h e rest,
    get (int_sub treeDepth depth) index st
      = ((h, e), store_after (call_get get (int_sub treeDepth depth) index st)) /\
    events (nodes_get s treeDepth tlo get depth index st)
      = EvGet (int_sub treeDepth depth) index h e :: rest /\
    (rest = [] \/
     exists padded,
       rest = [EvHashEmpty (treeID s) padded (int_add depth tlo)]) /\
    (e <> None ->
       nodes_get s treeDepth tlo get depth index st
       = (Ret (None, e), store_after (call_get get (int_sub treeDepth depth) index st),
          [EvGet (int_sub treeDepth depth) index h e])).
Proof.
  unfold nodes_get, bind, call_get.
  destruct (get (int_sub treeDepth depth) index st) as [[h [e|]] st0].
  - exists h, (Some e), []. cbn. repeat split; auto.
  - destruct h as [b|].
    + exists (Some b), None, []. cbn. repeat split; auto. congruence.
    + unfold lift.
      destruct (PaddedBytes index (Size (Hash (hasher s)))) as [padded|p].
      * exists None, None, [EvHashEmpty (treeID s) padded (int_add depth tlo)].
        unfold call_HashEmpty, bind, emit, lift.
        destruct (HashEmpty (hasher s) (treeID s) padded (int_add depth tlo));
          cbn; repeat split; eauto; congruence.
      * exists None, None, []. cbn. repeat split; auto. congruence.
Qed.

(** The reference core depends on its callbacks at the heights it goes
    through only. *)
Lemma and_then_same (m1 m2 : M St result) (k1 k2 : bytes -> M St result) :
  same St m1 m2 -> (forall a, same St (k1 a) (k2 a)) ->
  same St (and_then m1 k1) (and_then m2 k2).
Proof.
  intros Hm Hk. unfold and_then. apply bind_same; [exact Hm|].
  intros [h [e|]]; simpl; [intro; reflexivity|apply Hk].
Qed.

Lemma h_spec_callbacks s (k : nat) (get get' : SparseGetNodeFunc St)
    (set set' : SparseSetNodeFunc St) :
  (forall n i, 0 <= n <= Z.of_nat k -> same St (get n i) (get' n i)) ->
  (forall n i x, 0 <= n <= Z.of_nat k -> same St (set n i x) (set' n i x)) ->
  forall (m : nat) values offset, (m <= k)%nat ->
    same St (h_spec s m values offset get set)
            (h_spec s m values offset get' set').
Proof.
  intros Hget Hset. induction m as [|m IH]; intros values offset Hm.
  - cbn [h_spec]. destruct (length values =? 0)%nat; [apply Hget; lia|].
    intro; reflexivity.
  - cbn [h_spec]. destruct (length values =? 0)%nat; [apply Hget; lia|].
    apply and_then_same; [apply IH; lia|]. intros l.
    apply and_then_same; [apply IH; lia|]. intros r.
    apply bind_same; [intro; reflexivity|]. intros combined.
    apply bind_same; [apply Hset; lia|]. intros u st0. reflexivity.
Qed.

(** Inside the tree the closures of HStar2Nodes are the callbacks of the
    specification. *)
Lemma nodes_get_level_get s depth subtreeDepth (get : GetNode St) n i :
  0 <= depth -> depth + subtreeDepth <= BitLen (hasher s) ->
  is_int (BitLen (hasher s)) -> 0 <= n <= subtreeDepth ->
  same St (nodes_get s subtreeDepth (offset_of s depth subtreeDepth) get n i)
          (level_get s depth subtreeDepth get n i).
Proof.
  intros Hd Hfit Hb Hn st. unfold is_int in Hb.
  unfold nodes_get, level_get, offset_of, int_sub, int_add.
  rewrite (int_wrap_exact (BitLen (hasher s) - depth)) by (unfold is_int; lia).
  rewrite (int_wrap_exact (BitLen (hasher s) - depth - subtreeDepth))
    by (unfold is_int; lia).
  rewrite (int_wrap_exact (subtreeDepth - n)) by (unfold is_int; lia).
  rewrite (int_wrap_exact (n + _)) by (unfold is_int; lia).
  reflexivity.
Qed.

Lemma nodes_set_level_set subtreeDepth (set : SetNode St) n i x :
  is_int subtreeDepth -> 0 <= n <= subtreeDepth ->
  same St (nodes_set subtreeDepth set n i x) (level_set subtreeDepth set n i x).
Proof.
  intros Hb Hn st. unfold is_int in Hb. unfold nodes_set, level_set, int_sub.
  rewrite (int_wrap_exact (subtreeDepth - n)) by (unfold is_int; lia).
  reflexivity.
Qed.

(** C2 as amended: for a subtree that lies inside the tree (depth and
    subtree_depth not negative, depth + subtree_depth at most bit_len)
    and leaves that all have an index, the whole run of HStar2Nodes,
    that is its result, the store it leaves and every call it makes in
    their order, is the run of the reference core h started at height
    subtree_depth on the sorted leaves over callbacks that, at local
    recursion height n, call the caller's get and set with the level
    subtree_depth - n and hash_empty with the absolute depth
    n + (bit_len - depth - subtree_depth); the level is 0 at the root of
    the subtree (n = subtree_depth) and subtree_depth at its deepest
    level (n = 0). *)
Theorem callback_levels (srt : Sorter) (s : HStar2) (prefix : bytes)
    (depth subtreeDepth : Z) (values : Leaves)
    (get : GetNode St) (set : SetNode St) (st : St) :
  0 <= depth -> 0 <= subtreeDepth ->
  depth + subtreeDepth <= BitLen (hasher s) ->
  is_int (BitLen (hasher s)) ->
  all_indexed values ->
  let call := HStar2Nodes srt s prefix depth subtreeDepth values get set in
  snd call st
  = h_spec s (Z.to_nat subtreeDepth) (fst call) (SetBytes (data prefix))
      (level_get s depth subtreeDepth get) (level_set subtreeDepth set) st /\
  Permutation values (fst call) /\ ascending (fst call) /\
  (forall n, subtreeDepth - n = 0 <-> n = subtreeDepth) /\
  (forall n, subtreeDepth - n = subtreeDepth <-> n = 0).
Proof.
  intros Hd Hsd Hfit Hb Ha. cbn zeta.
  assert (Hoff : offset_of s depth subtreeDepth
                 = BitLen (hasher s) - depth - subtreeDepth).
  { unfold offset_of, int_sub. unfold is_int in Hb.
    rewrite (int_wrap_exact (BitLen (hasher s) - depth)) by (unfold is_int; lia).
    apply int_wrap_exact. unfold is_int. lia. }
  rewrite (HStar2Nodes_run srt s prefix depth subtreeDepth values get set Ha)
    by lia.
  cbn [fst snd].
  destruct (Sort_indexed srt values Ha) as [_ Hasc].
  split; [|split; [apply Sort_Permutation|split; [exact Hasc|split; intros; lia]]].
  unfold hStar2b. destruct (Z.ltb_spec subtreeDepth 0); [lia|].
  rewrite (hStar2b_rec_h_spec St s (Z.to_nat subtreeDepth) _ _ _ _ Hasc).
  apply h_spec_callbacks with (k := Z.to_nat subtreeDepth); [| |lia].
  - intros n i Hn. apply nodes_get_level_get; try assumption. lia.
  - intros n i x Hn. apply nodes_set_level_set; [|lia].
    unfold is_int in *. lia.
Qed.

(** When both halves of a node are computed, what the setter returns
    does not reach the result. *)
Lemma join_drops_set_result s n offset (set : SparseSetNodeFunc St)
    (L R : M St result) st lhs st1 t1 rhs st2 t2 e st3 t3 :
  L st = (Ret (lhs, None), st1, t1) ->
  R st1 = (Ret (rhs, None), st2, t2) ->
  set n offset (HashChildren (hasher s) lhs rhs) st2 = (Ret e, st3, t3) ->
  join St s n offset (Some set) L R st
  = (Ret (HashChildren (hasher s) lhs rhs, None), st3,
     t1 ++ t2 ++ EvHashChildren lhs rhs :: t3).
Proof.
  intros HL HR HS. unfold join, bind. rewrite HL, HR.
  unfold call_HashChildren, bind, emit, ret. rewrite HS.
  cbn. now rewrite !app_nil_r.
Qed.

(** An error the getter returns ends the run of the core and is its
    result, unchanged. *)
Lemma hStar2b_rec_getter_error s k values offset
    (get : SparseGetNodeFunc St) (set : SparseSetNodeFunc St) e :
  (forall n i st r st' t l j h,
     get n i st = (r, st', t) -> In (EvGet l j h (Some e)) t ->
     r = Ret (None, Some e)) ->
  (forall n i x st r st' t l j h,
     set n i x st = (r, st', t) -> ~ In (EvGet l j h (Some e)) t) ->
  forall st r st' t l j h,
    hStar2b_rec s k values offset get (Some set) st = (r, st', t) ->
    In (EvGet l j h (Some e)) t ->
    r = Ret (None, Some e).
Proof.
  intros Hget Hset. revert values offset.
  induction k as [|k IH]; intros values offset st r st' t l j h.
  - destruct values as [|v [|w vs]]; cbn [hStar2b_rec].
    + apply Hget.
    + unfold ret. intros [= <- <- <-] [].
    + unfold ret. intros [= <- <- <-] [].
  - destruct values as [|v vs]; [cbn [hStar2b_rec]; apply Hget|].
    rewrite hStar2b_rec_node. cbn zeta.
    destruct (search_index (split_point k offset) (v :: vs)) as [i0|p0];
      [|unfold lift; intros [= <- <- <-] []].
    unfold join. intros H Hin.
    apply bind_inv in H.
    destruct H as [(p & HL & ->)|([lhs el] & st1 & t1 & t2 & HL & H & ->)].
    { now apply (IH _ _ _ _ _ _ l j h) in HL. }
    destruct el as [el|].
    { unfold ret in H. injection H as <- <- <-. rewrite app_nil_r in Hin.
      apply (IH _ _ _ _ _ _ l j h) in HL; [|exact Hin]. congruence. }
    apply in_app_or in Hin. destruct Hin as [Hin|Hin].
    { apply (IH _ _ _ _ _ _ l j h) in HL; [|exact Hin]. discriminate. }
    apply bind_inv in H.
    destruct H as [(p & HR & ->)|([rhs er] & st2 & t3 & t4 & HR & H & ->)].
    { now apply (IH _ _ _ _ _ _ l j h) in HR. }
    destruct er as [er|].
    { unfold ret in H. injection H as <- <- <-. rewrite app_nil_r in Hin.
      apply (IH _ _ _ _ _ _ l j h) in HR; [|exact Hin]. congruence. }
    apply in_app_or in Hin. destruct Hin as [Hin|Hin].
    { apply (IH _ _ _ _ _ _ l j h) in HR; [|exact Hin]. discriminate. }
    exfalso. unfold call_HashChildren, bind, emit, ret in H.
    destruct (set (Z.of_nat (S k)) offset (HashChildren (hasher s) lhs rhs) st2)
      as [[[u|p] st3] t5] eqn:ES; cbn in H; injection H as <- <- <-;
      cbn in Hin; rewrite ?app_nil_r in Hin;
      (destruct Hin as [Hin|Hin]; [discriminate|]);
      now apply (Hset _ _ _ _ _ _ _ l j h) in ES.
Qed.

(** X15: the getter half of callback error propagation: once the
    caller's getter has returned an error, HStar2Nodes returns that error
    and no hash. *)
Lemma HStar2Nodes_getter_error (srt : Sorter) (s : HStar2) (index : bytes)
    (depth subtreeDepth : Z) (values : Leaves)
    (get : GetNode St) (set : SetNode St) (st : St) level i h e :
  0 <= subtreeDepth ->
  In (EvGet level i h (Some e))
     (events (snd (HStar2Nodes srt s index depth subtreeDepth values get set) st)) ->
  outcome (snd (HStar2Nodes srt s index depth subtreeDepth values get set) st)
  = Ret (None, Some e).
Proof.
  intros Hd. unfold HStar2Nodes.
  destruct (log_values values); cbn [snd]; [|intros []].
  destruct (_ <? 0); cbn [snd]; [intros []|].
  destruct (sort_Sort srt ByIndex values) as [sorted [p|]]; cbn [snd];
    [intros []|].
  unfold hStar2b. destruct (Z.ltb_spec subtreeDepth 0); [lia|].
  destruct (hStar2b_rec _ _ _ _ _ _ _) as [[r st1] t1] eqn:E. cbn.
  intros Hin. eapply hStar2b_rec_getter_error; [| |exact E|exact Hin].
  - clear. intros n i0 st r st' t l j h0 Hrun Hin.
    destruct (nodes_get_events s subtreeDepth
                (int_sub (int_sub (BitLen (hasher s)) depth) subtreeDepth)
                get n i0 st) as (h1 & e1 & rest & _ & Hev & Hrest & Herr).
    rewrite Hrun in Hev, Herr. cbn in Hev. subst t.
    destruct Hin as [Hin|Hin].
    + injection Hin as _ _ _ E1.
      assert (Hne : e1 <> None) by congruence.
      specialize (Herr Hne). congruence.
    + destruct Hrest as [->|(padded & ->)]; [destruct Hin|].
      destruct Hin as [Hin|[]]. discriminate.
  - clear. intros n i0 x st r st' t l j h0 Hrun Hin.
    unfold nodes_set, call_set in Hrun.
    destruct (set _ _ _ _) as [e0 st0]. injection Hrun as <- <- <-.
    destruct Hin as [Hin|[]]. discriminate.
Qed.

End Engine.

End EngineProofs.

(** ** The engine on the small instance *)

Module Runs.
Import Go GoFacts maphasher merkle LeavesProofs Instance CoreProofs EngineProofs.
Import MapHasherProofs.

Ltac run := vm_compute; repeat split; try discriminate; try reflexivity.

Definition two_leaves : Leaves := [leaf 3 x61; leaf 0 x62].

(** The ladder of the one-byte hasher: entry 3, and heights 3 and 9. *)
Lemma null_hash_ladder_witness :
  let m := maphasher.New tiny in
  let E := fun k : Z => nth (Z.to_nat k) (nullHashes m) None in
  E 3 = HashChildren m (E 2) (E 2) /\
  HashEmpty m 42 None 3 = Ret (E 3) /\
  HashEmpty m 42 None 9 = Panicked (PanicHashEmpty 9).
Proof.
  destruct (null_hash_ladder tiny) as (_ & _ & _ & H1 & H2 & H3).
  split; [|split].
  - apply (H1 3). run.
  - apply (H2 42 None 3). run.
  - apply (H3 42 None 9). right. run.
Defined.

(** The core on two sorted leaves of a subtree of two levels. *)
Lemma hStar2b_is_reference_witness :
  hStar2b engine 2 [leaf 0 x62; leaf 3 x61] 0
    (nodes_get engine 2 6 get_nothing) (Some (nodes_set 2 set_record)) []
  = h_spec engine 2 [leaf 0 x62; leaf 3 x61] 0
      (nodes_get engine 2 6 get_nothing) (nodes_set 2 set_record) [].
Proof.
  apply (hStar2b_is_reference writes engine 2 [leaf 0 x62; leaf 3 x61] 0
           (nodes_get engine 2 6 get_nothing) (nodes_set 2 set_record) []).
  split; repeat constructor; unfold index_le, index, leaf; simpl; lia.
Defined.

(** Two orderings of two leaves, under two tree ids. *)
Lemma HStar2Root_deterministic_witness :
  outcome (snd (HStar2Root insertion (NewHStar2 42 (maphasher.New tiny)) 2
                  [leaf 3 x61; leaf 0 x62]) tt)
  = outcome (snd (HStar2Root insertion (NewHStar2 7 (maphasher.New tiny)) 2
                    [leaf 0 x62; leaf 3 x61]) tt).
Proof.
  apply (HStar2Root_deterministic unit insertion insertion (maphasher.New tiny)
           42 7 2 [leaf 3 x61; leaf 0 x62] [leaf 0 x62; leaf 3 x61] tt).
  apply perm_swap.
Defined.

(** Order independence on the instance, by evaluation. *)
Example order_independence :
  outcome (snd (HStar2Root insertion engine 8 [leaf 1 x41; leaf 2 x42]) tt)
  = outcome (snd (HStar2Root insertion engine 8 [leaf 2 x42; leaf 1 x41]) tt).
Proof. vm_compute. reflexivity. Qed.

(** Two leaves out of order: both entry points swap them, and a subtree
    that does not fit leaves them as they are. *)
Lemma values_sorted_in_place_witness :
  Permutation two_leaves
    (fst (HStar2Root (St := writes) insertion engine 2 two_leaves)) /\
  in_Less_order (fst (HStar2Root (St := writes) insertion engine 2 two_leaves)) /\
  ascending
    (fst (HStar2Nodes insertion engine None 6 2 two_leaves get_nothing set_record)) /\
  fst (HStar2Nodes insertion engine None 8 2 two_leaves get_nothing set_record)
  = two_leaves.
Proof.
  pose proof (values_sorted_in_place writes insertion engine 2 None 6 2
                two_leaves get_nothing set_record []) as H.
  pose proof (values_sorted_in_place writes insertion engine 2 None 8 2
                two_leaves get_nothing set_record []) as H'.
  cbn zeta in H, H'.
  destruct H as [(_ & Hperm & Hret & _) (_ & _ & Hnodes & _)].
  destruct H' as [_ (_ & _ & _ & Hneg & _)].
  split; [exact Hperm|]. split; [|split].
  - eapply (fun r E => proj1 (Hret r E)). vm_compute. reflexivity.
  - eapply Hnodes; [vm_compute; discriminate|vm_compute; reflexivity].
  - apply Hneg. vm_compute. reflexivity.
Defined.

(** A subtree that reaches below the leaves of the tree, one whose
    getter returns the engine's own error value, and a leaf with a nil
    index. *)
Lemma HStar2Nodes_negative_offset_witness :
  (snd (HStar2Nodes insertion engine None 8 2 two_leaves get_nothing set_record) []
   = (Ret (None, Some ErrNegativeTreeLevelOffset), [], [])) /\
  fst (HStar2Nodes insertion engine None 8 2 two_leaves get_nothing set_record)
  = two_leaves /\
  from_getter ErrNegativeTreeLevelOffset
    (events (snd (HStar2Nodes insertion engine None 6 2 two_leaves
                    get_failing set_record) [])) /\
  snd (HStar2Nodes insertion engine None 8 2 [leaf 3 x61; leaf_nil x62]
         get_nothing set_record) []
  = (Panicked PanicNilPointer, [], []).
Proof.
  assert (Ha : all_indexed two_leaves) by (repeat constructor).
  assert (Hn : ~ all_indexed [leaf 3 x61; leaf_nil x62]).
  { intros H. apply Forall_inv_tail, Forall_inv in H. discriminate H. }
  split; [|split; [|split]].
  - apply (proj1 (proj1 (HStar2Nodes_negative_offset writes insertion engine None
                           8 2 two_leaves get_nothing set_record []) Ha)).
    vm_compute. reflexivity.
  - apply (proj1 (proj2 (proj1 (HStar2Nodes_negative_offset writes insertion
                           engine None 8 2 two_leaves get_nothing set_record [])
                           Ha))).
    vm_compute. reflexivity.
  - apply (proj2 (proj2 (proj1 (HStar2Nodes_negative_offset writes insertion
                           engine None 6 2 two_leaves get_failing set_record [])
                           Ha)) ltac:(vm_compute; discriminate) None).
    vm_compute. reflexivity.
  - apply (proj1 (proj1 (proj2 (HStar2Nodes_negative_offset writes insertion
                           engine None 8 2 [leaf 3 x61; leaf_nil x62]
                           get_nothing set_record [])) Hn)).
Defined.

(** C6, the claim as stated fails.  With depth = subtree_depth = 2^63 - 1,
    the largest int, bit_len - depth - subtree_depth = 10 - 2^64 is
    negative, but in int arithmetic it is 10: the offset test passes, the
    getter is called, and the call ends in the panic of HashEmpty on the
    wrapped height 2^63 - 1 + 10.  And with a negative offset and a leaf
    whose index is nil, the logging loop panics before the offset is
    tested, so that no error is returned. *)
Lemma offset_test_passes_on_a_negative_offset :
  BitLen (hasher engine) - 9223372036854775807 - 9223372036854775807 < 0 /\
  snd (HStar2Nodes insertion engine None 9223372036854775807
         9223372036854775807 [] get_nothing set_record) []
  = (Panicked (PanicHashEmpty (-9223372036854775799)), [],
     [EvGet 0 0 None None;
      EvHashEmpty 42 (Some [x00]) (-9223372036854775799)]) /\
  BitLen (hasher engine) - 8 - 2 < 0 /\
  snd (HStar2Nodes insertion engine None 8 2 [leaf_nil x61]
         get_nothing set_record) []
  = (Panicked PanicNilPointer, [], []).
Proof.
  split; [vm_compute; reflexivity|].
  split; [|split; vm_compute; reflexivity].
  assert (Hoff : 0 <= offset_of engine 9223372036854775807 9223372036854775807)
    by (vm_compute; discriminate).
  rewrite (HStar2Nodes_run writes insertion engine None 9223372036854775807
             9223372036854775807 [] get_nothing set_record
             ltac:(constructor) Hoff).
  cbn [snd]. change (fst (sort_Sort insertion ByIndex [])) with (@nil HStar2LeafHash).
  rewrite hStar2b_empty. vm_compute. reflexivity.
Qed.

(** A subtree of two levels at depth 6: the whole run is the run of the
    reference core over the callbacks of the specification. *)
Lemma callback_levels_witness :
  snd (HStar2Nodes insertion engine None 6 2 two_leaves get_nothing set_record) []
  = h_spec engine 2
      (fst (HStar2Nodes insertion engine None 6 2 two_leaves get_nothing set_record))
      0 (level_get engine 6 2 get_nothing) (level_set 2 set_record) [].
Proof.
  apply (proj1 (callback_levels writes insertion engine None 6 2 two_leaves
                  get_nothing set_record []
                  ltac:(lia) ltac:(lia) ltac:(vm_compute; discriminate)
                  ltac:(vm_compute; split; [discriminate|reflexivity])
                  ltac:(repeat constructor))).
Defined.

(** C2, the claim as stated fails: in a subtree of one level over the
    leaf 0, the getter is asked for the empty leaf 1, at the deepest
    level of the subtree (local height 0), with level 1, and the setter
    is given the root of the subtree (local height 1) with level 0; so it
    is not the case that the level is 0 exactly at the deepest level. *)
Lemma level_zero_is_the_subtree_root :
  events (snd (HStar2Nodes insertion engine None 7 1 [leaf 0 x61]
                 get_nothing set_record) [])
  = [EvGet 1 1 None None;
     EvHashEmpty 42 (Some [x01]) 0;
     EvHashChildren (Some [x61]) (Some [xf2]);
     EvSet 0 0 (Some [x30]) None] /\
  events (nodes_get engine 1 0 get_nothing 0 1 [])
  = [EvGet 1 1 None None; EvHashEmpty 42 (Some [x01]) 0] /\
  events (nodes_set 1 set_record 1 0 (Some [x30]) [])
  = [EvSet 0 0 (Some [x30]) None] /\
  ~ (forall n level index h e rest,
       0 <= n <= 1 ->
       events (nodes_get engine 1 0 get_nothing n index [])
         = EvGet level index h e :: rest ->
       (level = 0 <-> n = 0)).
Proof.
  split; [vm_compute; reflexivity|].
  split; [vm_compute; reflexivity|].
  split; [vm_compute; reflexivity|].
  intros H.
  specialize (H 0 1 1 None None [EvHashEmpty 42 (Some [x01]) 0]
                ltac:(lia) ltac:(vm_compute; reflexivity)).
  lia.
Qed.

(** C1, the setter half fails: the store refuses the write of the
    subtree root, the engine has called the setter and seen its error,
    and the call returns the hash with no error. *)
Theorem setter_error_is_dropped :
  snd (HStar2Nodes insertion engine None 7 1 [leaf 0 x61]
         get_nothing set_failing) []
  = (Ret (Some [x30], None),
     [(0, 0, Some [x30])],
     [EvGet 1 1 None None;
      EvHashEmpty 42 (Some [x01]) 0;
      EvHashChildren (Some [x61]) (Some [xf2]);
      EvSet 0 0 (Some [x30]) (Some (ErrOther "write failed"))]).
Proof. vm_compute. reflexivity. Qed.

End Runs.

(** ** What HStar2Root computes *)

Module TreeProofs.
Import Go GoFacts maphasher merkle LeavesProofs Instance CoreProofs EngineProofs.
Import MapHasherProofs CoordProofs.

(** The root of the complete tree of height k over the indices from
    offset on: the leaf at an index is the hash given for it, or the
    first null hash when none is given, and a node is HashChildren of
    its two halves. *)
Fixpoint sparse_root (m : MapHasher) (k : nat) (offset : Z) (values : Leaves)
    : bytes :=
  match k with
  | O =>
      match find (fun v => index v =? offset) values with
      | Some v => LeafHash v
      | None => nth 0 (nullHashes m) None
      end
  | S k' =>
      HashChildren m (sparse_root m k' offset values)
                     (sparse_root m k' (offset + 2 ^ Z.of_nat k') values)
  end.

Definition in_range (offset : Z) (k : nat) (values : Leaves) : Prop :=
  Forall (fun v => offset <= index v < offset + 2 ^ Z.of_nat k) values.

(** On leaves that all have an index, the pointers are distinct exactly
    when the numbers are. *)
Lemma map_Index_indexed (values : Leaves) :
  all_indexed values -> map Index values = map Some (map index values).
Proof.
  induction 1 as [|v vs Hv _ IH]; [reflexivity|].
  simpl. now rewrite (has_index_Some v Hv), IH.
Qed.

Lemma NoDup_Index_index (values : Leaves) :
  all_indexed values ->
  (NoDup (map Index values) <-> NoDup (map index values)).
Proof.
  intros H. rewrite (map_Index_indexed values H). split.
  - apply NoDup_map_inv.
  - induction 1 as [|x l Hx _ IH]; simpl; constructor; [|exact IH].
    intros Hin. apply in_map_iff in Hin. destruct Hin as (y & [= ->] & Hy).
    contradiction.
Qed.

Lemma in_range_indexed (n : Z) (values : Leaves) :
  Forall (fun v => exists i, Index v = Some i /\ 0 <= i < 2 ^ n) values ->
  all_indexed values /\ Forall (fun v => 0 <= index v < 2 ^ n) values.
Proof.
  intros H. split; (eapply Forall_impl; [|exact H]);
    intros v (i & E & Hi); unfold has_index, index; now rewrite E.
Qed.

Lemma BitLen_New (h : crypto_Hash) :
  BitLen (maphasher.New h) = Z.of_nat (size_bytes h * 8).
Proof. unfold BitLen, Size, maphasher.New, initNullHashes. cbn [Hash]. lia. Qed.

Lemma Size_New (h : crypto_Hash) : Size (Hash (maphasher.New h)) = Size h.
Proof. reflexivity. Qed.

Lemma HashEmpty_New (h : crypto_Hash) treeID index (k : Z) :
  0 <= k <= BitLen (maphasher.New h) ->
  HashEmpty (maphasher.New h) treeID index k
  = Ret (nth (Z.to_nat k) (nullHashes (maphasher.New h)) None).
Proof.
  intros Hk. destruct (New_nullHashes h) as [Hlen _].
  rewrite BitLen_New in Hk. unfold HashEmpty, len. rewrite Hlen.
  destruct (Z.ltb_spec k 0); [lia|].
  destruct (Z.geb_spec k (Z.of_nat (size_bytes h * 8 + 1))); [lia|]. reflexivity.
Qed.

Lemma HashEmpty_New_out (h : crypto_Hash) treeID index (k : Z) :
  k < 0 \/ BitLen (maphasher.New h) < k ->
  HashEmpty (maphasher.New h) treeID index k = Panicked (PanicHashEmpty k).
Proof.
  intros Hk. destruct (New_nullHashes h) as [Hlen _].
  rewrite BitLen_New in Hk. unfold HashEmpty, len. rewrite Hlen.
  destruct (Z.ltb_spec k 0); [reflexivity|].
  destruct (Z.geb_spec k (Z.of_nat (size_bytes h * 8 + 1))); [reflexivity|lia].
Qed.

Lemma nullHashes_New_succ (h : crypto_Hash) (k : nat) :
  Z.of_nat (S k) <= BitLen (maphasher.New h) ->
  nth (S k) (nullHashes (maphasher.New h)) None
  = HashChildren (maphasher.New h)
      (nth k (nullHashes (maphasher.New h)) None)
      (nth k (nullHashes (maphasher.New h)) None).
Proof.
  intros Hk. rewrite BitLen_New in Hk.
  destruct (New_nullHashes h) as [_ Hnth]. rewrite !Hnth by lia. reflexivity.
Qed.

(** An index below 2^BitLen fits the width of the hash. *)
Lemma PaddedBytes_fits (i size : Z) :
  0 <= size -> 0 <= i < 2 ^ (size * 8) ->
  exists buf, PaddedBytes i size = Ret (Some buf).
Proof.
  intros Hs Hi.
  assert (Hlen : len (Bytes i) <= size).
  { apply Bytes_length_le; [exact Hs|].
    replace (size * 8) with (8 * size) in Hi by lia.
    rewrite Z.pow_mul_r in Hi by lia. change (2 ^ 8) with 256 in Hi. lia. }
  unfold PaddedBytes. destruct (Z.ltb_spec size 0); [lia|].
  assert (Hr : len (repeat x00 (Z.to_nat size)) = size).
  { unfold len. rewrite repeat_length. lia. }
  rewrite Hr. destruct (Z.ltb_spec (size - len (Bytes i)) 0); [lia|]. eauto.
Qed.

(** X8: for two positions within the slice, Swap exchanges the two
    leaves and keeps every other one: the slice afterwards is a
    permutation of the slice before. *)
Theorem Swap_exchanges (s : Leaves) (i j : nat) :
  (i < length s)%nat -> (j < length s)%nat ->
  Permutation s (Swap s i j) /\
  length (Swap s i j) = length s /\
  nth i (Swap s i j) zero_leaf = nth j s zero_leaf /\
  nth j (Swap s i j) zero_leaf = nth i s zero_leaf /\
  (forall k, k <> i -> k <> j ->
     nth k (Swap s i j) zero_leaf = nth k s zero_leaf).
Proof.
  intros Hi Hj. split; [now apply Swap_Permutation|]. unfold Swap.
  split; [now rewrite !length_store|]. split; [|split].
  - destruct (Nat.eq_dec i j) as [->|Hne].
    + apply nth_store_same. now rewrite length_store.
    + rewrite nth_store_other by congruence. now apply nth_store_same.
  - apply nth_store_same. now rewrite length_store.
  - intros k Hki Hkj. rewrite !nth_store_other by congruence. reflexivity.
Qed.

Section Tree.

Variable St : Type.

(** The getter of HStar2Root on a node of the tree of a hasher from New:
    the null hash of the node's height. *)
Lemma root_get_run (h : crypto_Hash) (s : HStar2) (n i : Z) (st : St) :
  hasher s = maphasher.New h ->
  0 <= n <= BitLen (hasher s) -> 0 <= i < 2 ^ BitLen (hasher s) ->
  exists padded,
    root_get s n i st
    = (Ret (nth (Z.to_nat n) (nullHashes (hasher s)) None, None), st,
       [EvHashEmpty (treeID s) padded n]).
Proof.
  intros Hh Hn Hi. unfold root_get. rewrite Hh in *.
  destruct (PaddedBytes_fits i (Size (Hash (maphasher.New h)))) as [buf Hbuf].
  - unfold Size. lia.
  - exact Hi.
  - exists (Some buf). unfold bind, lift, call_HashEmpty, emit. rewrite Hbuf.
    rewrite HashEmpty_New by exact Hn. reflexivity.
Qed.

Lemma sparse_root_nil (h : crypto_Hash) (k : nat) (offset : Z) :
  Z.of_nat k <= BitLen (maphasher.New h) ->
  sparse_root (maphasher.New h) k offset []
  = nth k (nullHashes (maphasher.New h)) None.
Proof.
  revert offset. induction k as [|k IH]; intros offset Hk; [reflexivity|].
  cbn [sparse_root]. rewrite !IH by lia. symmetry. now apply nullHashes_New_succ.
Qed.

(** The root of a range only looks at the leaves of the range. *)
Lemma sparse_root_filter (m : MapHasher) (f : HStar2LeafHash -> bool)
    (k : nat) (offset : Z) (values : Leaves) :
  (forall v, In v values ->
     offset <= index v < offset + 2 ^ Z.of_nat k -> f v = true) ->
  sparse_root m k offset (filter f values) = sparse_root m k offset values.
Proof.
  revert offset. induction k as [|k IH]; intros offset Hf.
  - cbn [sparse_root].
    assert (E : find (fun v => index v =? offset) (filter f values)
                = find (fun v => index v =? offset) values).
    { induction values as [|v vs IHv]; [reflexivity|].
      simpl. destruct (Z.eqb_spec (index v) offset) as [Heq|Hne].
      - rewrite (Hf v) by (simpl; auto; simpl; lia). simpl.
        destruct (Z.eqb_spec (index v) offset); [reflexivity|lia].
      - destruct (f v); simpl.
        + destruct (Z.eqb_spec (index v) offset); [lia|].
          apply IHv. intros w Hw. apply Hf. now right.
        + apply IHv. intros w Hw. apply Hf. now right. }
    now rewrite E.
  - cbn [sparse_root].
    assert (Hp : 0 < 2 ^ Z.of_nat k) by (apply Z.pow_pos_nonneg; lia).
    assert (E2 : 2 ^ Z.of_nat (S k) = 2 * 2 ^ Z.of_nat k).
    { rewrite Nat2Z.inj_succ, Z.pow_succ_r by lia. reflexivity. }
    rewrite !IH; [reflexivity| |]; intros v Hv Hr; apply Hf; auto; lia.
Qed.

Lemma NoDup_index_filter (f : HStar2LeafHash -> bool) (values : Leaves) :
  NoDup (map index values) -> NoDup (map index (filter f values)).
Proof.
  induction values as [|v vs IH]; intros H; [constructor|].
  simpl in *. inversion H as [|? ? Hnin Hnd]; subst.
  destruct (f v); [|now apply IH]. simpl. constructor; [|now apply IH].
  intros Hin. apply Hnin. apply in_map_iff in Hin.
  destruct Hin as (w & Hw & Hin). apply filter_In in Hin.
  apply in_map_iff. exists w. tauto.
Qed.

Lemma NoDup_index_parts (split : Z) (values : Leaves) :
  NoDup (map index (below split values)) ->
  NoDup (map index (from split values)) ->
  NoDup (map index values).
Proof.
  unfold below, from. induction values as [|v vs IH]; intros Hb Hf; [constructor|].
  simpl in *.
  assert (Hkey : forall g : HStar2LeafHash -> bool, g v = true ->
            ~ In (index v) (map index (filter g vs)) ->
            (forall w, index w = index v -> g w = true) ->
            ~ In (index v) (map index vs)).
  { intros g Hg Hnin Hall Hin. apply Hnin. apply in_map_iff in Hin.
    destruct Hin as (w & Hw & Hin). apply in_map_iff. exists w.
    split; [exact Hw|]. apply filter_In. split; [exact Hin|now apply Hall]. }
  destruct (Z.ltb_spec (index v) split) as [Hlt|Hge]; simpl in *.
  - inversion Hb as [|? ? Hnin Hnd]; subst. constructor; [|now apply IH].
    apply (Hkey (fun w => index w <? split)); auto.
    + destruct (Z.ltb_spec (index v) split); [reflexivity|lia].
    + intros w Hw. destruct (Z.ltb_spec (index w) split); [reflexivity|lia].
  - inversion Hf as [|? ? Hnin Hnd]; subst. constructor; [|now apply IH].
    apply (Hkey (fun w => negb (index w <? split))); auto.
    + destruct (Z.ltb_spec (index v) split); [lia|reflexivity].
    + intros w Hw. destruct (Z.ltb_spec (index w) split); [lia|reflexivity].
Qed.

(** A result of the core: a hash and no error, or the base case error. *)
Definition hash_or_base_case (r : result) : Prop :=
  snd r = None \/ exists m, 2 <= m /\ r = (None, Some (ErrBaseCase m)).

Lemma split_point_pow (k : nat) (offset : Z) :
  split_point k offset = offset + 2 ^ Z.of_nat k.
Proof.
  rewrite split_point_spec. do 2 f_equal. lia.
Qed.

Lemma in_range_below (k : nat) (offset : Z) (values : Leaves) :
  in_range offset (S k) values ->
  in_range offset k (below (offset + 2 ^ Z.of_nat k) values).
Proof.
  unfold in_range, below. rewrite !Forall_forall. intros H v Hv.
  apply filter_In in Hv. destruct Hv as [Hv Hlt]. specialize (H v Hv). lia.
Qed.

Lemma in_range_from (k : nat) (offset : Z) (values : Leaves) :
  in_range offset (S k) values ->
  in_range (offset + 2 ^ Z.of_nat k) k (from (offset + 2 ^ Z.of_nat k) values).
Proof.
  unfold in_range, from. rewrite !Forall_forall. intros H v Hv.
  apply filter_In in Hv. destruct Hv as [Hv Hge]. specialize (H v Hv).
  rewrite Nat2Z.inj_succ, Z.pow_succ_r in H by lia.
  destruct (Z.ltb_spec (index v) (offset + 2 ^ Z.of_nat k)); [discriminate|lia].
Qed.

Lemma NoDup_index_below (split : Z) (values : Leaves) :
  NoDup (map index values) -> NoDup (map index (below split values)).
Proof. apply NoDup_index_filter. Qed.

Lemma NoDup_index_from (split : Z) (values : Leaves) :
  NoDup (map index values) -> NoDup (map index (from split values)).
Proof. apply NoDup_index_filter. Qed.

(** The core of HStar2Root on any leaves of a range of the tree. *)
Lemma range_root_tree (h : crypto_Hash) (s : HStar2) (k : nat)
    (values : Leaves) (offset : Z) (st : St) :
  hasher s = maphasher.New h ->
  Z.of_nat k <= BitLen (hasher s) ->
  0 <= offset -> offset + 2 ^ Z.of_nat k <= 2 ^ BitLen (hasher s) ->
  exists r t,
    range_root St s k values offset (root_get s) (Some root_set) st
      = (Ret r, st, t) /\
    hash_or_base_case r /\
    (snd r = None -> NoDup (map index values)) /\
    (NoDup (map index values) -> in_range offset k values ->
       r = (sparse_root (hasher s) k offset values, None)).
Proof.
  intros Hh. revert values offset st.
  induction k as [|k IH]; intros values offset st Hk Ho Htop.
  - destruct values as [|v [|w vs]]; cbn [range_root].
    + destruct (root_get_run h s 0 offset st Hh) as [padded ->].
      * pose proof (len_nonneg (nullHashes (hasher s))). rewrite Hh, BitLen_New. lia.
      * simpl in Htop. lia.
      * eexists _, _. split; [reflexivity|]. split; [now left|].
        split; [constructor|]. intros _ _. reflexivity.
    + eexists _, _. split; [reflexivity|]. split; [now left|].
      split; [intros _; repeat constructor; simpl; tauto|].
      intros _ Hr. inversion Hr as [|? ? Hv _]; subst. simpl in Hv.
      cbn [sparse_root find].
      destruct (Z.eqb_spec (index v) offset); [reflexivity|lia].
    + eexists _, _. split; [reflexivity|]. split; [|split].
      * right. exists (len (v :: w :: vs)). split; [|reflexivity].
        rewrite !len_cons. pose proof (len_nonneg vs). lia.
      * discriminate.
      * intros Hnd Hr. exfalso.
        inversion Hr as [|? ? Hv Hr']; subst. inversion Hr' as [|? ? Hw _]; subst.
        simpl in Hv, Hw. inversion Hnd as [|? ? Hnin _]; subst.
        apply Hnin. simpl. left. lia.
  - assert (Hp : 0 < 2 ^ Z.of_nat k) by (apply Z.pow_pos_nonneg; lia).
    assert (E2 : 2 ^ Z.of_nat (S k) = 2 * 2 ^ Z.of_nat k).
    { rewrite Nat2Z.inj_succ, Z.pow_succ_r by lia. reflexivity. }
    destruct values as [|v vs].
    + cbn [range_root].
      destruct (root_get_run h s (Z.of_nat (S k)) offset st Hh) as [padded ->];
        [lia|lia|].
      eexists _, _. split; [reflexivity|]. split; [now left|].
      split; [constructor|]. intros _ _. rewrite Nat2Z.id.
      rewrite Hh. rewrite sparse_root_nil; [reflexivity|]. rewrite <- Hh. exact Hk.
    + cbn [range_root]. cbn zeta. rewrite split_point_pow.
      remember (v :: vs) as l eqn:El. clear El v vs.
      remember (offset + 2 ^ Z.of_nat k) as split eqn:Es.
      destruct (IH (below split l) offset st) as (rL & tL & EL & HsL & HdL & HtL);
        [lia|lia|lia|].
      destruct (IH (from split l) split st) as (rR & tR & ER & HsR & HdR & HtR);
        [lia|lia|lia|].
      unfold join, bind. rewrite EL. destruct rL as [lhs [eL|]].
      * (* the left half fails *)
        cbn. eexists _, _. split; [reflexivity|].
        destruct HsL as [HsL|(m & Hm & HsL)]; [discriminate|].
        injection HsL as -> ->.
        split; [right; eauto|]. split; [discriminate|].
        intros Hnd Hr. exfalso.
        pose proof (in_range_below _ _ _ Hr) as Hr'. rewrite <- Es in Hr'.
        specialize (HtL (NoDup_index_below split l Hnd) Hr').
        discriminate.
      * rewrite ER. destruct rR as [rhs [eR|]].
        -- cbn. eexists _, _. split; [reflexivity|].
           destruct HsR as [HsR|(m & Hm & HsR)]; [discriminate|].
           injection HsR as -> ->.
           split; [right; eauto|]. split; [discriminate|].
           intros Hnd Hr. exfalso.
           pose proof (in_range_from _ _ _ Hr) as Hr'. rewrite <- Es in Hr'.
           specialize (HtR (NoDup_index_from split l Hnd) Hr').
           discriminate.
        -- cbn. eexists _, _. split; [reflexivity|]. split; [now left|]. split.
           ++ intros _. apply (NoDup_index_parts split); auto.
           ++ intros Hnd Hr. cbn [sparse_root]. rewrite <- Es.
              pose proof (in_range_below _ _ _ Hr) as HrL.
              pose proof (in_range_from _ _ _ Hr) as HrR.
              rewrite <- Es in HrL, HrR.
              specialize (HtL (NoDup_index_below split l Hnd) HrL).
              specialize (HtR (NoDup_index_from split l Hnd) HrR).
              injection HtL as ->. injection HtR as ->.
              unfold below, from. rewrite !sparse_root_filter; [reflexivity| |].
              ** intros w _ Hw.
                 destruct (Z.ltb_spec (index w) split); [lia|reflexivity].
              ** intros w _ Hw.
                 destruct (Z.ltb_spec (index w) split); [reflexivity|lia].
Qed.

(** From the core on a range to HStar2Root on the whole tree. *)
Lemma HStar2Root_tree (h : crypto_Hash) (srt : Sorter) (s : HStar2) (n : Z)
    (values : Leaves) (st : St) :
  hasher s = maphasher.New h ->
  0 <= n <= BitLen (hasher s) ->
  all_indexed values ->
  exists r t,
    snd (HStar2Root srt s n values) st = (Ret r, st, t) /\
    hash_or_base_case r /\
    (snd r = None -> NoDup (map index values)) /\
    (NoDup (map index values) -> in_range 0 (Z.to_nat n) values ->
       r = (sparse_root (hasher s) (Z.to_nat n) 0 values, None)).
Proof.
  intros Hh Hn Ha. rewrite (HStar2Root_run St srt s n values Ha).
  cbn [snd]. unfold hStar2b.
  destruct (Z.ltb_spec n 0); [lia|].
  rewrite (hStar2b_rec_range_root St s (Z.to_nat n)
             (fst (sort_Sort srt ByIndex values)) 0
             (root_get s) (Some root_set) (proj2 (Sort_indexed srt values Ha))).
  rewrite <- (range_root_Permutation St s (Z.to_nat n) values
                (fst (sort_Sort srt ByIndex values)) 0 (root_get s)
                (Some root_set) (Sort_Permutation srt values)).
  apply (range_root_tree h); auto; try lia.
  rewrite Z2Nat.id by lia. apply Z.pow_le_mono_r; lia.
Qed.

(** X1: with no leaves HStar2Root(n, []) is the null hash of height n,
    for every n from 0 to BitLen; for any other n it panics in
    HashEmpty. *)
Theorem HStar2Root_empty_tree (h : crypto_Hash) (srt : Sorter) (s : HStar2)
    (n : Z) (st : St) :
  hasher s = maphasher.New h ->
  outcome (snd (HStar2Root srt s n []) st)
  = if (0 <=? n) && (n <=? BitLen (hasher s))
    then Ret (nth (Z.to_nat n) (nullHashes (hasher s)) None, None)
    else Panicked (PanicHashEmpty n).
Proof.
  intros Hh. rewrite (HStar2Root_short St srt s n []) by (simpl; lia).
  cbn [snd]. rewrite hStar2b_empty. unfold root_get. rewrite Hh.
  destruct (PaddedBytes_fits 0 (Size (Hash (maphasher.New h)))) as [buf Hbuf].
  - unfold Size. lia.
  - split; [lia|]. apply Z.pow_pos_nonneg; unfold Size; lia.
  - unfold bind, lift, call_HashEmpty, emit. rewrite Hbuf.
    destruct (Z.leb_spec 0 n) as [H0|H0]; cbn [andb].
    + destruct (Z.leb_spec n (BitLen (maphasher.New h))) as [H1|H1].
      * rewrite HashEmpty_New by lia. reflexivity.
      * rewrite HashEmpty_New_out by lia. reflexivity.
    + rewrite HashEmpty_New_out by lia. reflexivity.
Qed.

(** X2: for a hasher made by New and a height from 0 to BitLen,
    HStar2Root does not panic on leaves that all have an index, whatever
    the indices are, and leaves the store alone: it returns a hash and no
    error, or the base case error for two or more leaves in one place.
    With a leaf whose index is nil and a positive n it panics on the nil
    pointer, in the sort or in the search of the core. *)
Theorem HStar2Root_never_panics (h : crypto_Hash) (srt : Sorter) (s : HStar2)
    (n : Z) (values : Leaves) (st : St) :
  hasher s = maphasher.New h ->
  0 <= n <= BitLen (hasher s) ->
  (all_indexed values ->
     exists r,
       outcome (snd (HStar2Root srt s n values) st) = Ret r /\
       store_after (snd (HStar2Root srt s n values) st) = st /\
       hash_or_base_case r) /\
  (~ all_indexed values -> 0 < n ->
     snd (HStar2Root srt s n values) st = (Panicked PanicNilPointer, st, [])).
Proof.
  intros Hh Hn. split.
  - intros Ha.
    destruct (HStar2Root_tree h srt s n values st Hh Hn Ha) as (r & t & E & Hs & _).
    exists r. rewrite E. auto.
  - intros Hnil Hpos.
    destruct (all_indexed_dec values) as [Ha|He]; [contradiction|].
    destruct (Nat.lt_ge_cases (length values) 2) as [Hl|Hl].
    + rewrite (HStar2Root_short St srt s n values Hl). cbn [snd].
      destruct values as [|v [|w vs]]; simpl in Hl; try lia.
      { exfalso. apply Hnil. constructor. }
      unfold hStar2b. destruct (Z.ltb_spec n 0); [lia|].
      destruct (Z.to_nat n) as [|k] eqn:Ek; [lia|].
      rewrite hStar2b_rec_node. cbn zeta.
      assert (Hv : Index v = None).
      { apply Exists_exists in He. destruct He as (x & [<-|[]] & Hx).
        unfold has_index in Hx. now destruct (Index v). }
      unfold search_index, Search, at_or_after. cbn. rewrite Hv. reflexivity.
    + now rewrite (HStar2Root_nil St srt s n values Hl He).
Qed.

(** X3: for a hasher made by New, a height from 0 to BitLen and leaves
    that all have an index, two leaves with the same index make
    HStar2Root fail with the base case error, wherever the index lies:
    it never picks one. *)
Theorem HStar2Root_duplicate_index (h : crypto_Hash) (srt : Sorter)
    (s : HStar2) (n : Z) (values : Leaves) (st : St) :
  hasher s = maphasher.New h ->
  0 <= n <= BitLen (hasher s) ->
  all_indexed values ->
  ~ NoDup (map Index values) ->
  exists m,
    2 <= m /\
    outcome (snd (HStar2Root srt s n values) st)
    = Ret (None, Some (ErrBaseCase m)).
Proof.
  intros Hh Hn Ha Hdup.
  destruct (HStar2Root_tree h srt s n values st Hh Hn Ha)
    as (r & t & E & Hs & Hd & _).
  rewrite E. destruct Hs as [Hs|(m & Hm & ->)]; [|eauto].
  exfalso. apply Hdup. apply NoDup_Index_index; auto.
Qed.

(** X4: for leaves with distinct indices, none of them nil, from 0 to
    below 2^n, HStar2Root(n, values) is the root of the complete tree of
    height n whose leaf at each given index is the given hash and whose
    other leaves are the null hash of height 0. *)
Theorem HStar2Root_sparse_root (h : crypto_Hash) (srt : Sorter) (s : HStar2)
    (n : Z) (values : Leaves) (st : St) :
  hasher s = maphasher.New h ->
  0 <= n <= BitLen (hasher s) ->
  NoDup (map Index values) ->
  Forall (fun v => exists i, Index v = Some i /\ 0 <= i < 2 ^ n) values ->
  outcome (snd (HStar2Root srt s n values) st)
  = Ret (sparse_root (hasher s) (Z.to_nat n) 0 values, None).
Proof.
  intros Hh Hn Hnd Hr. apply in_range_indexed in Hr. destruct Hr as [Ha Hr].
  destruct (HStar2Root_tree h srt s n values st Hh Hn Ha)
    as (r & t & E & _ & _ & Hv).
  rewrite E. cbn. f_equal. apply Hv; [now apply NoDup_Index_index|].
  unfold in_range. rewrite Z2Nat.id by lia. exact Hr.
Qed.

(** Two runs of the core whose getters answer alike have the same
    outcome, whatever their setters store. *)
Lemma hStar2b_rec_same_outcome s k values offset
    (G1 G2 : SparseGetNodeFunc St) (S1 S2 : SparseSetNodeFunc St) :
  (forall n i st1 st2, 0 <= n <= Z.of_nat k ->
     outcome (G1 n i st1) = outcome (G2 n i st2)) ->
  (forall n i x st, exists e, outcome (S1 n i x st) = Ret e) ->
  (forall n i x st, exists e, outcome (S2 n i x st) = Ret e) ->
  forall st1 st2,
    outcome (hStar2b_rec s k values offset G1 (Some S1) st1)
    = outcome (hStar2b_rec s k values offset G2 (Some S2) st2).
Proof.
  intros HG HS1 HS2. revert values offset.
  induction k as [|k IH]; intros values offset st1 st2.
  - destruct values as [|v [|w vs]]; cbn [hStar2b_rec];
      [apply HG; lia|reflexivity|reflexivity].
  - destruct values as [|v vs]; [cbn [hStar2b_rec]; apply HG; lia|].
    assert (HG' : forall n i a b, 0 <= n <= Z.of_nat k ->
              outcome (G1 n i a) = outcome (G2 n i b))
      by (intros; apply HG; lia).
    specialize (IH HG').
    rewrite !hStar2b_rec_node. cbn zeta.
    destruct (search_index (split_point k offset) (v :: vs)) as [i|p];
      [|reflexivity].
    set (split := split_point k offset).
    pose proof (IH (firstn i (v :: vs)) offset st1 st2) as EL.
    unfold join, bind.
    destruct (hStar2b_rec s k (firstn i (v :: vs)) offset G1 (Some S1) st1)
      as [[[[lhs1 e1]|p1] a1] t1];
    destruct (hStar2b_rec s k (firstn i (v :: vs)) offset G2 (Some S2) st2)
      as [[[[lhs2 e2]|p2] a2] t2]; cbn in EL; try discriminate;
      [|exact EL].
    injection EL as -> ->. destruct e2 as [e|]; [reflexivity|].
    pose proof (IH (skipn i (v :: vs)) split a1 a2) as ER.
    destruct (hStar2b_rec s k (skipn i (v :: vs)) split G1 (Some S1) a1)
      as [[[[rhs1 f1]|q1] b1] u1];
    destruct (hStar2b_rec s k (skipn i (v :: vs)) split G2 (Some S2) a2)
      as [[[[rhs2 f2]|q2] b2] u2]; cbn in ER; try discriminate;
      [|exact ER].
    injection ER as -> ->. destruct f2 as [f|]; [reflexivity|].
    unfold call_HashChildren, bind, emit, ret.
    destruct (HS1 (Z.of_nat (S k)) offset (HashChildren (hasher s) lhs2 rhs2) b1)
      as [x1 Hx1].
    destruct (HS2 (Z.of_nat (S k)) offset (HashChildren (hasher s) lhs2 rhs2) b2)
      as [x2 Hx2].
    destruct (S1 _ _ _ b1) as [[o1 c1] w1]. destruct (S2 _ _ _ b2) as [[o2 c2] w2].
    cbn in Hx1, Hx2. subst o1 o2. reflexivity.
Qed.

(** X5: on leaves that all have an index, HStar2Root(n, values) is
    HStar2Nodes on the n levels at the bottom left of the tree (depth
    BitLen - n, no index prefix) over a store that has no node: the two
    have the same outcome.  (On a leaf with a nil index HStar2Nodes
    panics in its logging loop, which HStar2Root does not have.) *)
Theorem HStar2Nodes_whole_tree (srt : Sorter) (s : HStar2) (n : Z)
    (values : Leaves) (get : GetNode St) (set : SetNode St) (st st' : St) :
  0 <= n -> is_int n ->
  all_indexed values ->
  (forall level index st0, get level index st0 = ((None, None), st0)) ->
  outcome (snd (HStar2Nodes srt s None (BitLen (hasher s) - n) n values get set) st)
  = outcome (snd (HStar2Root srt s n values) st').
Proof.
  intros Hn Hint Ha Hget.
  assert (E0 : offset_of s (BitLen (hasher s) - n) n = 0).
  { unfold offset_of, int_sub.
    replace (BitLen (hasher s) - (BitLen (hasher s) - n)) with n by lia.
    rewrite (int_wrap_exact n Hint), Z.sub_diag. reflexivity. }
  rewrite (HStar2Nodes_run St srt s None (BitLen (hasher s) - n) n values
             get set Ha) by lia.
  rewrite (HStar2Root_run St srt s n values Ha).
  rewrite E0. cbn [snd data]. unfold hStar2b.
  destruct (Z.ltb_spec n 0); [lia|].
  change (SetBytes []) with 0.
  apply hStar2b_rec_same_outcome.
  - intros k i st1 st2 Hk. rewrite Z2Nat.id in Hk by lia.
    unfold nodes_get, root_get, bind, call_get. rewrite Hget. cbn.
    unfold int_add. rewrite Z.add_0_r, int_wrap_exact by (unfold is_int in *; lia).
    unfold lift. destruct (PaddedBytes i (Size (Hash (hasher s)))); [|reflexivity].
    unfold call_HashEmpty, bind, emit, lift.
    destruct (HashEmpty (hasher s) (treeID s) a k); reflexivity.
  - intros k i x st0. unfold nodes_set, call_set.
    destruct (set _ _ _ _) as [e st1]. now exists e.
  - intros k i x st0. now exists None.
Qed.

(** X6: an error HStar2Nodes returns comes with no hash and is its own
    ErrNegativeTreeLevelOffset, the base case error, or an error the
    caller's getter returned in this run; an error of the setter is never
    among the results. *)
Theorem HStar2Nodes_error_origin (srt : Sorter) (s : HStar2) (index : bytes)
    (depth subtreeDepth : Z) (values : Leaves)
    (get : GetNode St) (set : SetNode St) (st : St) (h : bytes) (e : error) :
  outcome (snd (HStar2Nodes srt s index depth subtreeDepth values get set) st)
    = Ret (h, Some e) ->
  h = None /\
  (e = ErrNegativeTreeLevelOffset \/
   (exists m, e = ErrBaseCase m) \/
   from_getter e
     (events (snd (HStar2Nodes srt s index depth subtreeDepth values get set) st))).
Proof.
  unfold HStar2Nodes.
  destruct (log_values values); cbn [snd]; [|cbn; discriminate].
  destruct (_ <? 0); cbn [snd].
  - cbn. intros [= <- <-]. auto.
  - destruct (sort_Sort srt ByIndex values) as [sorted [p|]]; cbn [snd];
      [cbn; discriminate|].
    destruct (hStar2b _ _ _ _ _ _ _) as [[r st1] t1] eqn:E.
    cbn. intros ->.
    apply (hStar2b_error St _ _ _ _ _ _ (nodes_get_error St _ _ _ _)) in E.
    tauto.
Qed.

(** X7: with no leaves and an offset BitLen - depth - subtreeDepth that
    is not negative in Go's int arithmetic, HStar2Nodes is one lookup of
    the subtree root: it calls the getter once, at level 0 and the index
    the prefix spells, never calls the setter, and returns the getter's
    error, else the stored hash, else the null hash of the height
    subtreeDepth + offset in int arithmetic, which is BitLen - depth when
    the subtractions stay within the range of int. *)
Theorem HStar2Nodes_no_leaves (srt : Sorter) (s : HStar2) (index : bytes)
    (depth subtreeDepth : Z) (get : GetNode St) (set : SetNode St) (st : St) :
  0 <= offset_of s depth subtreeDepth ->
  let offset := SetBytes (data index) in
  let call := HStar2Nodes srt s index depth subtreeDepth [] get set in
  let answer := get 0 offset st in
  let height := int_add subtreeDepth (offset_of s depth subtreeDepth) in
  fst call = [] /\
  store_after (snd call st) = snd answer /\
  (exists rest,
     events (snd call st)
       = EvGet 0 offset (fst (fst answer)) (snd (fst answer)) :: rest /\
     forall level i x err, ~ In (EvSet level i x err) rest) /\
  outcome (snd call st)
  = match fst answer with
    | (_, Some e) => Ret (None, Some e)
    | (Some b, None) => Ret (Some b, None)
    | (None, None) =>
        match PaddedBytes offset (Size (Hash (hasher s))) with
        | Ret padded =>
            match HashEmpty (hasher s) (treeID s) padded height with
            | Ret x => Ret (x, None)
            | Panicked q => Panicked q
            end
        | Panicked q => Panicked q
        end
    end /\
  (is_int (BitLen (hasher s) - depth) ->
   is_int (BitLen (hasher s) - depth - subtreeDepth) ->
   height = BitLen (hasher s) - depth).
Proof.
  intros H2. cbn zeta.
  set (tlo := offset_of s depth subtreeDepth) in *.
  rewrite (HStar2Nodes_run St srt s index depth subtreeDepth [] get set
             ltac:(constructor) H2).
  rewrite (Sort_short srt []) by (simpl; lia).
  fold tlo. cbn [fst snd]. rewrite hStar2b_empty.
  assert (El : int_sub subtreeDepth subtreeDepth = 0).
  { unfold int_sub. rewrite Z.sub_diag. reflexivity. }
  assert (Eh : is_int (BitLen (hasher s) - depth) ->
               is_int (BitLen (hasher s) - depth - subtreeDepth) ->
               int_add subtreeDepth tlo = BitLen (hasher s) - depth).
  { intros H1 H1'. unfold tlo, offset_of, int_add, int_sub.
    rewrite (int_wrap_exact _ H1), (int_wrap_exact _ H1').
    replace (subtreeDepth + (BitLen (hasher s) - depth - subtreeDepth))
      with (BitLen (hasher s) - depth) by lia.
    now apply int_wrap_exact. }
  unfold nodes_get, bind, call_get. rewrite El.
  assert (Hno : forall t padded level i x err,
            ~ In (EvSet level i x err)
                 [EvHashEmpty t padded (int_add subtreeDepth tlo)]).
  { intros ? ? ? ? ? ? [Hin|[]]. discriminate. }
  destruct (get 0 (SetBytes (data index)) st) as [[hh [e|]] st1]; cbn.
  - split; [reflexivity|]. split; [reflexivity|].
    split; [|split; [destruct hh; reflexivity|exact Eh]].
    exists []. split; [reflexivity|]. intros ? ? ? ? [].
  - destruct hh as [b|]; cbn.
    + split; [reflexivity|]. split; [reflexivity|].
      split; [|split; [reflexivity|exact Eh]].
      exists []. split; [reflexivity|]. intros ? ? ? ? [].
    + unfold lift.
      destruct (PaddedBytes (SetBytes (data index)) (Size (Hash (hasher s))))
        as [padded|q]; cbn.
      * unfold call_HashEmpty, bind, emit, lift.
        destruct (HashEmpty (hasher s) (treeID s) padded (int_add subtreeDepth tlo));
          cbn; (split; [reflexivity|]); (split; [reflexivity|]);
          (split; [|split; [reflexivity|exact Eh]]);
          eexists; (split; [reflexivity|]); apply Hno.
      * split; [reflexivity|]. split; [reflexivity|].
        split; [|split; [reflexivity|exact Eh]].
        exists []. split; [reflexivity|]. intros ? ? ? ? [].
Qed.

End Tree.

End TreeProofs.

(** ** The random load balancer *)

Module BalancerProofs.
Import balancer.

(** What can happen to a balancer: grpc reports a connection or a
    disconnection, takes a message from the channel [Notify] gave it, or
    closes the balancer. *)
Inductive step : Random -> Random -> Prop :=
| step_Up r addr r' : Up r addr = Done r' -> step r r'
| step_down r addr : step r (down r addr)
| step_receive r msg rest :
    notify r = msg :: rest ->
    step r {| connectedAddrs := connectedAddrs r; notify := rest |}
| step_Close r r' : Close r = Done r' -> step r r'.

Inductive reachable (addresses : list string) : Random -> Prop :=
| reach_New : reachable addresses (New addresses)
| reach_step r r' : reachable addresses r -> step r r' -> reachable addresses r'.

Lemma step_keeps_nil_map (r r' : Random) :
  step r r' -> connectedAddrs r = None -> connectedAddrs r' = None.
Proof.
  intros Hs Hnil. destruct Hs as [r addr r' H|r addr|r msg rest H|r r' H].
  - unfold Up in H. rewrite Hnil in H. discriminate.
  - unfold down. cbn. now rewrite Hnil.
  - exact Hnil.
  - unfold Close in H. destruct (send (notify r) []); [|discriminate].
    injection H as <-. exact Hnil.
Qed.

(** X9: New never allocates the map of connected addresses and nothing
    else does: in every state a balancer from New can reach, Get fails
    with "No connected addresses" whatever the iteration order, and Up
    panics on the nil map.  The channel of New holds the addresses, in
    order, as one message. *)
Theorem pool_is_never_allocated (addresses : list string) (r : Random) :
  reachable addresses r ->
  connectedAddrs r = None /\
  (forall start, Get r start = inr "No connected addresses"%string) /\
  (forall addr, Up r addr = Panics PanicNilMap) /\
  notify (New addresses) = [map (fun a => {| Addr := a |}) addresses].
Proof.
  intros Hr.
  assert (Hnil : connectedAddrs r = None).
  { induction Hr as [|r r' _ IH Hs]; [reflexivity|].
    now apply (step_keeps_nil_map r r'). }
  split; [exact Hnil|]. split; [|split].
  - intros start. unfold Get. now rewrite Hnil.
  - intros addr. unfold Up. now rewrite Hnil.
  - reflexivity.
Qed.

(** After New, a disconnection and the receipt of the addresses. *)
Lemma pool_is_never_allocated_witness :
  let r := {| connectedAddrs := None; notify := [] |} in
  connectedAddrs r = None /\
  (forall start, Get r start = inr "No connected addresses"%string) /\
  (forall addr, Up r addr = Panics PanicNilMap) /\
  notify (New ["a:1"; "b:2"]%string)
  = [map (fun a => {| Addr := a |}) ["a:1"; "b:2"]%string].
Proof.
  apply (pool_is_never_allocated ["a:1"; "b:2"]%string).
  apply reach_step with (r := down (New ["a:1"; "b:2"]%string) {| Addr := "a:1" |}).
  - apply reach_step with (r := New ["a:1"; "b:2"]%string).
    + apply reach_New.
    + apply step_down.
  - exact (step_receive (down (New ["a:1"; "b:2"]%string) {| Addr := "a:1" |})
             (map (fun a => {| Addr := a |}) ["a:1"; "b:2"]%string) [] eq_refl).
Defined.

End BalancerProofs.

(** ** The log client *)

Module ClientProofs.
Import Go client.

Section Client.

Variable Srv : Type.
Variable E : Type.

Lemma check_leaves_ok (start : Z) (i : nat) (leaves : list (option LogLeaf)) :
  check_leaves (E := E) start i leaves = Ret None ->
  forall j, (j < length leaves)%nat ->
    exists l, nth j leaves None = Some l /\
              LeafIndex l = int_add start (Z.of_nat (i + j)).
Proof.
  revert i. induction leaves as [|[l|] rest IH]; intros i H j Hj; simpl in *.
  - lia.
  - destruct (Z.eqb_spec (LeafIndex l) (int_add start (Z.of_nat i)))
      as [Heq|Hne]; simpl in H; [|discriminate].
    destruct j as [|j].
    + exists l. split; [reflexivity|]. now rewrite Nat.add_0_r.
    + destruct (IH (S i) H j ltac:(lia)) as (l' & Hl' & Hi').
      exists l'. split; [exact Hl'|]. rewrite Hi'. do 2 f_equal. lia.
  - discriminate.
Qed.

(** X10: the leaves ListByIndex returns are the server's answer to the
    range request, at least count of them, none missing, and the leaf at
    position j has the index start + j: the client refuses an answer
    with a gap, a wrong start or too few leaves. *)
Theorem ListByIndex_consecutive (c : LogClient Srv E) (start count : Z)
    (srv srv' : Srv) (leaves : list (option LogLeaf)) :
  ListByIndex c start count srv = (Ret (inl leaves), srv') ->
  GetLeavesByRange (rpc c) (LogID c) start count srv = (inl leaves, srv') /\
  count <= len leaves /\
  forall j, (j < length leaves)%nat ->
    exists l, nth j leaves None = Some l /\
              LeafIndex l = int_add start (Z.of_nat j).
Proof.
  unfold ListByIndex.
  destruct (GetLeavesByRange (rpc c) (LogID c) start count srv)
    as [[got|err] srv1]; [|discriminate].
  destruct (Z.ltb_spec (len got) count) as [Hlt|Hge]; [discriminate|].
  destruct (check_leaves start 0 got) as [[err|]|p] eqn:Hc; try discriminate.
  intros [= <- <-]. split; [reflexivity|]. split; [exact Hge|].
  intros j Hj. exact (check_leaves_ok start 0 got Hc j Hj).
Qed.

Ltac unchanged :=
  split; [lia|]; split; [lia|]; do 3 (split; [reflexivity|]);
  split; [intros ? Hx; discriminate Hx|reflexivity].

(** X11: UpdateRoot never moves the trusted root backwards: the tree
    size and the timestamp of the root it keeps are at least what they
    were; it returns a root only when it has adopted it, and then the
    timestamp is strictly newer; in every other case, error included,
    the client is left as it was. *)
Theorem UpdateRoot_monotone (c c' : LogClient Srv E) (srv srv' : Srv)
    (r : option LogRootV1 + error E) :
  UpdateRoot c srv = (Ret (c', r), srv') ->
  TreeSize (root c) <= TreeSize (root c') /\
  TimestampNanos (root c) <= TimestampNanos (root c') /\
  verifier c' = verifier c /\ LogID c' = LogID c /\ rpc c' = rpc c /\
  (forall nr, r = inl (Some nr) ->
     root c' = nr /\ TimestampNanos (root c) < TimestampNanos nr) /\
  ((forall nr, r <> inl (Some nr)) -> c' = c).
Proof.
  unfold UpdateRoot, GetRoot.
  destruct (getAndVerifyLatestRoot c (Some (root c)) srv)
    as [[[newTrusted|err]|p] srv1]; [| |discriminate].
  - destruct (Z.gtb_spec (TimestampNanos newTrusted) (TimestampNanos (root c)))
      as [Ht|Ht]; cbn [andb].
    + destruct (Z.geb_spec (TreeSize newTrusted) (TreeSize (root c))) as [Hs|Hs].
      * intros [= <- <- <-]. cbn.
        split; [lia|]. split; [lia|]. do 3 (split; [reflexivity|]). split.
        -- intros nr [= <-]. split; [reflexivity|lia].
        -- intros H. exfalso. now apply (H newTrusted).
      * intros [= <- <- <-]. unchanged.
    + intros [= <- <- <-]. unchanged.
  - intros [= <- <- <-]. unchanged.
Qed.

(** The root getAndVerifyLatestRoot returns is the decoded root of the
    server's answer, and it is the unchanged tree, an empty tree, or a
    root VerifyRoot accepted against the trusted one. *)
Lemma getAndVerifyLatestRoot_ok (c : LogClient Srv E) (trusted : option LogRootV1)
    (srv srv' : Srv) (logRoot : LogRootV1) :
  getAndVerifyLatestRoot c trusted srv = (Ret (inl logRoot), srv') ->
  exists old slr srv1,
    trusted = Some old /\
    GetLatestSignedLogRoot (rpc c) (LogID c) srv = (inl (Some slr), srv1) /\
    UnmarshalBinary (verifier c) (LogRoot slr) = inl logRoot /\
    ((0 < TreeSize old /\ TreeSize logRoot = TreeSize old /\
      data (RootHash logRoot) = data (RootHash old) /\ srv' = srv1) \/
     (TreeSize logRoot <= 0 /\ TreeSize old <= 0 /\ srv' = srv1) \/
     (0 < TreeSize logRoot /\ TreeSize old <= 0 /\ srv' = srv1 /\
      exists v, VerifyRoot (verifier c) old (Some slr) [] = inl v) \/
     (0 < TreeSize old /\
      exists proof,
        GetConsistencyProof (rpc c) (LogID c)
          (int64_of_uint64 (TreeSize old)) (int64_of_uint64 (TreeSize logRoot)) srv1
        = (inl proof, srv') /\
        (TreeSize logRoot <= 0 \/
         exists v,
           VerifyRoot (verifier c) old (Some slr)
             (match proof with Some p => Hashes p | None => [] end) = inl v))).
Proof.
  unfold getAndVerifyLatestRoot.
  destruct (GetLatestSignedLogRoot (rpc c) (LogID c) srv) as [[[slr|]|err] srv1];
    try discriminate.
  destruct (UnmarshalBinary (verifier c) (LogRoot slr)) as [lr|err] eqn:Eu;
    [|discriminate].
  destruct trusted as [old|]; [|discriminate].
  destruct (Z.gtb_spec (TreeSize old) 0) as [Hold|Hold]; cbn [andb].
  - destruct (Z.eqb_spec (TreeSize lr) (TreeSize old)) as [Heq|Hne]; cbn [andb].
    + unfold bytes_Equal.
      destruct (list_eq_dec Byte.byte_eq_dec (data (RootHash lr)) (data (RootHash old)))
        as [Hh|Hh].
      * intros [= <- <-]. exists old, slr, srv1. do 2 (split; [reflexivity|]). split; [exact Eu|].
        left. repeat split; auto; lia.
      * destruct (GetConsistencyProof _ _ _ _ srv1) as [[proof|err] srv2] eqn:Ec;
          [|discriminate].
        destruct (Z.gtb_spec (TreeSize lr) 0) as [Hn|Hn].
        -- destruct (VerifyRoot _ _ _ _) as [v|err] eqn:Ev; [|discriminate].
           intros [= <- <-]. exists old, slr, srv1. do 2 (split; [reflexivity|]). split; [exact Eu|].
           right. right. right. split; [lia|]. exists proof. split; [exact Ec|].
           right. now exists v.
        -- intros [= <- <-]. exists old, slr, srv1. do 2 (split; [reflexivity|]). split; [exact Eu|].
           right. right. right. split; [lia|]. exists proof. split; [exact Ec|].
           left. lia.
    + destruct (GetConsistencyProof _ _ _ _ srv1) as [[proof|err] srv2] eqn:Ec;
        [|discriminate].
      destruct (Z.gtb_spec (TreeSize lr) 0) as [Hn|Hn].
      * destruct (VerifyRoot _ _ _ _) as [v|err] eqn:Ev; [|discriminate].
        intros [= <- <-]. exists old, slr, srv1. do 2 (split; [reflexivity|]). split; [exact Eu|].
        right. right. right. split; [lia|]. exists proof. split; [exact Ec|].
        right. now exists v.
      * intros [= <- <-]. exists old, slr, srv1. do 2 (split; [reflexivity|]). split; [exact Eu|].
        right. right. right. split; [lia|]. exists proof. split; [exact Ec|].
        left. lia.
  - destruct (Z.gtb_spec (TreeSize lr) 0) as [Hn|Hn].
    + destruct (VerifyRoot _ _ _ _) as [v|err] eqn:Ev; [|discriminate].
      intros [= <- <-]. exists old, slr, srv1. do 2 (split; [reflexivity|]). split; [exact Eu|].
      right. right. left. repeat split; auto; try lia. now exists v.
    + intros [= <- <-]. exists old, slr, srv1. do 2 (split; [reflexivity|]). split; [exact Eu|].
      right. left. repeat split; auto; lia.
Qed.

(** X12: a root UpdateRoot adopts is the decoded root of the server's
    answer, strictly newer than the trusted root and not smaller; it is
    adopted without VerifyRoot only when it is empty or has the size and
    hash of a trusted root that is not empty; otherwise VerifyRoot has
    accepted it against the trusted root, with the hashes of the
    consistency proof the server gave for the two sizes when the trusted
    root is not empty, and with no hashes when it is. *)
Theorem UpdateRoot_adopts_checked_root (c c' : LogClient Srv E)
    (srv srv' : Srv) (nr : LogRootV1) :
  UpdateRoot c srv = (Ret (c', inl (Some nr)), srv') ->
  exists slr srv1,
    GetLatestSignedLogRoot (rpc c) (LogID c) srv = (inl (Some slr), srv1) /\
    UnmarshalBinary (verifier c) (LogRoot slr) = inl nr /\
    TimestampNanos (root c) < TimestampNanos nr /\
    TreeSize (root c) <= TreeSize nr /\
    (TreeSize nr <= 0 \/
     (0 < TreeSize (root c) /\ TreeSize nr = TreeSize (root c) /\
      data (RootHash nr) = data (RootHash (root c))) \/
     (TreeSize (root c) <= 0 /\
      exists v, VerifyRoot (verifier c) (root c) (Some slr) [] = inl v) \/
     (0 < TreeSize (root c) /\
      exists proof v,
        GetConsistencyProof (rpc c) (LogID c)
          (int64_of_uint64 (TreeSize (root c))) (int64_of_uint64 (TreeSize nr)) srv1
        = (inl proof, srv') /\
        VerifyRoot (verifier c) (root c) (Some slr)
          (match proof with Some p => Hashes p | None => [] end) = inl v)).
Proof.
  unfold UpdateRoot, GetRoot.
  destruct (getAndVerifyLatestRoot c (Some (root c)) srv)
    as [[[newTrusted|err]|p] srv1] eqn:Eg; try discriminate.
  destruct (Z.gtb_spec (TimestampNanos newTrusted) (TimestampNanos (root c)))
    as [Ht|Ht]; cbn [andb]; [|discriminate].
  destruct (Z.geb_spec (TreeSize newTrusted) (TreeSize (root c))) as [Hs|Hs];
    [|discriminate].
  intros [= <- <- <-].
  apply getAndVerifyLatestRoot_ok in Eg.
  destruct Eg as (old & slr & srv2 & [= <-] & Hrpc & Hdec & Hcase).
  exists slr, srv2. split; [exact Hrpc|]. split; [exact Hdec|].
  split; [lia|]. split; [lia|].
  destruct Hcase as [(H1 & H2 & H3 & _)|[(H1 & _)|[(H1 & H2 & _ & H3)|(H1 & proof & H2 & H3)]]].
  - right. left. auto.
  - left. exact H1.
  - right. right. left. auto.
  - destruct H3 as [H3|(v & H3)]; [left; exact H3|].
    right. right. right. split; [exact H1|]. now exists proof, v.
Qed.


Lemma verify_proofs_None (c : LogClient Srv E) (sth : LogRootV1)
    (leafHash : bytes) (proofs : list (option Proof)) :
  verify_proofs c sth leafHash proofs = None <->
  Forall (fun p => VerifyInclusionByHash (verifier c) sth leafHash p = None) proofs.
Proof.
  induction proofs as [|p rest IH]; simpl.
  - split; [constructor|reflexivity].
  - destruct (VerifyInclusionByHash (verifier c) sth leafHash p) as [e|] eqn:Ev.
    + split; [discriminate|]. intros H. inversion H; subst. congruence.
    + rewrite IH. split; [now constructor|]. intros H. now inversion H.
Qed.

(** X14: VerifyInclusion succeeds exactly when the leaf can be built,
    the server answers the request for the leaf's hash at the size of
    the trusted root with at least one proof, and
    VerifyInclusionByHash accepts every one of the proofs against the
    trusted root. *)
Theorem VerifyInclusion_ok (c : LogClient Srv E) (leafData : bytes)
    (srv srv' : Srv) :
  VerifyInclusion c leafData srv = (None, srv') <->
  exists leaf proofs,
    BuildLeaf (verifier c) leafData = inl leaf /\
    GetInclusionProofByHash (rpc c) (LogID c) (MerkleLeafHash leaf)
      (int64_of_uint64 (TreeSize (root c))) srv = (inl proofs, srv') /\
    proofs <> [] /\
    Forall (fun p =>
              VerifyInclusionByHash (verifier c) (root c) (MerkleLeafHash leaf) p
              = None) proofs.
Proof.
  unfold VerifyInclusion, getAndVerifyInclusionProof, GetRoot. split.
  - destruct (BuildLeaf (verifier c) leafData) as [leaf|err]; [|discriminate].
    destruct (GetInclusionProofByHash _ _ _ _ srv) as [[proofs|err] srv1] eqn:Er;
      [|discriminate].
    destruct (Z.ltb_spec (len proofs) 1) as [Hl|Hl]; [discriminate|].
    destruct (verify_proofs c (root c) (MerkleLeafHash leaf) proofs) eqn:Ev;
      [discriminate|].
    intros [= <-]. exists leaf, proofs. split; [reflexivity|].
    split; [exact Er|]. split.
    + intros ->. unfold len in Hl. simpl in Hl. lia.
    + now apply verify_proofs_None.
  - intros (leaf & proofs & -> & -> & Hne & Hall).
    destruct (Z.ltb_spec (len proofs) 1) as [Hl|Hl].
    + destruct proofs; [congruence|]. unfold len in Hl. simpl in Hl. lia.
    + apply verify_proofs_None in Hall. rewrite Hall. reflexivity.
Qed.

End Client.

End ClientProofs.

(** ** The added properties on small instances *)

Module MoreRuns.
Import Go GoFacts maphasher merkle LeavesProofs Instance CoreProofs EngineProofs.
Import TreeProofs.

Ltac run := vm_compute; repeat split; try discriminate; try reflexivity.

(** The empty tree of height 3, and one that is too high. *)
Lemma HStar2Root_empty_tree_witness :
  outcome (snd (HStar2Root insertion engine 3 []) tt)
  = Ret (nth 3 (nullHashes (hasher engine)) None, None) /\
  outcome (snd (HStar2Root insertion engine 9 []) tt)
  = Panicked (PanicHashEmpty 9).
Proof.
  split.
  - exact (HStar2Root_empty_tree unit tiny insertion engine 3 tt eq_refl).
  - exact (HStar2Root_empty_tree unit tiny insertion engine 9 tt eq_refl).
Defined.

(** Two leaves outside the tree, and one leaf with a nil index. *)
Lemma HStar2Root_never_panics_witness :
  (exists r,
     outcome (snd (HStar2Root insertion engine 8 [leaf 300 x61; leaf (-4) x62]) tt)
       = Ret r /\
     store_after (snd (HStar2Root insertion engine 8 [leaf 300 x61; leaf (-4) x62]) tt)
       = tt /\
     hash_or_base_case r) /\
  snd (HStar2Root insertion engine 8 [leaf_nil x61]) tt
  = (Panicked PanicNilPointer, tt, []).
Proof.
  split.
  - apply (proj1 (HStar2Root_never_panics unit tiny insertion engine 8
                    [leaf 300 x61; leaf (-4) x62] tt eq_refl ltac:(run))).
    repeat constructor.
  - apply (proj2 (HStar2Root_never_panics unit tiny insertion engine 8
                    [leaf_nil x61] tt eq_refl ltac:(run))).
    + intros H. apply Forall_inv in H. discriminate H.
    + lia.
Defined.

Lemma HStar2Root_duplicate_index_witness :
  exists m,
    2 <= m /\
    outcome (snd (HStar2Root insertion engine 8
                    [leaf 1 x61; leaf 5 x63; leaf 1 x62]) tt)
    = Ret (None, Some (ErrBaseCase m)).
Proof.
  apply (HStar2Root_duplicate_index unit tiny insertion engine 8
           [leaf 1 x61; leaf 5 x63; leaf 1 x62] tt eq_refl).
  - run.
  - repeat constructor.
  - intros H. inversion H as [|x l Hnin _]; subst. apply Hnin.
    right. left. reflexivity.
Defined.

Lemma HStar2Root_sparse_root_witness :
  outcome (snd (HStar2Root insertion engine 3 [leaf 6 x61; leaf 2 x62]) tt)
  = Ret (sparse_root (hasher engine) 3 0 [leaf 6 x61; leaf 2 x62], None).
Proof.
  apply (HStar2Root_sparse_root unit tiny insertion engine 3
           [leaf 6 x61; leaf 2 x62] tt eq_refl).
  - run.
  - repeat constructor; simpl; intuition discriminate.
  - repeat (constructor; [eexists; split; [reflexivity|lia]|]). constructor.
Defined.

Lemma HStar2Nodes_whole_tree_witness :
  outcome (snd (HStar2Nodes insertion engine None (BitLen (hasher engine) - 3) 3
                  [leaf 6 x61; leaf 2 x62] get_nothing set_record) [])
  = outcome (snd (HStar2Root insertion engine 3 [leaf 6 x61; leaf 2 x62])
               ([] : writes)).
Proof.
  apply (HStar2Nodes_whole_tree writes insertion engine 3
           [leaf 6 x61; leaf 2 x62] get_nothing set_record [] []).
  - lia.
  - run.
  - repeat constructor.
  - reflexivity.
Defined.

Lemma HStar2Nodes_error_origin_witness :
  None = (None : bytes) /\
  (ErrNegativeTreeLevelOffset = ErrNegativeTreeLevelOffset \/
   (exists m, ErrNegativeTreeLevelOffset = ErrBaseCase m) \/
   from_getter ErrNegativeTreeLevelOffset
     (events (snd (HStar2Nodes insertion engine None 6 2 [leaf 0 x61]
                     get_failing set_record) []))).
Proof.
  apply (HStar2Nodes_error_origin writes insertion engine None 6 2 [leaf 0 x61]
           get_failing set_record [] None ErrNegativeTreeLevelOffset).
  vm_compute. reflexivity.
Defined.

Lemma HStar2Nodes_getter_error_witness :
  outcome (snd (HStar2Nodes insertion engine None 6 2 [leaf 0 x61]
                  get_failing set_record) [])
  = Ret (None, Some ErrNegativeTreeLevelOffset).
Proof.
  apply (HStar2Nodes_getter_error writes insertion engine None 6 2 [leaf 0 x61]
           get_failing set_record [] 2 1 None ErrNegativeTreeLevelOffset).
  - lia.
  - vm_compute. left. reflexivity.
Defined.

Lemma HStar2Nodes_no_leaves_witness :
  fst (HStar2Nodes insertion engine (Some [x02]) 6 2 [] get_nothing set_record) = [] /\
  outcome (snd (HStar2Nodes insertion engine (Some [x02]) 6 2 []
                  get_nothing set_record) [])
  = Ret (nth 2 (nullHashes (hasher engine)) None, None).
Proof.
  pose proof (HStar2Nodes_no_leaves writes insertion engine (Some [x02]) 6 2
                get_nothing set_record [] ltac:(vm_compute; discriminate))
    as (H1 & _ & _ & H2 & _).
  split; [exact H1|]. rewrite H2. vm_compute. reflexivity.
Defined.

Lemma Swap_exchanges_witness :
  Permutation [leaf 3 x61; leaf 0 x62; leaf 7 x63]
              (Swap [leaf 3 x61; leaf 0 x62; leaf 7 x63] 0 2).
Proof.
  apply (proj1 (Swap_exchanges [leaf 3 x61; leaf 0 x62; leaf 7 x63] 0 2
                  ltac:(simpl; lia) ltac:(simpl; lia))).
Defined.

End MoreRuns.

(** ** The log client against a small server *)

Module ClientRuns.
Import Go client ClientProofs.

(** The server is a count of the requests it has answered; it holds the
    leaves of every index and a root of size 5 stamped 10. *)
Definition leaf_at (i : Z) : LogLeaf :=
  {| LeafIndex := i; LeafValue := None; MerkleLeafHash := Some [x01] |}.

Definition server : TrillianLogClient nat string :=
  {| GetLeavesByIndex := fun _ indices n =>
       (inl (map (fun i => Some (leaf_at i)) indices), S n);
     GetLeavesByRange := fun _ start count n =>
       (inl [Some (leaf_at start); Some (leaf_at (start + 1));
             Some (leaf_at (start + 2))], S n);
     GetLatestSignedLogRoot := fun _ n =>
       (inl (Some {| LogRoot := Some [x05] |}), S n);
     GetConsistencyProof := fun _ _ _ n =>
       (inl (Some {| Hashes := [Some [x09]] |}), S n);
     GetInclusionProofByHash := fun _ _ _ n =>
       (inl [Some {| Hashes := [] |}], S n) |}.

Definition accepting : LogVerifier string :=
  {| VerifyRoot := fun trusted _ _ => inl trusted;
     VerifyInclusionByHash := fun _ _ _ => None;
     BuildLeaf := fun d =>
       inl {| LeafIndex := 0; LeafValue := d; MerkleLeafHash := d |};
     UnmarshalBinary := fun b =>
       inl {| TreeSize := 5; RootHash := b; TimestampNanos := 10 |} |}.

Definition old_root : LogRootV1 :=
  {| TreeSize := 3; RootHash := Some [x03]; TimestampNanos := 7 |}.

Definition new_root : LogRootV1 :=
  {| TreeSize := 5; RootHash := Some [x05]; TimestampNanos := 10 |}.

Definition c0 : LogClient nat string := New 1 server accepting old_root.

Lemma ListByIndex_consecutive_witness :
  2 <= len [Some (leaf_at 4); Some (leaf_at 5); Some (leaf_at 6)] /\
  forall j, (j < 3)%nat ->
    exists l,
      nth j [Some (leaf_at 4); Some (leaf_at 5); Some (leaf_at 6)] None = Some l /\
      LeafIndex l = int_add 4 (Z.of_nat j).
Proof.
  apply (proj2 (ListByIndex_consecutive nat string c0 4 2 0%nat 1%nat
                  [Some (leaf_at 4); Some (leaf_at 5); Some (leaf_at 6)] eq_refl)).
Defined.

Lemma UpdateRoot_monotone_witness :
  TreeSize (root c0) <= TreeSize (root (set_root c0 new_root)).
Proof.
  apply (proj1 (UpdateRoot_monotone nat string c0 (set_root c0 new_root)
                  0%nat 2%nat (inl (Some new_root)) eq_refl)).
Defined.

Lemma UpdateRoot_adopts_checked_root_witness :
  exists slr srv1,
    GetLatestSignedLogRoot (rpc c0) (LogID c0) 0%nat = (inl (Some slr), srv1) /\
    UnmarshalBinary (verifier c0) (LogRoot slr) = inl new_root.
Proof.
  destruct (UpdateRoot_adopts_checked_root nat string c0 (set_root c0 new_root)
              0%nat 2%nat new_root eq_refl) as (slr & srv1 & H1 & H2 & _).
  now exists slr, srv1.
Defined.

End ClientRuns.
